(** * The LRU cache of cache.h and the intrusive hash table of intrusive.h

    Both containers are embedded at the level of their pointers: the recency
    list of the cache is a store of [ListNode]s linked by [prev_] and
    [next_], and the bucket chains of the hash table are linked by
    [htNext].  Dereferencing a pointer that designates no object has no
    defined behaviour in the source; an operation of the model that does so
    yields [None]. *)

From Stdlib Require Import ZArith Lia String.
From stdpp Require Import base option list gmap.

Local Open Scope Z_scope.

(** ** Machine integers *)

(** [int] is 32 bits wide; [std::atomic<int>] arithmetic wraps around. *)
Definition INT_MIN : Z := - 2 ^ 31.
Definition INT_MAX : Z := 2 ^ 31 - 1.
Definition int_range (z : Z) : Prop := INT_MIN <= z <= INT_MAX.
Definition wrap_int (z : Z) : Z := (z + 2 ^ 31) mod 2 ^ 32 - 2 ^ 31.

(** [std::size_t] is 64 bits wide and unsigned. *)
Definition SIZE_MAX : Z := 2 ^ 64 - 1.
Definition wrap_size (z : Z) : Z := z mod 2 ^ 64.

Module LRUC.

(** ** Data model of cache.h *)

(** A [ListNode*].  [NullNodePtr] is [reinterpret_cast<ListNode*>(-1)];
    [HeadPtr] and [TailPtr] are [&head_] and [&tail_]; [HeapPtr a] is the
    address of the node that [std::make_shared] created as the [a]-th node. *)
Inductive ptr : Type :=
  | nullptr
  | NullNodePtr
  | HeadPtr
  | TailPtr
  | HeapPtr (a : nat).

#[global] Instance ptr_eq_dec : EqDecision ptr.
Proof. solve_decision. Defined.

(** [struct ListNode].  The default constructor leaves [key_]
    uninitialised, which is [None] here; only the two sentinels are built
    that way. *)
Record ListNode (K : Type) : Type := mkListNode {
  prev_ : ptr;
  next_ : ptr;
  key_ : option K
}.
Arguments mkListNode {K} _ _ _.
Arguments prev_ {K} _.
Arguments next_ {K} _.
Arguments key_ {K} _.

(** [struct Value]: the mapped type of the hash map.  [listNode_] is the
    [shared_ptr<ListNode>], held as the address of the node. *)
Record Value (V : Type) : Type := mkValue {
  listNode_ : ptr;
  value_ : V
}.
Arguments mkValue {V} _ _.
Arguments listNode_ {V} _.
Arguments value_ {V} _.

(** [struct ConstAccessor]: [constAccessor_] is the key of the map entry
    whose read lock the accessor holds, [None] when it is empty. *)
Module ConstAccessor.

Record t (K V : Type) : Type := mk {
  constAccessor_ : option K;
  value_ : V
}.
Arguments mk {K V} _ _.
Arguments constAccessor_ {K V} _.
Arguments value_ {K V} _.

Definition empty {K V} (ac : t K V) : bool :=
  match constAccessor_ ac with None => true | Some _ => false end.

Definition get {K V} (ac : t K V) : V := value_ ac.

Definition release {K V} (ac : t K V) : t K V := mk None (value_ ac).

(** [setValue]: [value_ = constAccessor_->second.value_]. *)
Definition setValue {K V} (ac : t K V) (entry : Value V) : t K V :=
  mk (constAccessor_ ac) (LRUC.value_ entry).

End ConstAccessor.

(** [class LRUCache]: the two sentinels, the store of the nodes made by
    [insert] (no address is used twice: a node whose last [shared_ptr] is
    dropped stays in the store, where nothing refers to it), the hash map,
    the atomic counter and the capacity.  [listMutex_] has no field: an
    operation of the model runs its critical sections to their end. *)
Record LRUCache (K : Type) `{Countable K} (V : Type) : Type := mkLRUCache {
  head_ : ListNode K;
  tail_ : ListNode K;
  heap : list (ListNode K);
  hash_map_ : gmap K (Value V);
  current_size_ : Z;
  capacity_ : Z
}.
Arguments mkLRUCache {K _ _ V} _ _ _ _ _ _.
Arguments head_ {K _ _ V} _.
Arguments tail_ {K _ _ V} _.
Arguments heap {K _ _ V} _.
Arguments hash_map_ {K _ _ V} _.
Arguments current_size_ {K _ _ V} _.
Arguments capacity_ {K _ _ V} _.

Section cache.
Context {K : Type} `{Countable K} {V : Type}.

Abbreviation Cache := (LRUCache K V).

(** ** The monad of the member functions: state, and [None] for undefined
    behaviour *)
Definition M (A : Type) : Type := Cache → option (A * Cache).

#[global] Instance M_ret : MRet M := λ A a c, Some (a, c).
#[global] Instance M_bind : MBind M := λ A B f m c,
  match m c with
  | Some (a, c') => f a c'
  | None => None
  end.

Definition gets {A} (f : Cache → A) : M A := λ c, Some (f c, c).
Definition modify (f : Cache → Cache) : M unit := λ c, Some (tt, f c).
Definition undefined {A} : M A := λ _, None.

(** *** Memory *)

Definition load_node (c : Cache) (p : ptr) : option (ListNode K) :=
  match p with
  | HeadPtr => Some (head_ c)
  | TailPtr => Some (tail_ c)
  | HeapPtr a => heap c !! a
  | nullptr | NullNodePtr => None
  end.

Definition store_node (p : ptr) (n : ListNode K) (c : Cache) : Cache :=
  match p with
  | HeadPtr =>
      mkLRUCache n (tail_ c) (heap c) (hash_map_ c) (current_size_ c) (capacity_ c)
  | TailPtr =>
      mkLRUCache (head_ c) n (heap c) (hash_map_ c) (current_size_ c) (capacity_ c)
  | HeapPtr a =>
      mkLRUCache (head_ c) (tail_ c) (<[a:=n]> (heap c)) (hash_map_ c)
        (current_size_ c) (capacity_ c)
  | nullptr | NullNodePtr => c
  end.

(** [*p] as an rvalue. *)
Definition load (p : ptr) : M (ListNode K) := λ c,
  match load_node c p with
  | Some n => Some (n, c)
  | None => None
  end.

(** [p->prev_ = q] and [p->next_ = q]. *)
Definition set_prev (p q : ptr) : M unit :=
  n ← load p; modify (store_node p (mkListNode q (next_ n) (key_ n))).
Definition set_next (p q : ptr) : M unit :=
  n ← load p; modify (store_node p (mkListNode (prev_ n) q (key_ n))).

(** [std::make_shared<ListNode>(key)]. *)
Definition make_shared (key : K) : M ptr := λ c,
  Some (HeapPtr (length (heap c)),
        mkLRUCache (head_ c) (tail_ c)
          (heap c ++ [mkListNode NullNodePtr nullptr (Some key)])
          (hash_map_ c) (current_size_ c) (capacity_ c)).

(** [ListNode::inList]. *)
Definition inList (n : ListNode K) : bool := bool_decide (prev_ n ≠ NullNodePtr).

(** *** The hash map and the counter *)

Definition set_hash_map (m : gmap K (Value V)) (c : Cache) : Cache :=
  mkLRUCache (head_ c) (tail_ c) (heap c) m (current_size_ c) (capacity_ c).
Definition set_current_size (z : Z) (c : Cache) : Cache :=
  mkLRUCache (head_ c) (tail_ c) (heap c) (hash_map_ c) z (capacity_ c).

(** [hash_map_.find(accessor, key)]: the entry, if there is one. *)
Definition hash_map_find (key : K) : M (option (Value V)) :=
  gets (λ c, hash_map_ c !! key).

(** [hash_map_.insert(accessor, {key, v})]: inserts and returns [true] when
    [key] has no entry, returns [false] and changes nothing when it has. *)
Definition hash_map_insert (key : K) (v : Value V) : M bool :=
  m ← gets hash_map_;
  match m !! key with
  | Some _ => mret false
  | None => modify (set_hash_map (<[key:=v]> m)) ;; mret true
  end.

(** [hash_map_.erase(key)] and [hash_map_.erase(accessor)]. *)
Definition hash_map_erase (key : K) : M unit :=
  modify (λ c, set_hash_map (delete key (hash_map_ c)) c).

(** [current_size_.load()]. *)
Definition current_size_load : M Z := gets current_size_.

(** [current_size_++]: the value before the increment is the result. *)
Definition current_size_post_increment : M Z :=
  old ← gets current_size_;
  modify (set_current_size (wrap_int (old + 1))) ;;
  mret old.

(** [current_size_--] (its result is not used). *)
Definition current_size_post_decrement : M unit :=
  old ← gets current_size_;
  modify (set_current_size (wrap_int (old - 1))).

(** [current_size_.compare_exchange_strong(expected, desired)]. *)
Definition compare_exchange_strong (expected desired : Z) : M bool :=
  cur ← gets current_size_;
  if bool_decide (cur = expected)
  then modify (set_current_size desired) ;; mret true
  else mret false.

(** ** The member functions *)

(** [LRUCache::unlink]. *)
Definition unlink (node : ptr) : M unit :=
  n ← load node;
  let prev := prev_ n in
  let next := next_ n in
  set_next prev next ;;
  set_prev next prev ;;
  set_prev node NullNodePtr.

(** [LRUCache::append]. *)
Definition append (node : ptr) : M unit :=
  t ← load TailPtr;
  let prevLatestNode := prev_ t in
  set_next node TailPtr ;;
  set_prev node prevLatestNode ;;
  set_prev TailPtr node ;;
  set_next prevLatestNode node.

(** [LRUCache::popFront]. *)
Definition popFront : M unit :=
  h ← load HeadPtr;
  let candidate := next_ h in
  if bool_decide (candidate = TailPtr) then mret tt
  else
    unlink candidate ;;
    n ← load candidate;
    match key_ n with
    | None => undefined
    | Some key =>
        accessor ← hash_map_find key;
        match accessor with
        | None => mret tt
        | Some _ => hash_map_erase key
        end
    end.

(** The constructor; [bucketCount] only sizes the hash map. *)
Definition LRUCache_new (size : Z) (bucketCount : nat) : Cache :=
  mkLRUCache (mkListNode nullptr TailPtr None) (mkListNode HeadPtr nullptr None)
    [] ∅ 0 size.

(** [LRUCache::erase]. *)
Definition erase (key : K) : M Z :=
  accessor ← hash_map_find key;
  match accessor with
  | None => mret 0
  | Some entry =>
      let found_node := listNode_ entry in
      n ← load found_node;
      marked ←
        (if inList n then
           n' ← load found_node;
           if inList n' then
             unlink found_node ;;
             current_size_post_decrement ;;
             mret true
           else mret false
         else mret false);
      (if marked : bool then hash_map_erase key else mret tt) ;;
      mret 1
  end.

(** [LRUCache::find].  [try_lock] is what
    [std::unique_lock lock{listMutex_, std::try_to_lock}] obtains: [false]
    when the mutex cannot be had without waiting. *)
Definition find (try_lock : bool) (caccessor : ConstAccessor.t K V) (key : K)
  : M (bool * ConstAccessor.t K V) :=
  r ← hash_map_find key;
  match r with
  | None => mret (false, ConstAccessor.release caccessor)
  | Some entry =>
      let caccessor :=
        ConstAccessor.setValue
          (ConstAccessor.mk (Some key) (ConstAccessor.value_ caccessor)) entry in
      let found_node := listNode_ entry in
      let caccessor := ConstAccessor.release caccessor in
      (if try_lock then
         n ← load found_node;
         if inList n then unlink found_node ;; append found_node else mret tt
       else mret tt) ;;
      mret (true, caccessor)
  end.

(** [LRUCache::insert]. *)
Definition insert (key : K) (value : V) : M bool :=
  node ← make_shared key;
  inserted ← hash_map_insert key (mkValue node value);
  if negb inserted then mret false
  else
    size ← current_size_load;
    cap ← gets capacity_;
    popped ← (if bool_decide (cap <= size) then popFront ;; mret true
              else mret false);
    append node ;;
    size ← (if negb popped then current_size_post_increment else mret size);
    (if bool_decide (cap < size) then
       swapped ← compare_exchange_strong size (size - 1);
       if swapped : bool then popFront else mret tt
     else mret tt) ;;
    mret true.

(** [LRUCache::clear]. *)
Definition clear : M unit :=
  modify (set_hash_map ∅) ;;
  set_next HeadPtr TailPtr ;;
  set_prev TailPtr HeadPtr ;;
  modify (set_current_size 0).

(** *** [insert] with the other threads

    Between two critical sections of [insert] (and of the [popFront] it
    calls) the other threads may run.  [env y] is what they do while the
    inserting thread is at the point [y]; the inserting thread itself does
    exactly what [insert] does.  The points are: after the map entry is
    made and its write lock released, after the counter is read, after the
    pre-link eviction, after [append], after the increment, after the
    compare-exchange, and inside [popFront] after the list mutex is
    released. *)
Inductive yield_point : Type :=
  | after_map_insert
  | after_size_load
  | after_pre_evict
  | after_append
  | after_increment
  | after_compare_exchange
  | popFront_after_unlink.

Definition popFront_interleaved (env : yield_point → M unit) : M unit :=
  h ← load HeadPtr;
  let candidate := next_ h in
  if bool_decide (candidate = TailPtr) then mret tt
  else
    unlink candidate ;;
    env popFront_after_unlink ;;
    n ← load candidate;
    match key_ n with
    | None => undefined
    | Some key =>
        accessor ← hash_map_find key;
        match accessor with
        | None => mret tt
        | Some _ => hash_map_erase key
        end
    end.

Definition insert_interleaved (env : yield_point → M unit) (key : K) (value : V)
  : M bool :=
  node ← make_shared key;
  inserted ← hash_map_insert key (mkValue node value);
  if negb inserted then mret false
  else
    env after_map_insert ;;
    size ← current_size_load;
    cap ← gets capacity_;
    env after_size_load ;;
    popped ← (if bool_decide (cap <= size)
              then popFront_interleaved env ;; mret true
              else mret false);
    env after_pre_evict ;;
    append node ;;
    env after_append ;;
    size ← (if negb popped then current_size_post_increment else mret size);
    env after_increment ;;
    (if bool_decide (cap < size) then
       swapped ← compare_exchange_strong size (size - 1);
       env after_compare_exchange ;;
       if swapped : bool then popFront_interleaved env else mret tt
     else mret tt) ;;
    mret true.

(** No other thread runs. *)
Definition alone : yield_point → M unit := λ _, mret tt.

(** [LRUCache::size] and [LRUCache::capacity]. *)
Definition size (c : Cache) : Z := current_size_ c.
Definition capacity (c : Cache) : Z := capacity_ c.

(** ** Single-threaded runs *)

Inductive operation : Type :=
  | op_insert (key : K) (value : V)
  | op_erase (key : K)
  | op_find (try_lock : bool) (caccessor : ConstAccessor.t K V) (key : K)
  | op_clear.

Definition run_operation (o : operation) : M unit :=
  match o with
  | op_insert key value => insert key value ;; mret tt
  | op_erase key => erase key ;; mret tt
  | op_find try_lock caccessor key => find try_lock caccessor key ;; mret tt
  | op_clear => clear
  end.

Fixpoint run_operations (os : list operation) : M unit :=
  match os with
  | [] => mret tt
  | o :: os' => run_operation o ;; run_operations os'
  end.

(** The state an action leaves, and the result it returns. *)
Definition exec {A} (m : M A) (c : Cache) : option Cache := snd <$> m c.
Definition eval {A} (m : M A) (c : Cache) : option A := fst <$> m c.

(** What a [find] that takes the list mutex reports for [key]. *)
Definition reachable (c : Cache) (key : K) : Prop :=
  ∃ caccessor r, eval (find true caccessor key) c = Some (true, r).

(** ** Memory lemmas *)

Definition next_of (c : Cache) (p : ptr) : option ptr := next_ <$> load_node c p.
Definition prev_of (c : Cache) (p : ptr) : option ptr := prev_ <$> load_node c p.
Definition key_of (c : Cache) (p : ptr) : option (option K) := key_ <$> load_node c p.

Lemma bind_Some {A B} (m : M A) (f : A → M B) c a c' :
  m c = Some (a, c') → (m ≫= f) c = f a c'.
Proof. intros Hm. unfold mbind, M_bind. by rewrite Hm. Qed.

Lemma bind_None {A B} (m : M A) (f : A → M B) c :
  m c = None → (m ≫= f) c = None.
Proof. intros Hm. unfold mbind, M_bind. by rewrite Hm. Qed.

Lemma load_Some c p n : load_node c p = Some n → load p c = Some (n, c).
Proof. intros Hn. unfold load. by rewrite Hn. Qed.

Lemma load_store_eq c p n :
  is_Some (load_node c p) → load_node (store_node p n c) p = Some n.
Proof.
  destruct p as [| | | |a]; cbn; try (by intros [? ?]); try done.
  intros [n' Hn']. apply list_lookup_insert_eq. by eapply lookup_lt_Some.
Qed.

Lemma load_store_ne c p q n :
  q ≠ p → load_node (store_node p n c) q = load_node c q.
Proof.
  intros Hne. destruct p as [| | | |a], q as [| | | |b]; cbn; try done.
  apply list_lookup_insert_ne. congruence.
Qed.

Lemma hash_map_store c p n : hash_map_ (store_node p n c) = hash_map_ c.
Proof. by destruct p. Qed.
Lemma current_size_store c p n : current_size_ (store_node p n c) = current_size_ c.
Proof. by destruct p. Qed.
Lemma capacity_store c p n : capacity_ (store_node p n c) = capacity_ c.
Proof. by destruct p. Qed.
Lemma heap_length_store c p n : length (heap (store_node p n c)) = length (heap c).
Proof. destruct p; cbn; try done. apply length_insert. Qed.

Lemma set_next_Some c p q n :
  load_node c p = Some n →
  set_next p q c = Some (tt, store_node p (mkListNode (prev_ n) q (key_ n)) c).
Proof. intros Hn. unfold set_next. by rewrite (bind_Some _ _ _ _ _ (load_Some _ _ _ Hn)). Qed.

Lemma set_prev_Some c p q n :
  load_node c p = Some n →
  set_prev p q c = Some (tt, store_node p (mkListNode q (next_ n) (key_ n)) c).
Proof. intros Hn. unfold set_prev. by rewrite (bind_Some _ _ _ _ _ (load_Some _ _ _ Hn)). Qed.

Definition valid (c : Cache) (p : ptr) : Prop := is_Some (load_node c p).

(** What a write to [prev_] or [next_] leaves alone. *)
Definition same_rest (c c' : Cache) : Prop :=
  (∀ p, key_of c' p = key_of c p) ∧
  hash_map_ c' = hash_map_ c ∧
  current_size_ c' = current_size_ c ∧
  capacity_ c' = capacity_ c ∧
  length (heap c') = length (heap c).

Lemma same_rest_refl c : same_rest c c.
Proof. by repeat split. Qed.

Lemma same_rest_trans c1 c2 c3 :
  same_rest c1 c2 → same_rest c2 c3 → same_rest c1 c3.
Proof.
  intros (Hk & Hm & Hs & Hc & Hl) (Hk' & Hm' & Hs' & Hc' & Hl').
  split_and!; [intros p; by rewrite Hk', Hk | congruence..].
Qed.

Lemma valid_key_of c p : valid c p ↔ is_Some (key_of c p).
Proof. unfold valid, key_of. by rewrite fmap_is_Some. Qed.

Lemma same_rest_valid c c' p : same_rest c c' → valid c p → valid c' p.
Proof. intros [Hk _]. rewrite !valid_key_of. by rewrite Hk. Qed.

Lemma valid_next_of c p q : next_of c p = Some q → valid c p.
Proof. unfold next_of, valid. intros Hq. destruct (load_node c p); [by eexists | done]. Qed.

Lemma valid_prev_of c p q : prev_of c p = Some q → valid c p.
Proof. unfold prev_of, valid. intros Hq. destruct (load_node c p); [by eexists | done]. Qed.

Lemma set_next_spec c p q :
  valid c p →
  ∃ c', set_next p q c = Some (tt, c') ∧
    (∀ r, next_of c' r = if decide (r = p) then Some q else next_of c r) ∧
    (∀ r, prev_of c' r = prev_of c r) ∧
    same_rest c c'.
Proof.
  intros [n Hn]. eexists. split; [by apply set_next_Some |].
  assert (Hv : is_Some (load_node c p)) by by eexists.
  split_and!.
  - intros r. unfold next_of. case_decide as Hr.
    + subst r. by rewrite load_store_eq.
    + by rewrite load_store_ne.
  - intros r. unfold prev_of. destruct (decide (r = p)) as [->|Hr].
    + rewrite load_store_eq by done. by rewrite Hn.
    + by rewrite load_store_ne.
  - unfold same_rest. rewrite hash_map_store, current_size_store, capacity_store,
      heap_length_store. split_and!; try done.
    intros r. unfold key_of. destruct (decide (r = p)) as [->|Hr].
    + rewrite load_store_eq by done. by rewrite Hn.
    + by rewrite load_store_ne.
Qed.

Lemma set_prev_spec c p q :
  valid c p →
  ∃ c', set_prev p q c = Some (tt, c') ∧
    (∀ r, prev_of c' r = if decide (r = p) then Some q else prev_of c r) ∧
    (∀ r, next_of c' r = next_of c r) ∧
    same_rest c c'.
Proof.
  intros [n Hn]. eexists. split; [by apply set_prev_Some |].
  assert (Hv : is_Some (load_node c p)) by by eexists.
  split_and!.
  - intros r. unfold prev_of. case_decide as Hr.
    + subst r. by rewrite load_store_eq.
    + by rewrite load_store_ne.
  - intros r. unfold next_of. destruct (decide (r = p)) as [->|Hr].
    + rewrite load_store_eq by done. by rewrite Hn.
    + by rewrite load_store_ne.
  - unfold same_rest. rewrite hash_map_store, current_size_store, capacity_store,
      heap_length_store. split_and!; try done.
    intros r. unfold key_of. destruct (decide (r = p)) as [->|Hr].
    + rewrite load_store_eq by done. by rewrite Hn.
    + by rewrite load_store_ne.
Qed.

(** [unlink] on a node whose neighbours are [x] and [z]. *)
Lemma unlink_spec c x y z :
  prev_of c y = Some x → next_of c y = Some z → valid c x → valid c z →
  ∃ c', unlink y c = Some (tt, c') ∧
    (∀ r, next_of c' r = if decide (r = x) then Some z else next_of c r) ∧
    (∀ r, prev_of c' r =
          if decide (r = y) then Some NullNodePtr
          else if decide (r = z) then Some x else prev_of c r) ∧
    same_rest c c'.
Proof.
  intros Hp Hn Hx Hz.
  assert (Hy : valid c y) by by eapply valid_prev_of.
  destruct Hy as [ny Hny].
  assert (prev_ ny = x) as Hpx by (unfold prev_of in Hp; rewrite Hny in Hp; by injection Hp).
  assert (next_ ny = z) as Hnz by (unfold next_of in Hn; rewrite Hny in Hn; by injection Hn).
  destruct (set_next_spec c x z Hx) as (c1 & E1 & N1 & P1 & R1).
  destruct (set_prev_spec c1 z x (same_rest_valid _ _ _ R1 Hz)) as (c2 & E2 & P2 & N2 & R2).
  assert (Hy2 : valid c2 y).
  { eapply same_rest_valid; [exact R2|]. eapply same_rest_valid; [exact R1|]. by eexists. }
  destruct (set_prev_spec c2 y NullNodePtr Hy2) as (c3 & E3 & P3 & N3 & R3).
  exists c3. split_and!.
  - unfold unlink. rewrite (bind_Some _ _ _ _ _ (load_Some _ _ _ Hny)).
    rewrite Hpx, Hnz. rewrite (bind_Some _ _ _ _ _ E1).
    by rewrite (bind_Some _ _ _ _ _ E2).
  - intros r. by rewrite N3, N2, N1.
  - intros r. rewrite P3, P2, P1. done.
  - eauto using same_rest_trans.
Qed.

(** [append] when the node before [tail_] is [x]. *)
Lemma append_spec c x a :
  prev_of c TailPtr = Some x → valid c x → valid c a →
  ∃ c', append a c = Some (tt, c') ∧
    (∀ r, next_of c' r =
          if decide (r = x) then Some a
          else if decide (r = a) then Some TailPtr else next_of c r) ∧
    (∀ r, prev_of c' r =
          if decide (r = TailPtr) then Some a
          else if decide (r = a) then Some x else prev_of c r) ∧
    same_rest c c'.
Proof.
  intros Hp Hx Ha.
  destruct (set_next_spec c a TailPtr Ha) as (c1 & E1 & N1 & P1 & R1).
  destruct (set_prev_spec c1 a x (same_rest_valid _ _ _ R1 Ha)) as (c2 & E2 & P2 & N2 & R2).
  assert (Ht2 : valid c2 TailPtr) by by eexists.
  destruct (set_prev_spec c2 TailPtr a Ht2) as (c3 & E3 & P3 & N3 & R3).
  assert (Hx3 : valid c3 x) by eauto using same_rest_valid.
  destruct (set_next_spec c3 x a Hx3) as (c4 & E4 & N4 & P4 & R4).
  exists c4. split_and!.
  - unfold append. assert (load TailPtr c = Some (tail_ c, c)) as Ht by done.
    rewrite (bind_Some _ _ _ _ _ Ht).
    assert (prev_ (tail_ c) = x) as -> by (unfold prev_of in Hp; cbn in Hp; by injection Hp).
    rewrite (bind_Some _ _ _ _ _ E1), (bind_Some _ _ _ _ _ E2).
    by rewrite (bind_Some _ _ _ _ _ E3).
  - intros r. by rewrite N4, N3, N2, N1.
  - intros r. by rewrite P4, P3, P2, P1.
  - eauto using same_rest_trans.
Qed.

(** ** The recency list as a chain of pointers *)

(** Every two neighbours of [ps] point at each other. *)
Fixpoint linked (c : Cache) (ps : list ptr) : Prop :=
  match ps with
  | [] => True
  | p :: ps' =>
      match ps' with
      | [] => True
      | q :: _ => next_of c p = Some q ∧ prev_of c q = Some p
      end ∧ linked c ps'
  end.

(** The pointers from [head_] to [tail_] through the nodes at [l]. *)
Definition chain_of (l : list nat) : list ptr :=
  HeadPtr :: (HeapPtr <$> l) ++ [TailPtr].

Lemma linked_app_cons c xs p ps :
  linked c (xs ++ p :: ps) ↔ linked c (xs ++ [p]) ∧ linked c (p :: ps).
Proof.
  induction xs as [|x xs IH]; [cbn [app linked]; tauto|].
  destruct xs as [|x' xs].
  - cbn [app linked]. tauto.
  - change (linked c ((x :: x' :: xs) ++ p :: ps))
      with ((next_of c x = Some x' ∧ prev_of c x' = Some x) ∧
            linked c ((x' :: xs) ++ p :: ps)).
    change (linked c ((x :: x' :: xs) ++ [p]))
      with ((next_of c x = Some x' ∧ prev_of c x' = Some x) ∧
            linked c ((x' :: xs) ++ [p])).
    rewrite IH. tauto.
Qed.

Lemma linked_frame_snoc c c' xs x :
  (∀ p, p ∈ xs → next_of c' p = next_of c p) →
  (∀ p, p ∈ xs ++ [x] → prev_of c' p = prev_of c p) →
  linked c (xs ++ [x]) → linked c' (xs ++ [x]).
Proof.
  induction xs as [|y xs IH]; intros Hn Hp; [done|].
  cbn [app linked]. intros [Hy Hl]. split.
  - assert (Hyn : next_of c' y = next_of c y) by (apply Hn; left).
    destruct xs as [|q xs]; cbn [app] in *.
    + rewrite Hyn, Hp; [done | right; left].
    + rewrite Hyn, Hp; [done | right; left].
  - apply IH; [| |done].
    + intros p Hin. apply Hn. by right.
    + intros p Hin. apply Hp. by right.
Qed.

Lemma linked_frame_cons c c' z zs :
  (∀ p, p ∈ z :: zs → next_of c' p = next_of c p) →
  (∀ p, p ∈ zs → prev_of c' p = prev_of c p) →
  linked c (z :: zs) → linked c' (z :: zs).
Proof.
  revert z. induction zs as [|q zs IH]; intros z Hn Hp; [done|].
  cbn [linked]. intros [[Hzn Hqp] Hl]. split.
  - rewrite Hn, Hp; [done | left | left].
  - apply IH; [| |done].
    + intros p Hin. apply Hn. by right.
    + intros p Hin. apply Hp. by right.
Qed.

Lemma linked_valid c ps p : linked c ps → (2 ≤ length ps)%nat → p ∈ ps → valid c p.
Proof.
  induction ps as [|x ps IH]; [by intros _ _ ?%elem_of_nil|].
  cbn [linked]. intros [Hx Hl] Hlen Hin.
  destruct ps as [|q ps]; [cbn in Hlen; lia|].
  destruct Hx as [Hxn Hqp].
  apply elem_of_cons in Hin as [->|Hin]; [by eapply valid_next_of|].
  destruct ps as [|q' ps].
  - apply list_elem_of_singleton in Hin as ->. by eapply valid_prev_of.
  - apply IH; [done | cbn; lia | done].
Qed.

Lemma unlink_linked c xs x y z zs :
  NoDup (xs ++ x :: y :: z :: zs) →
  linked c (xs ++ x :: y :: z :: zs) →
  ∃ c', unlink y c = Some (tt, c') ∧
    linked c' (xs ++ x :: z :: zs) ∧
    prev_of c' y = Some NullNodePtr ∧
    same_rest c c'.
Proof.
  intros Hnd Hl.
  apply linked_app_cons in Hl as [Hpre Hl].
  cbn [linked] in Hl. destruct Hl as [[Hxn Hyp] [[Hyn Hzp] Hsuf]].
  apply NoDup_app in Hnd as (Hxs & Hdisj & Hnd).
  apply NoDup_cons in Hnd as [Hx Hnd]. apply NoDup_cons in Hnd as [Hy Hnd].
  apply NoDup_cons in Hnd as [Hz Hnd].
  assert (Hxy : x ≠ y) by (intros ->; apply Hx; left).
  assert (Hxz : x ≠ z) by (intros ->; apply Hx; right; left).
  assert (Hyz : y ≠ z) by (intros ->; apply Hy; left).
  destruct (unlink_spec c x y z Hyp Hyn) as (c' & E & N & P & R).
  { by eapply valid_next_of. } { by eapply valid_prev_of. }
  exists c'. split_and!; [done | | | done].
  - apply linked_app_cons. split.
    + apply (linked_frame_snoc c); [| |done].
      * intros p Hin. rewrite N. rewrite decide_False; [done|].
        intros ->. apply (Hdisj x); [done | left].
      * intros p Hin. rewrite P.
        assert (p ≠ y ∧ p ≠ z) as [? ?].
        { apply elem_of_app in Hin as [Hin|Hin].
          - split; intros ->; apply (Hdisj _ Hin); [right; left | right; right; left].
          - apply list_elem_of_singleton in Hin as ->. done. }
        by rewrite !decide_False.
    + cbn [linked]. split; [split|].
      * rewrite N. by rewrite decide_True.
      * rewrite P. rewrite decide_False by done. by rewrite decide_True.
      * apply (linked_frame_cons c); [| |done].
        -- intros p Hin. rewrite N. rewrite decide_False; [done|].
           intros ->. apply Hx. by right.
        -- intros p Hin. rewrite P. rewrite !decide_False; [done | |].
           ++ intros ->. done.
           ++ intros ->. apply Hy. by right.
  - rewrite P. by rewrite decide_True.
Qed.

Lemma append_linked c xs x a :
  NoDup (xs ++ [x; TailPtr]) → a ∉ xs ++ [x; TailPtr] → valid c a →
  linked c (xs ++ [x; TailPtr]) →
  ∃ c', append a c = Some (tt, c') ∧
    linked c' (xs ++ [x; a; TailPtr]) ∧
    same_rest c c'.
Proof.
  intros Hnd Ha Hva Hl.
  apply linked_app_cons in Hl as [Hpre Hl].
  cbn [linked] in Hl. destruct Hl as [[Hxn Htp] _].
  apply NoDup_app in Hnd as (Hxs & Hdisj & Hnd).
  apply NoDup_cons in Hnd as [Hx Hnd].
  assert (Hxt : x ≠ TailPtr) by (intros ->; apply Hx; left).
  assert (Hax : a ≠ x).
  { intros ->. apply Ha. apply elem_of_app. right. left. }
  assert (Hat : a ≠ TailPtr).
  { intros ->. apply Ha. apply elem_of_app. right. right. left. }
  destruct (append_spec c x a Htp) as (c' & E & N & P & R).
  { by eapply valid_next_of. } { done. }
  exists c'. split_and!; [done | | done].
  apply linked_app_cons. split.
  - apply (linked_frame_snoc c); [| |done].
    + intros p Hin. rewrite N. rewrite !decide_False; [done | |].
      * intros ->. apply Ha. apply elem_of_app. by left.
      * intros ->. apply (Hdisj x); [done | left].
    + intros p Hin. rewrite P.
      assert (p ≠ TailPtr ∧ p ≠ a) as [? ?].
      { apply elem_of_app in Hin as [Hin|Hin].
        - split; intros ->; [apply (Hdisj _ Hin); right; left |].
          apply Ha. apply elem_of_app. by left.
        - apply list_elem_of_singleton in Hin as ->. done. }
      by rewrite !decide_False.
  - cbn [linked]. split_and!; try done; rewrite ?N, ?P; repeat case_decide; congruence.
Qed.

(** ** Well-formed caches *)

(** The node at [a] carries [k], and the map entry of [k] holds that node. *)
Definition node_rel (c : Cache) (a : nat) (k : K) : Prop :=
  key_of c (HeapPtr a) = Some (Some k) ∧
  ∃ v, hash_map_ c !! k = Some v ∧ listNode_ v = HeapPtr a.

(** [l] are the addresses and [ks] the keys of the linked nodes, least
    recently used first. *)
Definition Rep0 (c : Cache) (l : list nat) (ks : list K) : Prop :=
  linked c (chain_of l) ∧ Forall2 (node_rel c) l ks ∧ NoDup ks.

(** A cache whose map holds the keys [ks] and nothing else, each with its
    node linked, in this order of recency. *)
Definition Wf (c : Cache) (ks : list K) : Prop :=
  ∃ l, Rep0 c l ks ∧ ∀ k, is_Some (hash_map_ c !! k) → k ∈ ks.

Lemma node_rel_fun c a k1 k2 : node_rel c a k1 → node_rel c a k2 → k1 = k2.
Proof. intros [E1 _] [E2 _]. congruence. Qed.

Lemma node_rel_valid c a k : node_rel c a k → valid c (HeapPtr a).
Proof. intros [E _]. apply valid_key_of. by rewrite E. Qed.

Lemma node_rel_elem_of c l ks a :
  Forall2 (node_rel c) l ks → a ∈ l → ∃ k, k ∈ ks ∧ node_rel c a k.
Proof.
  intros HF Ha. apply list_elem_of_lookup in Ha as [i Hi].
  destruct (Forall2_lookup_l _ _ _ _ _ HF Hi) as (k & Hk & Hr).
  exists k. split; [by eapply list_elem_of_lookup_2 | done].
Qed.

Lemma node_rel_elem_of_r c l ks k :
  Forall2 (node_rel c) l ks → k ∈ ks → ∃ a, a ∈ l ∧ node_rel c a k.
Proof.
  intros HF Hk. apply list_elem_of_lookup in Hk as [i Hi].
  destruct (Forall2_lookup_r _ _ _ _ _ HF Hi) as (a & Ha & Hr).
  exists a. split; [by eapply list_elem_of_lookup_2 | done].
Qed.

Lemma Forall2_node_rel_NoDup c l ks :
  Forall2 (node_rel c) l ks → NoDup ks → NoDup l.
Proof.
  induction 1 as [|a k l ks Hr HF IH]; intros Hnd; [constructor|].
  apply NoDup_cons in Hnd as [Hk Hnd]. apply NoDup_cons. split; [|by apply IH].
  intros Ha. destruct (node_rel_elem_of _ _ _ _ HF Ha) as (k' & Hk' & Hr').
  by rewrite (node_rel_fun _ _ _ _ Hr Hr') in Hk.
Qed.

Lemma NoDup_chain_of l : NoDup l → NoDup (chain_of l).
Proof.
  intros Hl. unfold chain_of. apply NoDup_cons. split.
  - intros Hin. apply elem_of_app in Hin as [Hin|Hin].
    + apply list_elem_of_fmap in Hin as (a & ? & _). done.
    + by apply list_elem_of_singleton in Hin.
  - apply NoDup_app. split_and!.
    + apply NoDup_fmap_2; [|done]. intros a b. congruence.
    + intros p Hin Hin'. apply list_elem_of_singleton in Hin' as ->.
      apply list_elem_of_fmap in Hin as (a & ? & _). done.
    + apply NoDup_singleton.
Qed.

Lemma snoc_exists (p : ptr) (ps : list ptr) : ∃ xs x, p :: ps = xs ++ [x].
Proof.
  revert p. induction ps as [|q ps IH]; intros p.
  - by exists [], p.
  - destruct (IH q) as (xs & x & E). exists (p :: xs), x. by rewrite E.
Qed.

Lemma chain_of_split l1 a l2 :
  ∃ xs x z zs,
    chain_of (l1 ++ a :: l2) = xs ++ x :: HeapPtr a :: z :: zs ∧
    chain_of (l1 ++ l2) = xs ++ x :: z :: zs ∧
    x ≠ NullNodePtr.
Proof.
  destruct (snoc_exists HeadPtr (HeapPtr <$> l1)) as (xs & x & E).
  assert (∃ z zs, (HeapPtr <$> l2) ++ [TailPtr] = z :: zs) as (z & zs & E').
  { destruct l2; cbn; eauto. }
  exists xs, x, z, zs. unfold chain_of. rewrite !fmap_app, fmap_cons.
  rewrite <- !app_assoc. cbn [app]. rewrite E'.
  rewrite !app_comm_cons, E, <- !app_assoc. split_and!; [done..|].
  intros ->. assert (Hin : NullNodePtr ∈ HeadPtr :: (HeapPtr <$> l1)).
  { rewrite E. apply elem_of_app. right. left. }
  apply elem_of_cons in Hin as [?|Hin]; [done|].
  apply list_elem_of_fmap in Hin as (? & ? & _). done.
Qed.

Lemma chain_of_snoc l :
  ∃ xs x, chain_of l = xs ++ [x; TailPtr] ∧
    ∀ a, chain_of (l ++ [a]) = xs ++ [x; HeapPtr a; TailPtr].
Proof.
  destruct (snoc_exists HeadPtr (HeapPtr <$> l)) as (xs & x & E).
  exists xs, x. unfold chain_of. split.
  - rewrite app_comm_cons, E, <- app_assoc. done.
  - intros a. rewrite fmap_app, <- app_assoc, app_comm_cons, E, <- app_assoc. done.
Qed.

Lemma node_rel_same_rest c c' a k :
  same_rest c c' → node_rel c a k → node_rel c' a k.
Proof.
  intros (Hk & Hm & _) [E Hv]. split; [by rewrite Hk | by rewrite Hm].
Qed.

Lemma Rep0_unlink c l1 a l2 ks :
  Rep0 c (l1 ++ a :: l2) ks →
  ∃ ks1 k ks2 c',
    ks = ks1 ++ k :: ks2 ∧ length ks1 = length l1 ∧ node_rel c a k ∧
    inList <$> load_node c (HeapPtr a) = Some true ∧
    unlink (HeapPtr a) c = Some (tt, c') ∧
    Rep0 c' (l1 ++ l2) (ks1 ++ ks2) ∧
    prev_of c' (HeapPtr a) = Some NullNodePtr ∧
    same_rest c c'.
Proof.
  intros (Hl & HF & Hnd).
  assert (Hndl : NoDup (l1 ++ a :: l2)) by by eapply Forall2_node_rel_NoDup.
  apply Forall2_app_inv_l in HF as (ks1 & ks' & HF1 & HF2 & ->).
  apply Forall2_cons_inv_l in HF2 as (k & ks2 & Hr & HF2 & ->).
  destruct (chain_of_split l1 a l2) as (xs & x & z & zs & E1 & E2 & Hx).
  rewrite E1 in Hl. apply NoDup_chain_of in Hndl. rewrite E1 in Hndl.
  destruct (unlink_linked _ _ _ _ _ _ Hndl Hl) as (c' & E & Hl' & Hp & R).
  exists ks1, k, ks2, c'. split_and!; try done.
  - symmetry. by eapply Forall2_length.
  - apply linked_app_cons in Hl as [_ Hl]. cbn [linked] in Hl.
    destruct Hl as [[_ Hyp] _]. unfold prev_of in Hyp.
    destruct (load_node c (HeapPtr a)) as [n|]; [|done]. cbn in *.
    f_equal. unfold inList. apply bool_decide_eq_true. congruence.
  - split_and!.
    + by rewrite E2.
    + apply Forall2_app; eapply Forall2_impl; eauto using node_rel_same_rest.
    + apply NoDup_app in Hnd as (? & Hd & Hnd). apply NoDup_cons in Hnd as [? ?].
      apply NoDup_app. split_and!; [done | | done].
      intros k' Hin Hin'. apply (Hd k' Hin). by right.
Qed.

Lemma Rep0_append c l ks a k :
  Rep0 c l ks → node_rel c a k → k ∉ ks →
  ∃ c', append (HeapPtr a) c = Some (tt, c') ∧
    Rep0 c' (l ++ [a]) (ks ++ [k]) ∧
    same_rest c c'.
Proof.
  intros (Hl & HF & Hnd) Hr Hk.
  assert (Hndl : NoDup l) by by eapply Forall2_node_rel_NoDup.
  assert (Ha : a ∉ l).
  { intros Ha. destruct (node_rel_elem_of _ _ _ _ HF Ha) as (k' & Hk' & Hr').
    by rewrite (node_rel_fun _ _ _ _ Hr Hr') in Hk. }
  destruct (chain_of_snoc l) as (xs & x & E1 & E2).
  assert (Hnd' : NoDup (chain_of (l ++ [a]))).
  { apply NoDup_chain_of, NoDup_app. split_and!; [done | | apply NoDup_singleton].
    intros b Hb Hb'. apply list_elem_of_singleton in Hb' as ->. done. }
  rewrite E2 in Hnd'. rewrite E1 in Hl.
  assert (NoDup (xs ++ [x; TailPtr]) ∧ HeapPtr a ∉ xs ++ [x; TailPtr]) as [Hnd1 Hnotin].
  { apply NoDup_app in Hnd' as (Hxs & Hd & Hnd').
    apply NoDup_cons in Hnd' as [Hx Hnd']. apply NoDup_cons in Hnd' as [Ha' Hnd'].
    split.
    - apply NoDup_app. split_and!; [done | |].
      + intros p Hp Hp'. apply (Hd p Hp).
        apply elem_of_cons in Hp' as [->|Hp']; [left | right; by right].
      + apply NoDup_cons. split; [|done]. intros Hx'. apply Hx. by right.
    - intros Hin. apply elem_of_app in Hin as [Hin|Hin].
      + apply (Hd _ Hin). right. left.
      + apply elem_of_cons in Hin as [Heq|Hin]; [apply Hx; rewrite <- Heq; left |].
        by apply list_elem_of_singleton in Hin. }
  destruct (append_linked c xs x (HeapPtr a) Hnd1 Hnotin) as (c' & E & Hl' & R);
    [by eapply node_rel_valid | done |].
  exists c'. split_and!; [done | | done].
  split_and!.
  - by rewrite E2.
  - apply Forall2_app.
    + eapply Forall2_impl; eauto using node_rel_same_rest.
    + constructor; [by eapply node_rel_same_rest | constructor].
  - apply NoDup_app. split_and!; [done | | apply NoDup_singleton].
    intros k' Hin Hin'. apply list_elem_of_singleton in Hin' as ->. done.
Qed.

(** *** Changes that leave the chain alone *)

Definition same_mem (c c' : Cache) : Prop :=
  (∀ p, key_of c' p = key_of c p) ∧
  current_size_ c' = current_size_ c ∧
  capacity_ c' = capacity_ c ∧
  length (heap c') = length (heap c).

Lemma same_rest_mem c c' : same_rest c c' → same_mem c c'.
Proof. intros (? & ? & ? & ? & ?). by split_and!. Qed.

Lemma same_mem_trans c1 c2 c3 : same_mem c1 c2 → same_mem c2 c3 → same_mem c1 c3.
Proof.
  intros (Hk & Hs & Hc & Hl) (Hk' & Hs' & Hc' & Hl').
  split_and!; [intros p; by rewrite Hk', Hk | congruence..].
Qed.

Lemma linked_ext c c' ps :
  (2 ≤ length ps)%nat →
  (∀ p, valid c p → load_node c' p = load_node c p) →
  linked c ps → linked c' ps.
Proof.
  intros Hlen Hext Hl. destruct ps as [|z zs]; [done|].
  apply (linked_frame_cons c); [| |done].
  - intros p Hin. unfold next_of. rewrite Hext; [done|]. by eapply linked_valid.
  - intros p Hin. unfold prev_of. rewrite Hext; [done|].
    eapply linked_valid; [done.. |]. by right.
Qed.

Lemma chain_of_length l : (2 ≤ length (chain_of l))%nat.
Proof. unfold chain_of. cbn. rewrite length_app. cbn. lia. Qed.

Lemma Rep0_ext c c' l ks :
  (∀ p, valid c p → load_node c' p = load_node c p) →
  (∀ k, k ∈ ks → hash_map_ c' !! k = hash_map_ c !! k) →
  Rep0 c l ks → Rep0 c' l ks.
Proof.
  intros Hext Hm (Hl & HF & Hnd). split_and!; [|  |done].
  - eapply linked_ext; [apply chain_of_length | done | done].
  - apply Forall2_same_length_lookup. split; [by eapply Forall2_length|].
    intros i a k Ha Hk.
    pose proof (Forall2_lookup_lr _ _ _ _ _ _ HF Ha Hk) as [Hkey (v & Hv & Hn)].
    split.
    + unfold key_of in *. rewrite Hext; [done|].
      unfold valid. destruct (load_node c (HeapPtr a)); [by eexists | done].
    + exists v. rewrite Hm; [done|]. by eapply list_elem_of_lookup_2.
Qed.

Lemma load_node_set_hash_map m c p : load_node (set_hash_map m c) p = load_node c p.
Proof. by destruct p. Qed.

Lemma load_node_set_current_size z c p :
  load_node (set_current_size z c) p = load_node c p.
Proof. by destruct p. Qed.

(** *** [popFront] *)

(** The map once the entry of the first key of [ks] is erased. *)
Definition evicted (ks : list K) (m : gmap K (Value V)) : gmap K (Value V) :=
  match ks with
  | [] => m
  | k :: _ => delete k m
  end.

Lemma Rep0_popFront c l ks :
  Rep0 c l ks →
  ∃ c', popFront c = Some (tt, c') ∧
    Rep0 c' (tail l) (tail ks) ∧
    hash_map_ c' = evicted ks (hash_map_ c) ∧
    same_mem c c'.
Proof.
  intros HR. pose proof HR as (Hl & HF & Hnd).
  assert (Hh : load HeadPtr c = Some (head_ c, c)) by done.
  destruct l as [|a l].
  - apply Forall2_nil_inv_l in HF as ->.
    exists c. split_and!; [|done|done|].
    + unfold popFront. rewrite (bind_Some _ _ _ _ _ Hh).
      cbn in Hl. destruct Hl as [[Hn _] _]. unfold next_of in Hn. cbn in Hn.
      injection Hn as ->. by rewrite bool_decide_eq_true_2.
    + by split_and!.
  - destruct (Rep0_unlink c [] a l ks HR)
      as (ks1 & k & ks2 & c1 & -> & Hlen & Hr & _ & E & HR1 & _ & R).
    destruct ks1; [|done]. cbn [app tail] in *.
    destruct Hr as [Hkey (v & Hv & Hnode)].
    assert (∃ n, load_node c1 (HeapPtr a) = Some n ∧ key_ n = Some k) as (n & Hn1 & Hk1).
    { destruct R as (Hk & _). specialize (Hk (HeapPtr a)). rewrite Hkey in Hk.
      unfold key_of in Hk. destruct (load_node c1 (HeapPtr a)) as [n|]; [|done].
      exists n. split; [done|]. cbn in Hk. congruence. }
    exists (set_hash_map (delete k (hash_map_ c1)) c1). split_and!.
    + unfold popFront. rewrite (bind_Some _ _ _ _ _ Hh).
      cbn in Hl. destruct Hl as [[Hn _] _]. unfold next_of in Hn. cbn in Hn.
      injection Hn as ->. rewrite bool_decide_eq_false_2 by done.
      rewrite (bind_Some _ _ _ _ _ E).
      rewrite (bind_Some _ _ _ _ _ (load_Some _ _ _ Hn1)). rewrite Hk1.
      assert (hash_map_find k c1 = Some (Some v, c1)) as Hf.
      { unfold hash_map_find, gets. destruct R as (_ & -> & _). by rewrite Hv. }
      by rewrite (bind_Some _ _ _ _ _ Hf).
    + eapply Rep0_ext; [| |exact HR1].
      * intros p _. apply load_node_set_hash_map.
      * intros k' Hk'. cbn. apply lookup_delete_ne. intros ->.
        apply NoDup_cons in Hnd as [Hnotin _]. done.
    + cbn. by destruct R as (_ & -> & _).
    + destruct R as (Hk & _ & Hs & Hc & Hlen'). split_and!; try done.
Qed.

(** ** The public member functions on well-formed caches *)

Ltac mstep H := rewrite (bind_Some _ _ _ _ _ H).
Ltac elem_norm :=
  repeat first [rewrite elem_of_app | rewrite elem_of_cons | rewrite elem_of_nil].
Ltac elem_norm_in H :=
  repeat first [rewrite elem_of_app in H | rewrite elem_of_cons in H
               | rewrite elem_of_nil in H].
Ltac mpure := erewrite bind_Some by reflexivity.

(** [ks] without [k]. *)
Definition without (k : K) (ks : list K) : list K := filter (λ x, x ≠ k) ks.

Lemma without_notin k ks : k ∉ ks → without k ks = ks.
Proof.
  induction ks as [|x ks IH]; intros Hk; [done|].
  unfold without in *. rewrite filter_cons_True.
  - f_equal. apply IH. intros Hin. apply Hk. by right.
  - intros ->. apply Hk. left.
Qed.

Lemma without_NoDup ks1 ks2 k :
  NoDup (ks1 ++ k :: ks2) → without k (ks1 ++ k :: ks2) = ks1 ++ ks2.
Proof.
  intros Hnd. apply NoDup_app in Hnd as (_ & Hd & Hnd).
  apply NoDup_cons in Hnd as [Hk _].
  unfold without. rewrite filter_app, filter_cons_False by (intros Hne; by apply Hne).
  f_equal; apply without_notin; [|done].
  intros Hin. apply (Hd k Hin). left.
Qed.

Lemma Wf_lookup c ks k : Wf c ks → (is_Some (hash_map_ c !! k) ↔ k ∈ ks).
Proof.
  intros (l & (Hl & HF & Hnd) & Hdom). split; [apply Hdom|].
  intros Hk. destruct (node_rel_elem_of_r _ _ _ _ HF Hk) as (a & _ & _ & v & Hv & _).
  by eexists.
Qed.

(** The node of a key of the cache, as [Rep0_unlink] wants it. *)
Lemma Rep0_split c l ks1 k ks2 v :
  Rep0 c l (ks1 ++ k :: ks2) → hash_map_ c !! k = Some v →
  ∃ l1 a l2, l = l1 ++ a :: l2 ∧ length l1 = length ks1 ∧ listNode_ v = HeapPtr a.
Proof.
  intros (Hl & HF & Hnd) Hv.
  apply Forall2_app_inv_r in HF as (l1 & l' & HF1 & HF2 & ->).
  apply Forall2_cons_inv_r in HF2 as (a & l2 & Hr & HF2 & ->).
  exists l1, a, l2. split_and!; [done | by eapply Forall2_length |].
  destruct Hr as [_ (v' & Hv' & Hn)]. congruence.
Qed.

Lemma app_cons_inj (ks1 ks1' ks2 ks2' : list K) k k' :
  ks1 ++ k :: ks2 = ks1' ++ k' :: ks2' → length ks1 = length ks1' →
  ks1 = ks1' ∧ k = k' ∧ ks2 = ks2'.
Proof.
  intros E Hlen. apply app_inj_1 in E as [-> E]; [|done].
  injection E as -> ->. done.
Qed.

(** [find]: the result tells whether the key is in the cache; the accessor
    receives the stored value; with the list mutex the key becomes the most
    recently used one, without it nothing changes. *)
Lemma find_spec c ks try_lock ac k :
  Wf c ks →
  ∃ c', find try_lock ac k c =
          Some ((bool_decide (k ∈ ks),
                 ConstAccessor.mk None
                   (match hash_map_ c !! k with
                    | Some entry => value_ entry
                    | None => ConstAccessor.value_ ac
                    end)), c') ∧
    Wf c' (if try_lock && bool_decide (k ∈ ks) then without k ks ++ [k] else ks) ∧
    hash_map_ c' = hash_map_ c ∧
    same_mem c c' ∧
    (try_lock = false → c' = c).
Proof.
  intros HW. pose proof (Wf_lookup c ks k HW) as Hiff.
  destruct HW as (l & HR & Hdom).
  assert (Hrefl : same_mem c c) by by split_and!.
  unfold find. mpure.
  destruct (hash_map_ c !! k) as [v|] eqn:Hv.
  - assert (Hk : k ∈ ks) by (apply Hiff; by eexists).
    rewrite (bool_decide_eq_true_2 _ Hk), andb_true_r.
    destruct try_lock.
    + apply list_elem_of_split in Hk as (ks1 & ks2 & ->).
      destruct (Rep0_split _ _ _ _ _ _ HR Hv) as (l1 & a & l2 & -> & Hlen & Hnode).
      destruct (Rep0_unlink _ _ _ _ _ HR)
        as (ks1' & k' & ks2' & c1 & E & Hlen' & Hr & Hin & Eu & HR1 & _ & R).
      apply app_cons_inj in E as (<- & <- & <-); [|congruence].
      destruct (load_node c (HeapPtr a)) as [n|] eqn:Hn; [|done].
      injection Hin as Hin.
      pose proof HR as (_ & _ & Hnd).
      assert (Hnotin : k ∉ ks1 ++ ks2).
      { apply NoDup_app in Hnd as (_ & Hd & Hnd). apply NoDup_cons in Hnd as [? _].
        intros Hin'. apply elem_of_app in Hin' as [Hin'|Hin']; [|done].
        apply (Hd k Hin'). left. }
      destruct (Rep0_append c1 _ _ a k HR1 (node_rel_same_rest _ _ _ _ R Hr) Hnotin)
        as (c2 & Ea & HR2 & R2).
      exists c2. rewrite Hnode. split_and!.
      * assert (Hinner :
          (n ← load (HeapPtr a);
           if inList n then unlink (HeapPtr a) ;; append (HeapPtr a) else mret tt) c
          = Some (tt, c2)).
        { mstep (load_Some _ _ _ Hn). rewrite Hin. by mstep Eu. }
        by mstep Hinner.
      * rewrite without_NoDup by done. exists (l1 ++ l2 ++ [a]).
        rewrite app_assoc. split; [done|]. intros k' Hk'.
        destruct R as (_ & Hm1 & _), R2 as (_ & Hm2 & _).
        rewrite Hm2, Hm1 in Hk'. apply Hdom in Hk'.
        rewrite !elem_of_app, elem_of_cons in Hk'.
        rewrite !elem_of_app, list_elem_of_singleton. tauto.
      * destruct R as (_ & Hm1 & _), R2 as (_ & Hm2 & _). congruence.
      * eapply same_mem_trans; by apply same_rest_mem.
      * done.
    + exists c. split_and!; [by mpure | by exists l | done..].
  - assert (Hk : k ∉ ks) by (intros Hk; apply Hiff in Hk as [? ?]; congruence).
    rewrite (bool_decide_eq_false_2 _ Hk), andb_false_r.
    exists c. split_and!; [done | by exists l | done..].
Qed.

(** [erase] of a key of the cache unlinks its node, decrements the counter
    and erases the map entry; of another key it changes nothing. *)
Lemma erase_spec c ks k :
  Wf c ks →
  ∃ c', erase k c = Some ((if bool_decide (k ∈ ks) then 1 else 0), c') ∧
    Wf c' (without k ks) ∧
    hash_map_ c' = delete k (hash_map_ c) ∧
    current_size_ c' =
      (if bool_decide (k ∈ ks) then wrap_int (current_size_ c - 1)
       else current_size_ c) ∧
    capacity_ c' = capacity_ c ∧
    (k ∉ ks → c' = c).
Proof.
  intros HW. pose proof (Wf_lookup c ks k HW) as Hiff.
  destruct HW as (l & HR & Hdom).
  unfold erase. mpure.
  destruct (hash_map_ c !! k) as [v|] eqn:Hv.
  - assert (Hk : k ∈ ks) by (apply Hiff; by eexists).
    rewrite (bool_decide_eq_true_2 _ Hk).
    apply list_elem_of_split in Hk as (ks1 & ks2 & ->).
    destruct (Rep0_split _ _ _ _ _ _ HR Hv) as (l1 & a & l2 & -> & Hlen & Hnode).
    destruct (Rep0_unlink _ _ _ _ _ HR)
      as (ks1' & k' & ks2' & c1 & E & Hlen' & Hr & Hin & Eu & HR1 & _ & R).
    apply app_cons_inj in E as (<- & <- & <-); [|congruence].
    destruct (load_node c (HeapPtr a)) as [n|] eqn:Hn; [|done].
    injection Hin as Hin.
    pose proof HR as (_ & _ & Hnd).
    assert (Hnotin : k ∉ ks1 ++ ks2).
    { apply NoDup_app in Hnd as (_ & Hd & Hnd). apply NoDup_cons in Hnd as [? _].
      intros Hin'. apply elem_of_app in Hin' as [Hin'|Hin']; [|done].
      apply (Hd k Hin'). left. }
    destruct R as (Hkeys & Hm1 & Hs1 & Hc1 & Hlen1).
    eexists. rewrite Hnode. split_and!.
    + mstep (load_Some _ _ _ Hn). rewrite Hin.
      assert (Hinner :
        (n' ← load (HeapPtr a);
         if inList n' then
           unlink (HeapPtr a) ;; current_size_post_decrement ;; mret true
         else mret false) c
        = Some (true, set_current_size (wrap_int (current_size_ c1 - 1)) c1)).
      { mstep (load_Some _ _ _ Hn). rewrite Hin. by mstep Eu. }
      mstep Hinner. reflexivity.
    + rewrite without_NoDup by done. exists (l1 ++ l2). split.
      * eapply Rep0_ext; [| |exact HR1].
        -- intros p _. by destruct p.
        -- intros k' Hk'. cbn. apply lookup_delete_ne. intros ->. done.
      * intros k' Hk'. cbn in Hk'. rewrite Hm1 in Hk'.
        destruct (decide (k' = k)) as [->|Hne].
        -- rewrite lookup_delete_eq in Hk'. by destruct Hk'.
        -- rewrite lookup_delete_ne in Hk' by done. apply Hdom in Hk'.
           rewrite elem_of_app, elem_of_cons in Hk'. rewrite elem_of_app. tauto.
    + cbn. by rewrite Hm1.
    + cbn. by rewrite Hs1.
    + cbn. done.
    + intros Hk. exfalso. apply Hk. apply elem_of_app. right. left.
  - assert (Hk : k ∉ ks) by (intros Hk; apply Hiff in Hk as [? ?]; congruence).
    rewrite (bool_decide_eq_false_2 _ Hk).
    exists c. split_and!; [done | | | done..].
    + rewrite without_notin by done. by exists l.
    + symmetry. by apply delete_id.
Qed.

(** *** [insert] *)

(** The cache once [make_shared key] has run. *)
Definition with_node (key : K) (c : Cache) : Cache :=
  mkLRUCache (head_ c) (tail_ c)
    (heap c ++ [mkListNode NullNodePtr nullptr (Some key)])
    (hash_map_ c) (current_size_ c) (capacity_ c).

Lemma make_shared_eq c k :
  make_shared k c = Some (HeapPtr (length (heap c)), with_node k c).
Proof. done. Qed.

Lemma hash_map_insert_new c k e :
  hash_map_ c !! k = None →
  hash_map_insert k e c = Some (true, set_hash_map (<[k:=e]> (hash_map_ c)) c).
Proof. intros Hk. unfold hash_map_insert. mpure. by rewrite Hk. Qed.

Lemma hash_map_insert_dup c k e :
  is_Some (hash_map_ c !! k) → hash_map_insert k e c = Some (false, c).
Proof. intros [v Hk]. unfold hash_map_insert. mpure. by rewrite Hk. Qed.

Lemma load_node_with_node c k p :
  valid c p → load_node (with_node k c) p = load_node c p.
Proof.
  destruct p as [| | | |a]; try done. intros [n Hn]. cbn in *.
  apply lookup_app_l. by eapply lookup_lt_Some.
Qed.

(** [insert] of a key that has an entry: the result is [false], and the
    only trace is the unlinked node that was made for it. *)
Lemma insert_dup c k v :
  is_Some (hash_map_ c !! k) → insert k v c = Some (false, with_node k c).
Proof.
  intros Hk. unfold insert. mstep (make_shared_eq c k).
  by rewrite (bind_Some _ _ _ _ _ (hash_map_insert_dup (with_node k c) k _ Hk)).
Qed.

Lemma Wf_with_node c ks k : Wf c ks → Wf (with_node k c) ks.
Proof.
  intros (l & HR & Hdom). exists l. split; [|done].
  eapply Rep0_ext; [| |exact HR]; [apply load_node_with_node | done].
Qed.

Lemma Wf_intro c l ks (m : gmap K (Value V)) :
  Rep0 c l ks → hash_map_ c = m → (∀ k, is_Some (m !! k) → k ∈ ks) → Wf c ks.
Proof. intros HR <- Hdom. by exists l. Qed.

Lemma compare_exchange_strong_eq c expected desired :
  current_size_ c = expected →
  compare_exchange_strong expected desired c = Some (true, set_current_size desired c).
Proof.
  intros Hc. unfold compare_exchange_strong. mpure.
  by rewrite bool_decide_eq_true_2.
Qed.

Lemma compare_exchange_strong_ne c expected desired :
  current_size_ c ≠ expected →
  compare_exchange_strong expected desired c = Some (false, c).
Proof.
  intros Hc. unfold compare_exchange_strong. mpure.
  by rewrite bool_decide_eq_false_2.
Qed.

Lemma current_size_post_increment_eq c :
  current_size_post_increment c =
  Some (current_size_ c, set_current_size (wrap_int (current_size_ c + 1)) c).
Proof. done. Qed.

Lemma Rep0_set_current_size c l ks z :
  Rep0 c l ks → Rep0 (set_current_size z c) l ks.
Proof.
  apply Rep0_ext; [|done]. intros p _. apply load_node_set_current_size.
Qed.

Lemma dom_insert_evicted ks (m : gmap K (Value V)) k e k' :
  (∀ x, is_Some (m !! x) → x ∈ ks) →
  is_Some (evicted ks (<[k:=e]> m) !! k') → k' ∈ tail ks ++ [k].
Proof.
  intros Hdom Hk'. apply elem_of_app. rewrite list_elem_of_singleton.
  destruct (decide (k' = k)) as [->|Hne]; [by right | left].
  destruct ks as [|k0 ks]; cbn in *.
  - rewrite lookup_insert_ne in Hk' by done. by apply Hdom in Hk'.
  - destruct (decide (k' = k0)) as [->|Hne0].
    + rewrite lookup_delete_eq in Hk'. by destruct Hk'.
    + rewrite lookup_delete_ne, lookup_insert_ne in Hk' by done.
      apply Hdom, elem_of_cons in Hk' as [?|?]; done.
Qed.

Lemma dom_evicted ks (m : gmap K (Value V)) k' :
  (∀ x, is_Some (m !! x) → x ∈ ks) →
  is_Some (evicted ks m !! k') → k' ∈ tail ks.
Proof.
  intros Hdom Hk'. destruct ks as [|k0 ks]; cbn in *; [by apply Hdom|].
  destruct (decide (k' = k0)) as [->|Hne0].
  - rewrite lookup_delete_eq in Hk'. by destruct Hk'.
  - rewrite lookup_delete_ne in Hk' by done.
    apply Hdom, elem_of_cons in Hk' as [?|?]; done.
Qed.

Lemma elem_of_tail (ks : list K) k : k ∈ tail ks → k ∈ ks.
Proof. destruct ks; [done|]. cbn. by right. Qed.

(** [insert] of a key that has no entry.  With [s] the counter and [cap]
    the capacity: the entry is made; if [cap <= s] the least recently used
    key is evicted first; the key is linked as the most recently used one;
    the counter is incremented if nothing was evicted; and if [cap < s]
    (which takes an eviction) the counter goes from [s] to [s - 1] and the
    least recently used key is evicted once more. *)
Lemma insert_new_spec c ks k v :
  Wf c ks → k ∉ ks →
  let s := current_size_ c in
  let cap := capacity_ c in
  let entry := mkValue (HeapPtr (length (heap c))) v in
  let ks1 := if bool_decide (cap <= s) then tail ks else ks in
  let m1 := if bool_decide (cap <= s)
            then evicted ks (<[k:=entry]> (hash_map_ c))
            else <[k:=entry]> (hash_map_ c) in
  let ks2 := ks1 ++ [k] in
  ∃ c', insert k v c = Some (true, c') ∧
    Wf c' (if bool_decide (cap < s) then tail ks2 else ks2) ∧
    hash_map_ c' = (if bool_decide (cap < s) then evicted ks2 m1 else m1) ∧
    current_size_ c' =
      (if bool_decide (cap < s) then s - 1
       else if bool_decide (cap <= s) then s else wrap_int (s + 1)) ∧
    capacity_ c' = cap.
Proof.
  intros HW Hk s cap entry.
  assert (Hnone : hash_map_ c !! k = None).
  { apply eq_None_not_Some. intros Hs. by apply (Wf_lookup c ks k HW) in Hs. }
  destruct HW as (l & HR & Hdom).
  set (c0 := with_node k c).
  set (c1 := set_hash_map (<[k:=entry]> (hash_map_ c)) c0).
  assert (HR1 : Rep0 c1 l ks).
  { eapply Rep0_ext; [| |exact HR].
    - intros p Hp. unfold c1. rewrite load_node_set_hash_map.
      by apply load_node_with_node.
    - intros k' Hk'. cbn. apply lookup_insert_ne. intros ->. done. }
  assert (Hr1 : node_rel c1 (length (heap c)) k).
  { split.
    - unfold key_of. cbn. by rewrite list_lookup_middle.
    - exists entry. split; [cbn; apply lookup_insert_eq | done]. }
  unfold insert. mstep (make_shared_eq c k).
  mstep (hash_map_insert_new c0 k entry Hnone). cbn [negb].
  fold c1. mpure. mpure.
  change (current_size_ c1) with s. change (capacity_ c1) with cap.
  destruct (decide (cap <= s)) as [Hle|Hgt].
  - cbv zeta. rewrite !(bool_decide_eq_true_2 _ Hle).
    destruct (Rep0_popFront c1 l ks HR1) as (c2 & Ep & HR2 & Hm2 & M2).
    assert (Hpop : (popFront ;; mret true) c1 = Some (true, c2)) by by mstep Ep.
    mstep Hpop. clear Hpop.
    assert (Hr2 : node_rel c2 (length (heap c)) k).
    { destruct M2 as (Hkeys & _). destruct Hr1 as [Hkey _]. split.
      - by rewrite Hkeys.
      - exists entry. split; [|done]. rewrite Hm2. cbn.
        destruct ks as [|k0 ks]; cbn; [apply lookup_insert_eq|].
        rewrite lookup_delete_ne; [apply lookup_insert_eq|].
        intros ->. apply Hk. left. }
    assert (Hk2 : k ∉ tail ks) by (intros Hin; by apply Hk, elem_of_tail).
    destruct (Rep0_append c2 _ _ _ k HR2 Hr2 Hk2) as (c3 & Ea & HR3 & R3).
    mstep Ea. cbn [negb]. mpure.
    assert (Hs3 : current_size_ c3 = s).
    { destruct R3 as (_ & _ & -> & _), M2 as (_ & -> & _). done. }
    assert (Hc3 : capacity_ c3 = cap).
    { destruct R3 as (_ & _ & _ & -> & _), M2 as (_ & _ & -> & _). done. }
    assert (Hm3 : hash_map_ c3 = evicted ks (<[k:=entry]> (hash_map_ c))).
    { destruct R3 as (_ & -> & _). by rewrite Hm2. }
    destruct (decide (cap < s)) as [Hlt|Hge].
    + rewrite !(bool_decide_eq_true_2 _ Hlt).
      set (c4 := set_current_size (s - 1) c3).
      destruct (Rep0_popFront c4 _ _ (Rep0_set_current_size _ _ _ (s - 1) HR3))
        as (c5 & Ep5 & HR5 & Hm5 & M5).
      assert (Hinner :
        (swapped ← compare_exchange_strong s (s - 1);
         if swapped : bool then popFront else mret tt) c3 = Some (tt, c5)).
      { by mstep (compare_exchange_strong_eq c3 s (s - 1) Hs3). }
      mstep Hinner. exists c5. split_and!; [done | | | |].
      * eapply Wf_intro; [exact HR5 | exact Hm5 |].
        intros k'. apply dom_evicted. cbn. rewrite Hm3.
        intros x. by apply dom_insert_evicted.
      * rewrite Hm5. cbn. by rewrite Hm3.
      * by destruct M5 as (_ & -> & _).
      * destruct M5 as (_ & _ & -> & _). done.
    + rewrite !(bool_decide_eq_false_2 _ Hge). mpure.
      exists c3. split_and!; [done | | done..].
      eapply Wf_intro; [exact HR3 | exact Hm3 |].
      intros k'. by apply dom_insert_evicted.
  - cbv zeta. rewrite !(bool_decide_eq_false_2 _ Hgt). mpure.
    destruct (Rep0_append c1 _ _ _ k HR1 Hr1 Hk) as (c2 & Ea & HR2 & R2).
    mstep Ea. cbn [negb].
    assert (Hs2 : current_size_ c2 = s) by by destruct R2 as (_ & _ & -> & _).
    assert (Hinc : current_size_post_increment c2 =
                   Some (s, set_current_size (wrap_int (s + 1)) c2)).
    { unfold current_size_post_increment. mpure. mpure. by rewrite Hs2. }
    mstep Hinc.
    assert (Hge : ¬ cap < s) by lia.
    rewrite !(bool_decide_eq_false_2 _ Hge). mpure.
    eexists. split_and!; [done | | | done |].
    + eapply Wf_intro; [apply Rep0_set_current_size; exact HR2 | done |].
      intros k'. cbn. destruct R2 as (_ & -> & _). cbn.
      intros Hk'. apply elem_of_app. rewrite list_elem_of_singleton.
      destruct (decide (k' = k)) as [->|Hne]; [by right | left].
      rewrite lookup_insert_ne in Hk' by done. by apply Hdom.
    + cbn. by destruct R2 as (_ & -> & _).
    + cbn. by destruct R2 as (_ & _ & _ & -> & _).
Qed.

(** *** [clear] and the constructor *)

Lemma clear_spec c :
  ∃ c', clear c = Some (tt, c') ∧ Wf c' [] ∧
    hash_map_ c' = ∅ ∧ current_size_ c' = 0 ∧ capacity_ c' = capacity_ c.
Proof.
  eexists. split; [reflexivity|]. split_and!; try done.
  exists []. split.
  - split_and!; [|constructor|constructor]. cbn. done.
  - intros k [v Hv]. cbn in Hv. by rewrite lookup_empty in Hv.
Qed.

Lemma new_spec size bucketCount : Wf (LRUCache_new size bucketCount) [].
Proof.
  exists []. split.
  - split_and!; [|constructor|constructor]. cbn. done.
  - intros k [v Hv]. cbn in Hv. by rewrite lookup_empty in Hv.
Qed.

(** ** The invariant of single-threaded use *)

Definition Inv (c : Cache) : Prop :=
  ∃ ks, Wf c ks ∧
    current_size_ c = Z.of_nat (length ks) ∧
    current_size_ c <= capacity_ c ∧
    0 < capacity_ c <= INT_MAX.

Lemma wrap_int_id z : int_range z → wrap_int z = z.
Proof.
  unfold int_range, INT_MIN, INT_MAX, wrap_int. intros Hz.
  rewrite Z.mod_small; lia.
Qed.

Lemma without_length ks k :
  NoDup ks → k ∈ ks → length ks = S (length (without k ks)).
Proof.
  intros Hnd Hk. apply list_elem_of_split in Hk as (ks1 & ks2 & ->).
  rewrite without_NoDup by done. rewrite !length_app. cbn. lia.
Qed.

Lemma Wf_NoDup c ks : Wf c ks → NoDup ks.
Proof. by intros (l & (_ & _ & Hnd) & _). Qed.

Lemma Inv_new size bucketCount :
  0 < size <= INT_MAX → Inv (LRUCache_new size bucketCount).
Proof.
  intros Hsize. exists []. split; [apply new_spec|]. cbn. lia.
Qed.

Lemma Inv_clear c : Inv c → ∃ c', clear c = Some (tt, c') ∧ Inv c'.
Proof.
  intros (ks & HW & Hs & Hle & Hcap).
  destruct (clear_spec c) as (c' & E & HW' & _ & Hs' & Hc').
  exists c'. split; [done|]. exists []. rewrite Hs', Hc'. split_and!; try done; lia.
Qed.

Lemma Inv_find c try_lock ac k :
  Inv c → ∃ r c', find try_lock ac k c = Some (r, c') ∧ Inv c'.
Proof.
  intros (ks & HW & Hs & Hle & Hcap).
  destruct (find_spec c ks try_lock ac k HW) as (c' & E & HW' & _ & M & _).
  destruct M as (_ & Hs' & Hc' & _).
  eexists _, c'. split; [exact E|].
  eexists. split; [exact HW'|]. rewrite Hs', Hc'.
  assert (length (if try_lock && bool_decide (k ∈ ks)
                  then without k ks ++ [k] else ks) = length ks) as ->.
  { destruct try_lock; [|done]. cbn [andb]. case_bool_decide as Hk; [|done].
    rewrite length_app. cbn.
    rewrite (without_length ks k) by eauto using Wf_NoDup. lia. }
  split_and!; try done; lia.
Qed.

Lemma Inv_erase c k : Inv c → ∃ r c', erase k c = Some (r, c') ∧ Inv c'.
Proof.
  intros (ks & HW & Hs & Hle & Hcap).
  destruct (erase_spec c ks k HW) as (c' & E & HW' & _ & Hs' & Hc' & _).
  eexists _, c'. split; [exact E|].
  eexists. split; [exact HW'|]. rewrite Hs', Hc'.
  case_bool_decide as Hk.
  - pose proof (without_length ks k (Wf_NoDup _ _ HW) Hk) as Hlen.
    rewrite wrap_int_id by (unfold int_range, INT_MIN, INT_MAX in *; lia).
    split_and!; try done; lia.
  - rewrite without_notin by done. split_and!; try done; lia.
Qed.

Lemma Inv_insert c k v : Inv c → ∃ r c', insert k v c = Some (r, c') ∧ Inv c'.
Proof.
  intros (ks & HW & Hs & Hle & Hcap).
  destruct (decide (k ∈ ks)) as [Hk|Hk].
  - apply (Wf_lookup c ks k HW) in Hk as Hsome.
    eexists _, _. split; [by apply insert_dup|].
    exists ks. split; [by apply Wf_with_node|]. cbn. split_and!; try done; lia.
  - destruct (insert_new_spec c ks k v HW Hk) as (c' & E & HW' & _ & Hs' & Hc').
    eexists _, c'. split; [exact E|].
    eexists. split; [exact HW'|]. rewrite Hs', Hc'.
    rewrite (bool_decide_eq_false_2 (capacity_ c < current_size_ c)) by lia.
    destruct (decide (capacity_ c <= current_size_ c)) as [Hfull|Hfull].
    + rewrite !(bool_decide_eq_true_2 _ Hfull).
      destruct ks as [|k0 ks]; [cbn [length] in Hs; lia|]. cbn [tail].
      rewrite length_app. cbn [length] in *. split_and!; try done; lia.
    + rewrite !(bool_decide_eq_false_2 _ Hfull).
      rewrite wrap_int_id by (unfold int_range, INT_MIN, INT_MAX in *; lia).
      rewrite length_app. cbn [length]. split_and!; try done; lia.
Qed.

Lemma Inv_run_operations os c :
  Inv c → ∃ c', run_operations os c = Some (tt, c') ∧ Inv c'.
Proof.
  revert c. induction os as [|o os IH]; intros c HI; [by exists c|].
  assert (∃ c1, run_operation o c = Some (tt, c1) ∧ Inv c1) as (c1 & E1 & HI1).
  { destruct o as [k v|k|b ac k|]; cbn [run_operation].
    - destruct (Inv_insert c k v HI) as (r & c1 & E & HI1).
      exists c1. split; [by mstep E | done].
    - destruct (Inv_erase c k HI) as (r & c1 & E & HI1).
      exists c1. split; [by mstep E | done].
    - destruct (Inv_find c b ac k HI) as (r & c1 & E & HI1).
      exists c1. split; [by mstep E | done].
    - by apply Inv_clear. }
  destruct (IH c1 HI1) as (c' & E' & HI').
  exists c'. split; [|done]. cbn [run_operations]. by mstep E1.
Qed.

(** Whatever the capacity and the counter, one thread keeps the cache
    well formed. *)
Lemma Wf_run_operations os c ks :
  Wf c ks → ∃ c' ks', run_operations os c = Some (tt, c') ∧ Wf c' ks'.
Proof.
  revert c ks. induction os as [|o os IH]; intros c ks HW; [by exists c, ks|].
  assert (∃ c1 ks1, run_operation o c = Some (tt, c1) ∧ Wf c1 ks1)
    as (c1 & ks1 & E1 & HW1).
  { destruct o as [k v|k|b ac k|]; cbn [run_operation].
    - destruct (decide (k ∈ ks)) as [Hk|Hk].
      + apply (Wf_lookup c ks k HW) in Hk as Hsome.
        exists (with_node k c), ks. split; [|by apply Wf_with_node].
        by mstep (insert_dup c k v Hsome).
      + destruct (insert_new_spec c ks k v HW Hk) as (c1 & E & HW1 & _).
        eexists c1, _. split; [by mstep E | exact HW1].
    - destruct (erase_spec c ks k HW) as (c1 & E & HW1 & _).
      eexists c1, _. split; [by mstep E | exact HW1].
    - destruct (find_spec c ks b ac k HW) as (c1 & E & HW1 & _).
      eexists c1, _. split; [by mstep E | exact HW1].
    - destruct (clear_spec c) as (c1 & E & HW1 & _). by exists c1, []. }
  destruct (IH c1 ks1 HW1) as (c' & ks' & E' & HW').
  exists c', ks'. split; [|done]. cbn [run_operations]. by mstep E1.
Qed.

Lemma reachable_iff c ks k : Wf c ks → (reachable c k ↔ k ∈ ks).
Proof.
  intros HW. unfold reachable, eval. split.
  - intros (ac & r & E).
    destruct (find_spec c ks true ac k HW) as (c' & E' & _).
    rewrite E' in E. cbn in E. by case_bool_decide.
  - intros Hk. apply (Wf_lookup c ks k HW) in Hk as Hsome. destruct Hsome as [e He].
    exists (ConstAccessor.mk None (value_ e)).
    destruct (find_spec c ks true (ConstAccessor.mk None (value_ e)) k HW)
      as (c' & E' & _).
    rewrite E'. cbn. rewrite bool_decide_eq_true_2 by done. eauto.
Qed.

(** ** Properties of the cache *)

(** C3.  A cache of positive capacity, used by one thread: after every
    sequence of insert, erase, find and clear operations, [size()] is the
    number of keys that [find] reaches, and it is at most [capacity()]. *)
Theorem single_threaded_size_invariant
    (size_ : Z) (bucketCount : nat) (os : list operation) :
  0 < size_ <= INT_MAX →
  ∃ c, exec (run_operations os) (LRUCache_new size_ bucketCount) = Some c ∧
    (∃ keys : list K,
       NoDup keys ∧ (∀ k, k ∈ keys ↔ reachable c k) ∧
       size c = Z.of_nat (length keys)) ∧
    size c <= capacity c.
Proof.
  intros Hsize.
  destruct (Inv_run_operations os _ (Inv_new size_ bucketCount Hsize))
    as (c & E & ks & HW & Hs & Hle & _).
  exists c. unfold exec. rewrite E. split; [done|]. split; [|done].
  exists ks. split_and!; [by eapply Wf_NoDup | | done].
  intros k. symmetry. by apply reachable_iff.
Qed.

(** Inserting keys one after the other. *)
Fixpoint insert_all (kvs : list (K * V)) : M unit :=
  match kvs with
  | [] => mret tt
  | kv :: kvs' => insert kv.1 kv.2 ;; insert_all kvs'
  end.

Lemma insert_all_spec c ks kvs :
  Wf c ks → current_size_ c = Z.of_nat (length ks) →
  Z.of_nat (length ks + length kvs) <= capacity_ c <= INT_MAX →
  NoDup (ks ++ kvs.*1) →
  ∃ c', insert_all kvs c = Some (tt, c') ∧
    Wf c' (ks ++ kvs.*1) ∧
    current_size_ c' = Z.of_nat (length (ks ++ kvs.*1)) ∧
    capacity_ c' = capacity_ c.
Proof.
  revert c ks. induction kvs as [|[k v] kvs IH]; intros c ks HW Hs Hcap Hnd.
  - exists c. cbn. rewrite app_nil_r. by split_and!.
  - cbn [fmap list_fmap fst length] in *.
    assert (Hk : k ∉ ks).
    { apply NoDup_app in Hnd as (_ & Hd & _). intros Hin. apply (Hd k Hin). left. }
    destruct (insert_new_spec c ks k v HW Hk) as (c1 & E & HW1 & _ & Hs1 & Hc1).
    assert (Hlt : ¬ capacity_ c <= current_size_ c) by lia.
    assert (Hlt' : ¬ capacity_ c < current_size_ c) by lia.
    rewrite !(bool_decide_eq_false_2 _ Hlt), !(bool_decide_eq_false_2 _ Hlt') in *.
    rewrite wrap_int_id in Hs1 by (unfold int_range, INT_MIN, INT_MAX in *; lia).
    destruct (IH c1 (ks ++ [k]) HW1) as (c' & E' & HW' & Hs' & Hc').
    + rewrite Hs1, Hs, length_app. cbn [length]. lia.
    + rewrite Hc1, length_app. cbn [length]. lia.
    + by rewrite <- app_assoc.
    + exists c'. rewrite <- app_assoc in HW', Hs'. split_and!; try done; [|congruence].
      cbn [insert_all fst snd]. by mstep E.
Qed.

(** C4.  Keys [k1], [k2], ... are inserted into an empty cache that has
    room for exactly these; [find] then touches [k1]; one more key is
    inserted.  The key that leaves the cache is [k2]: the keys present are
    [k1], the keys after [k2], and the new key.  The scenario of capacity
    3 with the keys 1, 2, 3 and then 4 is
    [lru_order_find_promotion_witness]. *)
Theorem lru_order_find_promotion
    (kv1 kv2 : K * V) (rest : list (K * V)) (kvnew : K * V)
    (caccessor : ConstAccessor.t K V) (bucketCount : nat) :
  NoDup ((kv1 :: kv2 :: rest ++ [kvnew]).*1) →
  Z.of_nat (length (kv1 :: kv2 :: rest)) <= INT_MAX →
  ∃ c,
    exec (insert_all (kv1 :: kv2 :: rest) ;;
          find true caccessor kv1.1 ;;
          insert kvnew.1 kvnew.2)
      (LRUCache_new (Z.of_nat (length (kv1 :: kv2 :: rest))) bucketCount) = Some c ∧
    (∀ k, reachable c k ↔ k ∈ kv1.1 :: rest.*1 ++ [kvnew.1]) ∧
    ¬ reachable c kv2.1 ∧
    reachable c kv1.1.
Proof.
  intros Hnd Hmax.
  set (kvs := kv1 :: kv2 :: rest) in *.
  set (c0 := LRUCache_new (Z.of_nat (length kvs)) bucketCount).
  assert (NoDup (kvs.*1) ∧ kvnew.1 ∉ kvs.*1) as [Hndk Hnew].
  { change (kv1 :: kv2 :: rest ++ [kvnew]) with (kvs ++ [kvnew]) in Hnd.
    rewrite fmap_app in Hnd. apply NoDup_app in Hnd as (? & Hd & _). split; [done|].
    intros Hin. apply (Hd _ Hin). left. }
  destruct (insert_all_spec c0 [] kvs (new_spec _ _)) as (c1 & E1 & HW1 & Hs1 & Hc1);
    [done | | done |].
  { change (capacity_ c0) with (Z.of_nat (length kvs)).
    change (length [] + length kvs)%nat with (length kvs). lia. }
  cbn [app] in HW1, Hs1.
  destruct (find_spec c1 _ true caccessor kv1.1 HW1) as (c2 & E2 & HW2 & _ & M2 & _).
  rewrite bool_decide_eq_true_2 in HW2 by (subst kvs; left). cbn [andb] in HW2.
  assert (Hw : without kv1.1 (kvs.*1) = kv2.1 :: rest.*1).
  { subst kvs. cbn [fmap list_fmap] in *.
    apply (without_NoDup [] (kv2.1 :: rest.*1) kv1.1). done. }
  rewrite Hw in HW2. cbn [app] in HW2.
  assert (Hnew2 : kvnew.1 ∉ kv2.1 :: rest.*1 ++ [kv1.1]).
  { intros Hin. apply Hnew. subst kvs. cbn [fmap list_fmap].
    elem_norm_in Hin. elem_norm. tauto. }
  destruct (insert_new_spec c2 _ kvnew.1 kvnew.2 HW2 Hnew2) as (c3 & E3 & HW3 & _).
  destruct M2 as (_ & Hs2 & Hc2 & _).
  assert (Heq : current_size_ c2 = capacity_ c2).
  { rewrite Hs2, Hc2, Hs1, Hc1. by rewrite length_fmap. }
  assert (Hfull : capacity_ c2 <= current_size_ c2) by lia.
  assert (Hnot : ¬ capacity_ c2 < current_size_ c2) by lia.
  rewrite !(bool_decide_eq_true_2 _ Hfull), !(bool_decide_eq_false_2 _ Hnot) in HW3.
  cbn [tail] in HW3.
  exists c3. split_and!.
  - unfold exec. mstep E1. mstep E2. by rewrite E3.
  - intros k. rewrite (reachable_iff c3 _ k HW3). elem_norm. tauto.
  - rewrite (reachable_iff c3 _ _ HW3). intros Hin.
    subst kvs. cbn [fmap list_fmap] in Hndk.
    apply NoDup_cons in Hndk as [Hk1 Hndk]. apply NoDup_cons in Hndk as [Hk2 _].
    elem_norm_in Hin.
    destruct Hin as [[Hin|[Hin|[]]]|[Hin|[]]].
    + done.
    + apply Hk1. rewrite <- Hin. left.
    + apply Hnew. rewrite <- Hin. right. left.
  - rewrite (reachable_iff c3 _ _ HW3). elem_norm. tauto.
Qed.

(** C5.  [find] returns [true] exactly when the key has an entry; the
    accessor then holds a copy of the stored value; and when the list mutex
    is not obtained ([try_lock = false]) the cache is left as it was, while
    the result and the copy are the same. *)
Theorem find_reports_presence
    (c : Cache) (ks : list K) (try_lock : bool)
    (caccessor : ConstAccessor.t K V) (key : K) :
  Wf c ks →
  ∃ b r c', find try_lock caccessor key c = Some ((b, r), c') ∧
    (b = true ↔ is_Some (hash_map_ c !! key)) ∧
    (∀ entry, hash_map_ c !! key = Some entry →
       b = true ∧ ConstAccessor.get r = value_ entry ∧
       hash_map_ c' !! key = Some entry) ∧
    (try_lock = false → c' = c).
Proof.
  intros HW. destruct (find_spec c ks try_lock caccessor key HW)
    as (c' & E & _ & Hm & _ & Hskip).
  eexists _, _, c'. split; [exact E|]. split_and!; [| |done].
  - rewrite bool_decide_eq_true. symmetry. by apply Wf_lookup.
  - intros entry He. rewrite He, Hm. split_and!; [|done..].
    apply bool_decide_eq_true. apply (Wf_lookup c ks key HW). by eexists.
Qed.

(** C6.  [insert] returns [true] when the key had no entry and [false] when
    it had one; in that case the entry is the one that was there, and a
    [find] that follows copies the value stored first. *)
Theorem insert_reports_new_key (c : Cache) (ks : list K) (key : K) (value : V) :
  Wf c ks →
  ∃ b c', insert key value c = Some (b, c') ∧
    (b = true ↔ hash_map_ c !! key = None) ∧
    (∀ entry, hash_map_ c !! key = Some entry →
       b = false ∧ hash_map_ c' !! key = Some entry ∧
       ∀ try_lock caccessor, ∃ r c'',
         find try_lock caccessor key c' = Some ((true, r), c'') ∧
         ConstAccessor.get r = value_ entry).
Proof.
  intros HW. destruct (decide (key ∈ ks)) as [Hk|Hk].
  - apply (Wf_lookup c ks key HW) in Hk as Hsome.
    exists false, (with_node key c). split; [by apply insert_dup|]. split.
    + split; [done|]. intros Hnone. rewrite Hnone in Hsome. by destruct Hsome.
    + intros entry He. split_and!; [done..|]. intros try_lock caccessor.
      destruct (find_spec _ ks try_lock caccessor key (Wf_with_node c ks key HW))
        as (c'' & E & _).
      rewrite bool_decide_eq_true_2 in E by done.
      eexists _, c''. split; [exact E|]. cbn. by rewrite He.
  - destruct (insert_new_spec c ks key value HW Hk) as (c' & E & _).
    assert (Hnone : hash_map_ c !! key = None).
    { apply eq_None_not_Some. intros Hs. by apply (Wf_lookup c ks key HW) in Hs. }
    exists true, c'. split; [done|]. split; [done|].
    intros entry He. congruence.
Qed.

(** C10.  An [insert] that finds the key in the map returns [false] and
    leaves the sentinels, every node that existed, the map and the counter
    as they were: the recency order is the same.  The node made for the
    call is in the store with the fields its constructor gave it, not in
    the list. *)
Theorem insert_duplicate_leaves_list (c : Cache) (key : K) (value : V) :
  is_Some (hash_map_ c !! key) →
  ∃ c', insert key value c = Some (false, c') ∧
    head_ c' = head_ c ∧ tail_ c' = tail_ c ∧
    heap c' = heap c ++ [mkListNode NullNodePtr nullptr (Some key)] ∧
    hash_map_ c' = hash_map_ c ∧
    current_size_ c' = current_size_ c ∧
    capacity_ c' = capacity_ c ∧
    (∀ p, valid c p → load_node c' p = load_node c p) ∧
    inList <$> load_node c' (HeapPtr (length (heap c))) = Some false ∧
    (∀ l ks, Rep0 c l ks → Rep0 c' l ks ∧ length (heap c) ∉ l).
Proof.
  intros Hk. exists (with_node key c). split; [by apply insert_dup|].
  split_and!; try done.
  - apply load_node_with_node.
  - cbn. by rewrite list_lookup_middle.
  - intros l ks HR. split.
    + eapply Rep0_ext; [| |exact HR]; [apply load_node_with_node | done].
    + intros Hin. destruct HR as (_ & HF & _).
      destruct (node_rel_elem_of _ _ _ _ HF Hin) as (k & _ & Hr).
      apply node_rel_valid in Hr as [n Hn]. cbn in Hn.
      apply lookup_lt_Some in Hn. lia.
Qed.

(** *** What leaves the counter alone *)

Definition keeps_size {A} (m : M A) : Prop :=
  ∀ c a c', m c = Some (a, c') → current_size_ c' = current_size_ c.

Lemma keeps_size_bind {A B} (m : M A) (f : A → M B) :
  keeps_size m → (∀ a, keeps_size (f a)) → keeps_size (m ≫= f).
Proof.
  intros Hm Hf c b c'. unfold mbind, M_bind.
  destruct (m c) as [[a c1]|] eqn:E; [|done].
  intros E'. rewrite (Hf a c1 b c' E'). by eapply Hm.
Qed.

Lemma keeps_size_ret {A} (a : A) : keeps_size (mret a).
Proof. intros c a' c'. unfold mret, M_ret. by intros [= _ <-]. Qed.

Lemma keeps_size_load p : keeps_size (load p).
Proof.
  intros c a c'. unfold load. destruct (load_node c p); [|done]. by intros [= _ <-].
Qed.

Lemma keeps_size_store p n : keeps_size (modify (store_node p n)).
Proof. intros c a c'. unfold modify. intros [= _ <-]. apply current_size_store. Qed.

Lemma keeps_size_set_next p q : keeps_size (set_next p q).
Proof.
  apply keeps_size_bind; [apply keeps_size_load|]. intros n. apply keeps_size_store.
Qed.

Lemma keeps_size_set_prev p q : keeps_size (set_prev p q).
Proof.
  apply keeps_size_bind; [apply keeps_size_load|]. intros n. apply keeps_size_store.
Qed.

Lemma keeps_size_unlink p : keeps_size (unlink p).
Proof.
  apply keeps_size_bind; [apply keeps_size_load|]. intros n.
  apply keeps_size_bind; [apply keeps_size_set_next|]. intros _.
  apply keeps_size_bind; [apply keeps_size_set_prev|]. intros _.
  apply keeps_size_set_prev.
Qed.

Lemma keeps_size_popFront : keeps_size popFront.
Proof.
  apply keeps_size_bind; [apply keeps_size_load|]. intros h. cbv beta zeta.
  destruct (bool_decide (next_ h = TailPtr)); [apply keeps_size_ret|].
  apply keeps_size_bind; [apply keeps_size_unlink|]. intros _.
  apply keeps_size_bind; [apply keeps_size_load|]. intros n.
  destruct (key_ n) as [k|]; [|by intros ? ? ?].
  apply keeps_size_bind; [by intros c a c' [= _ <-]|]. intros [e|].
  - intros c a c'. unfold hash_map_erase, modify. by intros [= _ <-].
  - apply keeps_size_ret.
Qed.

Lemma Wf_popFront c ks :
  Wf c ks →
  ∃ c', popFront c = Some (tt, c') ∧ Wf c' (tail ks) ∧
    hash_map_ c' = evicted ks (hash_map_ c) ∧
    current_size_ c' = current_size_ c.
Proof.
  intros (l & HR & Hdom).
  destruct (Rep0_popFront c l ks HR) as (c' & E & HR' & Hm & M).
  exists c'. split_and!; [done | | done | by destruct M as (_ & -> & _)].
  eapply Wf_intro; [exact HR' | exact Hm |]. intros k. by apply dom_evicted.
Qed.

(** The three cases of [erase].  For a key that has no entry it returns
    0 and changes nothing.  For a key whose node is linked it unlinks the
    node, decrements the counter, erases the entry and returns 1, and a
    [find] that follows does not reach the key.  For a key that has an
    entry whose node is not linked it returns 1 and changes nothing. *)
Theorem erase_removes_linked_key (c : Cache) (key : K) :
  (hash_map_ c !! key = None → erase key c = Some (0, c)) ∧
  (∀ ks, Wf c ks → key ∈ ks →
     ∃ c', erase key c = Some (1, c') ∧
       hash_map_ c' = delete key (hash_map_ c) ∧
       current_size_ c' = wrap_int (current_size_ c - 1) ∧
       Wf c' (without key ks) ∧
       ¬ reachable c' key) ∧
  (∀ entry n,
     hash_map_ c !! key = Some entry →
     load_node c (listNode_ entry) = Some n → inList n = false →
     erase key c = Some (1, c)).
Proof.
  split_and!.
  - intros Hnone. unfold erase. mpure. by rewrite Hnone.
  - intros ks HW Hk.
    destruct (erase_spec c ks key HW) as (c' & E & HW' & Hm & Hs & _).
    rewrite !bool_decide_eq_true_2 in * by done.
    exists c'. split_and!; try done.
    rewrite (reachable_iff c' _ key HW'). unfold without.
    rewrite list_elem_of_filter. tauto.
  - intros entry n He Hn Hin. unfold erase. mpure. rewrite He.
    mstep (load_Some _ _ _ Hn). rewrite Hin. by mpure.
Qed.

(** C9, as amended.  [popFront] never changes the counter; on a
    well-formed cache it unlinks the least recently used node and erases
    its key from the map.  An [insert] of a new key increments the counter
    exactly when it does not call [popFront] before it links the node: one
    that finds the counter below the capacity links the key and increments;
    one that finds the counter equal to the capacity evicts the least
    recently used key first and leaves the counter as it was; one that
    finds the counter above the capacity evicts, links, takes the counter
    down by one and evicts once more. *)
Theorem popFront_keeps_counter (c : Cache) :
  (∀ c', popFront c = Some (tt, c') → current_size_ c' = current_size_ c) ∧
  (∀ ks, Wf c ks →
     ∃ c', popFront c = Some (tt, c') ∧ Wf c' (tail ks) ∧
       hash_map_ c' = evicted ks (hash_map_ c) ∧
       current_size_ c' = current_size_ c) ∧
  (∀ ks key value, Wf c ks → key ∉ ks →
     ∃ c', insert key value c = Some (true, c') ∧
       (size c < capacity c →
          Wf c' (ks ++ [key]) ∧ size c' = wrap_int (size c + 1)) ∧
       (size c = capacity c →
          Wf c' (tail ks ++ [key]) ∧ size c' = size c) ∧
       (capacity c < size c →
          Wf c' (tail (tail ks ++ [key])) ∧ size c' = size c - 1)).
Proof.
  split_and!.
  - intros c'. apply keeps_size_popFront.
  - apply Wf_popFront.
  - intros ks key value HW Hk. unfold size, capacity.
    destruct (insert_new_spec c ks key value HW Hk) as (c' & E & HW' & _ & Hs & _).
    exists c'. split; [done|]. split_and!; intros Hcase.
    + assert (Hnot : ¬ capacity_ c < current_size_ c) by lia.
      assert (Hnot' : ¬ capacity_ c <= current_size_ c) by lia.
      rewrite !(bool_decide_eq_false_2 _ Hnot), !(bool_decide_eq_false_2 _ Hnot') in *.
      done.
    + assert (Hnot : ¬ capacity_ c < current_size_ c) by lia.
      assert (Hfull : capacity_ c <= current_size_ c) by lia.
      rewrite !(bool_decide_eq_false_2 _ Hnot), !(bool_decide_eq_true_2 _ Hfull) in *.
      done.
    + assert (Hfull : capacity_ c <= current_size_ c) by lia.
      rewrite !(bool_decide_eq_true_2 _ Hcase), !(bool_decide_eq_true_2 _ Hfull) in *.
      done.
Qed.

(** *** The inserting thread alone *)

Lemma popFront_interleaved_alone c : popFront_interleaved alone c = popFront c.
Proof. reflexivity. Qed.

Lemma insert_interleaved_alone key value c :
  insert_interleaved alone key value c = insert key value c.
Proof. reflexivity. Qed.

End cache.

(** ** The cache with integer keys and string values *)

Definition no_accessor : ConstAccessor.t Z string := ConstAccessor.mk None EmptyString.

(** A cache of capacity 3 that holds the key 1. *)
Definition cache_1 : LRUCache Z string :=
  mkLRUCache (mkListNode nullptr (HeapPtr 0) None) (mkListNode (HeapPtr 0) nullptr None)
    [mkListNode HeadPtr TailPtr (Some 1)]
    {[ 1 := mkValue (HeapPtr 0) "a"%string ]} 1 3.

Lemma cache_1_run :
  exec (insert 1 "a"%string) (LRUCache_new 3 8) = Some cache_1.
Proof. vm_compute. reflexivity. Qed.

Lemma Wf_cache_1 : Wf cache_1 [1].
Proof.
  destruct (insert_new_spec (LRUCache_new 3 8) [] 1 "a"%string (new_spec _ _))
    as (c' & E & HW & _); [apply not_elem_of_nil|].
  pose proof cache_1_run as Hrun. unfold exec in Hrun. rewrite E in Hrun.
  injection Hrun as ->. exact HW.
Qed.

(** A cache of capacity 1 that holds the key 1. *)
Definition cache_full : LRUCache Z string :=
  mkLRUCache (mkListNode nullptr (HeapPtr 0) None) (mkListNode (HeapPtr 0) nullptr None)
    [mkListNode HeadPtr TailPtr (Some 1)]
    {[ 1 := mkValue (HeapPtr 0) "a"%string ]} 1 1.

Lemma cache_full_run :
  exec (insert 1 "a"%string) (LRUCache_new 1 8) = Some cache_full.
Proof. vm_compute. reflexivity. Qed.

Lemma Wf_cache_full : Wf cache_full [1].
Proof.
  destruct (insert_new_spec (LRUCache_new 1 8) [] 1 "a"%string (new_spec _ _))
    as (c' & E & HW & _); [apply not_elem_of_nil|].
  pose proof cache_full_run as Hrun. unfold exec in Hrun. rewrite E in Hrun.
  injection Hrun as ->. exact HW.
Qed.

(** *** Two threads *)

(** The cache of capacity 1 while a thread is in [insert(1, a)] and has
    made the map entry but not yet linked the node. *)
Definition cache_mid_insert : LRUCache Z string :=
  mkLRUCache (mkListNode nullptr TailPtr None) (mkListNode HeadPtr nullptr None)
    [mkListNode NullNodePtr nullptr (Some 1)]
    {[ 1 := mkValue (HeapPtr 0) "a"%string ]} 0 1.

(** A second thread that runs [erase(1)] at that point and gets 1. *)
Definition thread_erase_1 : yield_point → M (K:=Z) (V:=string) unit :=
  λ y, match y with
       | after_map_insert =>
           r ← erase 1; if bool_decide (r = 1) then mret tt else undefined
       | _ => mret tt
       end.

(** A second thread that runs [insert(2, b)] when the first has read the
    counter. *)
Definition thread_insert_2 : yield_point → M (K:=Z) (V:=string) unit :=
  λ y, match y with
       | after_size_load => insert 2 "b"%string ;; mret tt
       | _ => mret tt
       end.

(** A third thread runs [insert(3, c)] when the second, which runs
    [insert(2, b)], has read the counter. *)
Definition thread_insert_3 : yield_point → M (K:=Z) (V:=string) unit :=
  λ y, match y with
       | after_size_load => insert 3 "c"%string ;; mret tt
       | _ => mret tt
       end.
Definition threads_insert_2_3 : yield_point → M (K:=Z) (V:=string) unit :=
  λ y, match y with
       | after_size_load =>
           insert_interleaved thread_insert_3 2 "b"%string ;; mret tt
       | _ => mret tt
       end.

(** The cache of capacity 1 that the three inserts leave. *)
Definition cache_overcommitted_3 : LRUCache Z string :=
  mkLRUCache (mkListNode nullptr (HeapPtr 2) None) (mkListNode (HeapPtr 0) nullptr None)
    [mkListNode (HeapPtr 1) TailPtr (Some 1);
     mkListNode (HeapPtr 2) (HeapPtr 0) (Some 2);
     mkListNode HeadPtr (HeapPtr 1) (Some 3)]
    {[ 1 := mkValue (HeapPtr 0) "a"%string; 2 := mkValue (HeapPtr 1) "b"%string;
       3 := mkValue (HeapPtr 2) "c"%string ]} 3 1.

(** The cache of capacity 1 that the two inserts leave. *)
Definition cache_overcommitted : LRUCache Z string :=
  mkLRUCache (mkListNode nullptr (HeapPtr 1) None) (mkListNode (HeapPtr 0) nullptr None)
    [mkListNode (HeapPtr 1) TailPtr (Some 1); mkListNode HeadPtr (HeapPtr 0) (Some 2)]
    {[ 1 := mkValue (HeapPtr 0) "a"%string; 2 := mkValue (HeapPtr 1) "b"%string ]} 2 1.

(** C1.  [erase] at a state in which the key is in the map and its node
    is not linked.  While [insert(1, a)] of one thread is between its map
    insertion and [append], the key 1 has an entry whose node is not
    linked.  [erase(1)] returns 1 there, as if it had removed an entry, and
    removes nothing: the cache is as before, the key is still in the map,
    and the [find] that follows returns [true].  As a schedule: the
    [erase] of the second thread returns 1, the [insert] of the first
    returns [true], and the key is in the cache at the end. *)
Lemma erase_unlinked_keeps_entry :
  exec (node ← make_shared 1; hash_map_insert 1 (mkValue node "a"%string))
    (LRUCache_new 1 8) = Some cache_mid_insert ∧
  hash_map_ cache_mid_insert !! 1 = Some (mkValue (HeapPtr 0) "a"%string) ∧
  inList <$> load_node cache_mid_insert (HeapPtr 0) = Some false ∧
  erase 1 cache_mid_insert = Some (1, cache_mid_insert) ∧
  find true no_accessor 1 cache_mid_insert =
    Some ((true, ConstAccessor.mk None "a"%string), cache_mid_insert) ∧
  insert_interleaved thread_erase_1 1 "a"%string (LRUCache_new 1 8) =
    Some (true, cache_full) ∧
  eval (find true no_accessor 1) cache_full =
    Some (true, ConstAccessor.mk None "a"%string).
Proof. split_and!; vm_compute; reflexivity. Qed.

(** An instance of the second case: [erase(1)] on the cache that holds
    the key 1. *)
Lemma erase_removes_linked_key_witness :
  Wf cache_1 [1] ∧ 1 ∈ [1] ∧
  ∃ c', erase 1 cache_1 = Some (1, c') ∧
    hash_map_ c' = delete 1 (hash_map_ cache_1) ∧
    current_size_ c' = wrap_int (current_size_ cache_1 - 1) ∧
    Wf c' (without 1 [1]) ∧
    ¬ reachable c' 1.
Proof.
  split; [exact Wf_cache_1|]. split; [left|].
  apply (proj1 (proj2 (erase_removes_linked_key cache_1 1)) [1]);
    [exact Wf_cache_1 | left].
Defined.

Lemma wrap_int_succ_ne z : wrap_int (z + 1) ≠ z.
Proof. unfold wrap_int. Z.to_euclidean_division_equations. lia. Qed.

(** C2.  [current_size_++] gives the value before the increment, so the
    check after the increment compares the capacity with that value, and
    a compare-exchange that expects that value right after the increment
    fails.  In the schedule where a second [insert] runs between the read
    of the counter and the increment of the first, on an empty cache of
    capacity 1: no [insert] evicts, the first [insert] reads 1 from the
    increment, and the cache is left with two keys and a counter of 2.
    With a third [insert] inside the second, the first reads 2, which is
    above the capacity; its compare-exchange finds 3 and fails, and the
    cache is left with three keys and a counter of 3. *)
Theorem insert_increment_reads_old_value :
  (∀ c : LRUCache Z string,
     current_size_post_increment c =
     Some (current_size_ c, set_current_size (wrap_int (current_size_ c + 1)) c)) ∧
  (∀ c : LRUCache Z string,
     (size ← current_size_post_increment;
      compare_exchange_strong size (size - 1)) c =
     Some (false, set_current_size (wrap_int (current_size_ c + 1)) c)) ∧
  insert_interleaved thread_insert_2 1 "a"%string (LRUCache_new 1 8) =
    Some (true, cache_overcommitted) ∧
  size cache_overcommitted = 2 ∧
  capacity cache_overcommitted = 1 ∧
  eval (find true no_accessor 1) cache_overcommitted =
    Some (true, ConstAccessor.mk None "a"%string) ∧
  eval (find true no_accessor 2) cache_overcommitted =
    Some (true, ConstAccessor.mk None "b"%string) ∧
  insert_interleaved threads_insert_2_3 1 "a"%string (LRUCache_new 1 8) =
    Some (true, cache_overcommitted_3) ∧
  size cache_overcommitted_3 = 3 ∧
  capacity cache_overcommitted_3 = 1.
Proof.
  split; [done|]. split.
  - intros c. rewrite (bind_Some _ _ _ _ _ (current_size_post_increment_eq c)).
    apply compare_exchange_strong_ne. cbn. apply wrap_int_succ_ne.
  - split_and!; vm_compute; reflexivity.
Qed.

(** C3, an instance. *)
Lemma single_threaded_size_invariant_witness :
  0 < 2 <= INT_MAX ∧
  ∃ c,
    exec (run_operations
            [op_insert 1 "a"%string; op_insert 2 "b"%string;
             op_find true no_accessor 1; op_insert 3 "c"%string;
             op_erase 1; op_insert 3 "x"%string; op_clear;
             op_insert 5 "e"%string])
      (LRUCache_new 2 8) = Some c ∧
    (∃ keys : list Z,
       NoDup keys ∧ (∀ k, k ∈ keys ↔ reachable c k) ∧
       size c = Z.of_nat (length keys)) ∧
    size c <= capacity c.
Proof.
  assert (H : 0 < 2 <= INT_MAX) by (unfold INT_MAX; lia).
  split; [exact H|]. apply single_threaded_size_invariant. exact H.
Defined.

(** C4, the scenario of capacity 3: after the inserts of (1, a), (2, b),
    (3, c), [find(1)] and the insert of (4, d), the keys present are 1, 3
    and 4, and the key 2 is not. *)
Lemma lru_order_find_promotion_witness :
  NoDup [1; 2; 3; 4] ∧ 3 <= INT_MAX ∧
  ∃ c,
    exec (insert_all [(1, "a"%string); (2, "b"%string); (3, "c"%string)] ;;
          find true no_accessor 1 ;;
          insert 4 "d"%string)
      (LRUCache_new 3 8) = Some c ∧
    (∀ k, reachable c k ↔ k ∈ [1; 3; 4]) ∧
    ¬ reachable c 2 ∧
    reachable c 1.
Proof.
  assert (H1 : NoDup [1; 2; 3; 4]) by compute_done.
  assert (H2 : 3 <= INT_MAX) by (unfold INT_MAX; lia).
  split; [exact H1|]. split; [exact H2|].
  exact (lru_order_find_promotion (1, "a"%string) (2, "b"%string)
           [(3, "c"%string)] (4, "d"%string) no_accessor 8%nat H1 H2).
Defined.

(** With capacity 1 there is no second key to evict: after the inserts of
    1 and 2 the key 1 is gone and the key 2 is there, whether or not 1 was
    touched in between. *)
Example capacity_one_evicts_first :
  eval (insert 1 "a"%string ;; find true no_accessor 1 ;; insert 2 "b"%string ;;
        r1 ← find true no_accessor 1; r2 ← find true no_accessor 2;
        mret (r1.1, r2.1))
    (LRUCache_new 1 8) = Some (false, true).
Proof. vm_compute. reflexivity. Qed.

(** C5, an instance: a [find] of the key 1 that does not get the list
    mutex. *)
Lemma find_reports_presence_witness :
  Wf cache_1 [1] ∧
  ∃ b r c', find false no_accessor 1 cache_1 = Some ((b, r), c') ∧
    (b = true ↔ is_Some (hash_map_ cache_1 !! 1)) ∧
    (∀ entry, hash_map_ cache_1 !! 1 = Some entry →
       b = true ∧ ConstAccessor.get r = value_ entry ∧
       hash_map_ c' !! 1 = Some entry) ∧
    (false = false → c' = cache_1).
Proof.
  split; [exact Wf_cache_1|].
  exact (find_reports_presence cache_1 [1] false no_accessor 1 Wf_cache_1).
Defined.

(** C6, an instance: a second insert of the key 1. *)
Lemma insert_reports_new_key_witness :
  Wf cache_1 [1] ∧
  ∃ b c', insert 1 "z"%string cache_1 = Some (b, c') ∧
    (b = true ↔ hash_map_ cache_1 !! 1 = None) ∧
    (∀ entry, hash_map_ cache_1 !! 1 = Some entry →
       b = false ∧ hash_map_ c' !! 1 = Some entry ∧
       ∀ try_lock caccessor, ∃ r c'',
         find try_lock caccessor 1 c' = Some ((true, r), c'') ∧
         ConstAccessor.get r = value_ entry).
Proof.
  split; [exact Wf_cache_1|].
  exact (insert_reports_new_key cache_1 [1] 1 "z"%string Wf_cache_1).
Defined.

(** C9, counterexample.  The cache of capacity 1 that the two racing
    inserts leave has a counter of 2.  The [insert(3, c)] that follows
    evicts before it links, does not increment, and then takes the counter
    from 2 to 1 and evicts again: [size()] is 2 before it and 1 after. *)
Lemma insert_evicts_and_decrements :
  insert_interleaved thread_insert_2 1 "a"%string (LRUCache_new 1 8) =
    Some (true, cache_overcommitted) ∧
  size cache_overcommitted = 2 ∧
  ∃ c', insert 3 "c"%string cache_overcommitted = Some (true, c') ∧
    size c' = 1 ∧
    eval (find true no_accessor 1) c' = Some (false, no_accessor) ∧
    eval (find true no_accessor 2) c' = Some (false, no_accessor) ∧
    eval (find true no_accessor 3) c' =
      Some (true, ConstAccessor.mk None "c"%string).
Proof.
  split; [vm_compute; reflexivity|]. split; [reflexivity|].
  eexists. split; [vm_compute; reflexivity|].
  split_and!; vm_compute; reflexivity.
Qed.

(** C9, an instance of the amended statement: an [insert] into the full
    cache of capacity 1. *)
Lemma popFront_keeps_counter_witness :
  Wf cache_full [1] ∧ (2 ∉ [1]) ∧ size cache_full = capacity cache_full ∧
  ∃ c', insert 2 "b"%string cache_full = Some (true, c') ∧
    Wf c' (tail [1] ++ [2]) ∧ size c' = size cache_full.
Proof.
  assert (H1 : 2 ∉ [1]) by compute_done.
  assert (H2 : size cache_full = capacity cache_full) by reflexivity.
  split; [exact Wf_cache_full|]. split; [exact H1|]. split; [exact H2|].
  destruct (proj2 (proj2 (popFront_keeps_counter cache_full)) [1] 2 "b"%string
              Wf_cache_full H1) as (c' & E & _ & Hfull & _).
  exists c'. split; [exact E|]. exact (Hfull H2).
Defined.

(** C10, an instance: a second insert of the key 1. *)
Lemma insert_duplicate_leaves_list_witness :
  is_Some (hash_map_ cache_1 !! 1) ∧
  ∃ c', insert 1 "z"%string cache_1 = Some (false, c') ∧
    head_ c' = head_ cache_1 ∧ tail_ c' = tail_ cache_1 ∧
    heap c' = heap cache_1 ++ [mkListNode NullNodePtr nullptr (Some 1)] ∧
    hash_map_ c' = hash_map_ cache_1 ∧
    current_size_ c' = current_size_ cache_1 ∧
    capacity_ c' = capacity_ cache_1 ∧
    (∀ p, valid cache_1 p → load_node c' p = load_node cache_1 p) ∧
    inList <$> load_node c' (HeapPtr (length (heap cache_1))) = Some false ∧
    (∀ l ks, Rep0 cache_1 l ks → Rep0 c' l ks ∧ length (heap cache_1) ∉ l).
Proof.
  assert (H1 : is_Some (hash_map_ cache_1 !! 1)) by (eexists; vm_compute; reflexivity).
  split; [exact H1|].
  exact (insert_duplicate_leaves_list cache_1 1 "z"%string H1).
Defined.

(** ** More on the cache in one thread *)

Section cache_use.
Context {K : Type} `{Countable K} {V : Type}.

Ltac mrun H := rewrite (bind_Some _ _ _ _ _ H).

(** The entry that [insert] makes for a new key is there afterwards, unless
    the key is evicted by the [insert] itself. *)
Lemma insert_new_entry (c : LRUCache K V) ks key value :
  Wf c ks → key ∉ ks →
  size c <= capacity c ∨ (2 ≤ length ks)%nat →
  ∃ c' entry, insert key value c = Some (true, c') ∧
    hash_map_ c' !! key = Some entry ∧ value_ entry = value ∧
    ∃ ks', Wf c' ks' ∧ key ∈ ks'.
Proof.
  intros HW Hk Hroom. unfold size, capacity in Hroom.
  destruct (insert_new_spec c ks key value HW Hk) as (c' & E & HW' & Hm & _).
  exists c', (mkValue (HeapPtr (length (heap c))) value).
  split; [exact E|].
  assert (Hhead : ∀ (m : gmap K (Value V)) e,
            evicted ks (<[key:=e]> m) !! key = Some e).
  { intros m e. destruct ks as [|k0 ks']; cbn; [apply lookup_insert_eq|].
    rewrite lookup_delete_ne; [apply lookup_insert_eq|].
    intros ->. apply Hk. left. }
  destruct (decide (capacity_ c < current_size_ c)) as [Hover|Hnot].
  - assert (Hfull : capacity_ c <= current_size_ c) by lia.
    rewrite !(bool_decide_eq_true_2 _ Hover), !(bool_decide_eq_true_2 _ Hfull) in *.
    destruct Hroom as [?|Hlen]; [lia|].
    destruct ks as [|k0 [|k1 ks']]; [cbn in Hlen; lia..|].
    cbn [tail app] in *. split_and!; [|done|].
    + rewrite Hm. cbn [evicted]. rewrite lookup_delete_ne.
      * apply (Hhead _ _).
      * intros ->. apply Hk. right. left.
    + eexists. split; [exact HW'|]. apply elem_of_app. right. left.
  - rewrite !(bool_decide_eq_false_2 _ Hnot) in *.
    destruct (decide (capacity_ c <= current_size_ c)) as [Hfull|Hfree].
    + rewrite !(bool_decide_eq_true_2 _ Hfull) in *. split_and!; [|done|].
      * rewrite Hm. apply Hhead.
      * eexists. split; [exact HW'|]. apply elem_of_app. right. left.
    + rewrite !(bool_decide_eq_false_2 _ Hfree) in *. split_and!; [|done|].
      * rewrite Hm. apply lookup_insert_eq.
      * eexists. split; [exact HW'|]. apply elem_of_app. right. left.
Qed.

(** X1.  A new key that [insert] accepts is found right away with the
    value that was inserted, whether or not [find] gets the list mutex:
    on every well-formed cache whose counter does not exceed the capacity
    (or that holds two keys or more). *)
Theorem insert_then_find
    (c : LRUCache K V) (ks : list K) (key : K) (value : V)
    (try_lock : bool) (caccessor : ConstAccessor.t K V) :
  Wf c ks → key ∉ ks →
  size c <= capacity c ∨ (2 ≤ length ks)%nat →
  ∃ c' r c'',
    insert key value c = Some (true, c') ∧
    find try_lock caccessor key c' = Some ((true, r), c'') ∧
    ConstAccessor.get r = value.
Proof.
  intros HW Hk Hroom.
  destruct (insert_new_entry c ks key value HW Hk Hroom)
    as (c' & entry & E & He & Hv & ks' & HW' & Hin).
  destruct (find_spec c' ks' try_lock caccessor key HW') as (c'' & Ef & _).
  rewrite (bool_decide_eq_true_2 _ Hin), He in Ef.
  eexists c', _, c''. split; [exact E|]. split; [exact Ef|]. exact Hv.
Qed.

(** X2.  [clear] needs nothing of the cache it is given: it always runs,
    and leaves a well-formed cache of the same capacity with no key and a
    counter of 0, on which every [find] returns [false] and leaves the
    accessor's value alone, and every [erase] returns 0. *)
Theorem clear_resets (c : LRUCache K V) :
  ∃ c', clear c = Some (tt, c') ∧
    size c' = 0 ∧ capacity c' = capacity c ∧ Wf c' [] ∧
    (∀ try_lock caccessor key,
       find try_lock caccessor key c' =
       Some ((false, ConstAccessor.release caccessor), c')) ∧
    (∀ key, erase key c' = Some (0, c')).
Proof.
  destruct (clear_spec c) as (c' & E & HW & Hm & Hs & Hc).
  exists c'. split_and!; try done.
  - intros try_lock caccessor key. unfold find.
    assert (Hf : hash_map_find key c' = Some (None, c')).
    { unfold hash_map_find, gets. by rewrite Hm, lookup_empty. }
    by mrun Hf.
  - intros key. unfold erase.
    assert (Hf : hash_map_find key c' = Some (None, c')).
    { unfold hash_map_find, gets. by rewrite Hm, lookup_empty. }
    by mrun Hf.
Qed.

(** *** Capacities that are not positive *)

Lemma insert_all_capacity_zero (c : LRUCache K V) ks kvs :
  Wf c ks → (length ks ≤ 1)%nat → current_size_ c = 0 → capacity_ c = 0 →
  ∃ c', insert_all kvs c = Some (tt, c') ∧
    Wf c' (match last kvs with Some kv => [kv.1] | None => ks end) ∧
    current_size_ c' = 0 ∧ capacity_ c' = 0.
Proof.
  revert c ks. induction kvs as [|kv kvs IH]; intros c ks HW Hlen Hs Hc.
  - by exists c.
  - assert (∃ c1, insert kv.1 kv.2 c = Some (bool_decide (kv.1 ∉ ks), c1) ∧
              Wf c1 [kv.1] ∧ current_size_ c1 = 0 ∧ capacity_ c1 = 0)
      as (c1 & E1 & HW1 & Hs1 & Hc1).
    { destruct (decide (kv.1 ∈ ks)) as [Hin|Hnotin].
      - exists (with_node kv.1 c).
        rewrite bool_decide_eq_false_2 by (intros Hn; by apply Hn).
        split; [apply insert_dup; by apply (Wf_lookup c ks)|].
        destruct ks as [|k0 [|k1 ks']]; [by apply elem_of_nil in Hin | | cbn in Hlen; lia].
        apply list_elem_of_singleton in Hin as ->.
        split_and!; [by apply Wf_with_node | done..].
      - destruct (insert_new_spec c ks kv.1 kv.2 HW Hnotin) as (c1 & E & HW1 & _ & Hs1 & Hc1).
        assert (Hfull : capacity_ c <= current_size_ c) by lia.
        assert (Hnot : ¬ capacity_ c < current_size_ c) by lia.
        rewrite !(bool_decide_eq_true_2 _ Hfull), !(bool_decide_eq_false_2 _ Hnot) in *.
        exists c1. rewrite bool_decide_eq_true_2 by done.
        split; [done|].
        destruct ks as [|k0 [|k1 ks']]; [| |cbn in Hlen; lia];
          cbn [tail app] in HW1; split_and!; try done; congruence. }
    destruct (IH c1 [kv.1] HW1) as (c' & E' & HW' & Hs' & Hc'); [cbn; lia | done..|].
    exists c'. split_and!; [|  |done..].
    + cbn [insert_all]. by mrun E1.
    + destruct kvs as [|kv' kvs]; [done|]. rewrite last_cons_cons.
      destruct (last (kv' :: kvs)) eqn:El; [done|]. by apply last_None in El.
Qed.

(** X3.  The constructor takes a capacity of 0.  Such a cache holds the
    key of the last [insert] and nothing else, and its counter stays 0:
    [size()] is then not the number of keys. *)
Theorem capacity_zero_keeps_last
    (kvs : list (K * V)) (kv : K * V) (bucketCount : nat) :
  ∃ c, exec (insert_all (kvs ++ [kv])) (LRUCache_new 0 bucketCount) = Some c ∧
    size c = 0 ∧ (∀ k, reachable c k ↔ k = kv.1).
Proof.
  destruct (insert_all_capacity_zero (LRUCache_new 0 bucketCount) [] (kvs ++ [kv])
              (new_spec _ _)) as (c & E & HW & Hs & _); [cbn; lia | done..|].
  rewrite last_snoc in HW.
  exists c. unfold exec. rewrite E. split_and!; [done..|].
  intros k. rewrite (reachable_iff c _ k HW). apply list_elem_of_singleton.
Qed.

(** X4.  The constructor takes a negative capacity.  The first [insert]
    into such a cache returns [true], but the key is evicted before the
    call returns: no key is reachable afterwards, and [size()] is -1. *)
Theorem negative_capacity_drops_key
    (size_ : Z) (bucketCount : nat) (key : K) (value : V) :
  size_ < 0 →
  ∃ c', insert key value (LRUCache_new size_ bucketCount) = Some (true, c') ∧
    size c' = -1 ∧ capacity c' = size_ ∧ ∀ k, ¬ reachable c' k.
Proof.
  intros Hneg. set (c := LRUCache_new size_ bucketCount).
  destruct (insert_new_spec c [] key value (new_spec _ _)) as (c' & E & HW & _ & Hs & Hc);
    [apply not_elem_of_nil|].
  assert (Hover : capacity_ c < current_size_ c) by (cbn; lia).
  assert (Hfull : capacity_ c <= current_size_ c) by (cbn; lia).
  rewrite !(bool_decide_eq_true_2 _ Hover), !(bool_decide_eq_true_2 _ Hfull) in *.
  cbn [tail app] in HW.
  exists c'. unfold size, capacity. split_and!; [done | by rewrite Hs | by rewrite Hc |].
  intros k. rewrite (reachable_iff c' _ k HW). apply not_elem_of_nil.
Qed.

(** *** The order of eviction *)

Lemma insert_all_full (c : LRUCache K V) ks news :
  Wf c ks → current_size_ c = capacity_ c →
  current_size_ c = Z.of_nat (length ks) → 0 < capacity_ c →
  NoDup (ks ++ news.*1) →
  ∃ c', insert_all news c = Some (tt, c') ∧
    Wf c' (drop (length news) (ks ++ news.*1)) ∧
    current_size_ c' = current_size_ c ∧ capacity_ c' = capacity_ c.
Proof.
  revert c ks. induction news as [|[k v] news IH]; intros c ks HW Hfull Hlen Hpos Hnd.
  - exists c. cbn. rewrite app_nil_r. by split_and!.
  - cbn [fmap list_fmap fst length] in *.
    assert (Hk : k ∉ ks).
    { apply NoDup_app in Hnd as (_ & Hd & _). intros Hin. apply (Hd k Hin). left. }
    destruct (insert_new_spec c ks k v HW Hk) as (c1 & E & HW1 & _ & Hs1 & Hc1).
    assert (Hle : capacity_ c <= current_size_ c) by lia.
    assert (Hnot : ¬ capacity_ c < current_size_ c) by lia.
    rewrite !(bool_decide_eq_true_2 _ Hle), !(bool_decide_eq_false_2 _ Hnot) in *.
    destruct ks as [|k0 ks]; [cbn in Hlen; lia|]. cbn [tail] in HW1.
    destruct (IH c1 (ks ++ [k]) HW1) as (c' & E' & HW' & Hs' & Hc').
    + congruence.
    + rewrite Hs1, Hlen, length_app. cbn [length]. lia.
    + lia.
    + rewrite <- app_assoc. cbn [app]. cbn [app] in Hnd.
      by apply NoDup_cons in Hnd as [_ ?].
    + exists c'. split_and!; [| |congruence..].
      * cbn [insert_all fst snd]. by mrun E.
      * rewrite <- app_assoc in HW'. exact HW'.
Qed.

(** X5.  On a full cache (counter = capacity = number of keys) every
    [insert] of a new key evicts the least recently used key: after [n]
    new keys the cache holds the recency order extended by the new keys,
    without its first [n] keys, and [size()] has not changed. *)
Theorem full_cache_evicts_oldest_first
    (c : LRUCache K V) (ks : list K) (news : list (K * V)) :
  Wf c ks → size c = capacity c → size c = Z.of_nat (length ks) →
  0 < capacity c → NoDup (ks ++ news.*1) →
  ∃ c', exec (insert_all news) c = Some c' ∧
    Wf c' (drop (length news) (ks ++ news.*1)) ∧
    size c' = size c ∧
    (∀ k, reachable c' k ↔ k ∈ drop (length news) (ks ++ news.*1)).
Proof.
  intros HW Hfull Hlen Hpos Hnd.
  destruct (insert_all_full c ks news HW Hfull Hlen Hpos Hnd) as (c' & E & HW' & Hs & _).
  exists c'. unfold exec. rewrite E. split_and!; try done.
  intros k. by apply reachable_iff.
Qed.

(** X6.  A [find] that gets the list mutex makes the key the most
    recently used one, and the order of the other keys stays: on a full
    cache the key then outlives the next [n] new keys for every [n] below
    the number of keys, while the keys before it are evicted first. *)
Theorem find_protects_key
    (c : LRUCache K V) (ks : list K) (key : K)
    (caccessor : ConstAccessor.t K V) (news : list (K * V)) :
  Wf c ks → key ∈ ks →
  size c = capacity c → size c = Z.of_nat (length ks) →
  NoDup (ks ++ news.*1) → (length news < length ks)%nat →
  ∃ c', exec (find true caccessor key ;; insert_all news) c = Some c' ∧
    Wf c' (drop (length news) (without key ks ++ key :: news.*1)) ∧
    reachable c' key.
Proof.
  intros HW Hk Hfull Hlen Hnd Hn. unfold size, capacity in *.
  destruct (find_spec c ks true caccessor key HW) as (c1 & E1 & HW1 & _ & M & _).
  rewrite (bool_decide_eq_true_2 _ Hk) in HW1. cbn [andb] in HW1.
  destruct M as (_ & Hs1 & Hc1 & _).
  pose proof (without_length ks key (Wf_NoDup _ _ HW) Hk) as Hwl.
  assert (Hperm : NoDup ((without key ks ++ [key]) ++ news.*1)).
  { apply NoDup_app in Hnd as (Hks & Hd & Hnews).
    apply list_elem_of_split in Hk as (ks1 & ks2 & ->).
    rewrite without_NoDup in * by done.
    apply NoDup_app. split_and!; [| |done].
    - apply NoDup_app in Hks as (? & Hd' & Hks2). apply NoDup_cons in Hks2 as [? ?].
      rewrite <- app_assoc. apply NoDup_app. split_and!; [done | |].
      + intros x Hx Hx'. apply (Hd' x Hx).
        apply elem_of_app in Hx' as [?|Hx']; [by right|].
        apply list_elem_of_singleton in Hx' as ->. left.
      + apply NoDup_app. split_and!; [done | | apply NoDup_singleton].
        intros x Hx Hx'. apply list_elem_of_singleton in Hx' as ->. done.
    - intros x Hx. apply Hd.
      rewrite !elem_of_app, list_elem_of_singleton in Hx.
      rewrite elem_of_app, elem_of_cons. tauto. }
  destruct (insert_all_full c1 _ news HW1) as (c' & E' & HW' & _); [congruence | | lia | done |].
  { rewrite Hs1, Hlen, length_app. cbn [length]. lia. }
  rewrite <- app_assoc in HW'. cbn [app] in HW'.
  exists c'. split_and!.
  - unfold exec. mrun E1. by rewrite E'.
  - exact HW'.
  - apply (reachable_iff c' _ key HW').
    rewrite drop_app_le by lia. apply elem_of_app. right. left.
Qed.

(** X7.  After [erase] of a key of a cache that is not over its capacity,
    an [insert] of a new key evicts nothing: the cache holds the other
    keys, in their order, and the new key, and [size()] is what it was. *)
Theorem erase_makes_room
    (c : LRUCache K V) (ks : list K) (key knew : K) (value : V) :
  Wf c ks → key ∈ ks → knew ∉ ks →
  size c = Z.of_nat (length ks) → size c <= capacity c → capacity c <= INT_MAX →
  ∃ c', exec (erase key ;; insert knew value) c = Some c' ∧
    Wf c' (without key ks ++ [knew]) ∧ size c' = size c.
Proof.
  intros HW Hk Hnew Hlen Hle Hmax. unfold size, capacity in *.
  destruct (erase_spec c ks key HW) as (c1 & E1 & HW1 & _ & Hs1 & Hc1 & _).
  rewrite !(bool_decide_eq_true_2 _ Hk) in *.
  pose proof (without_length ks key (Wf_NoDup _ _ HW) Hk) as Hwl.
  rewrite wrap_int_id in Hs1 by (unfold int_range, INT_MIN, INT_MAX in *; lia).
  assert (Hnew1 : knew ∉ without key ks).
  { unfold without. rewrite list_elem_of_filter. tauto. }
  destruct (insert_new_spec c1 _ knew value HW1 Hnew1) as (c' & E & HW' & _ & Hs' & _).
  assert (Hfree : ¬ capacity_ c1 <= current_size_ c1) by lia.
  assert (Hnot : ¬ capacity_ c1 < current_size_ c1) by lia.
  rewrite !(bool_decide_eq_false_2 _ Hfree), !(bool_decide_eq_false_2 _ Hnot) in *.
  rewrite wrap_int_id in Hs' by (unfold int_range, INT_MIN, INT_MAX in *; lia).
  exists c'. split_and!; [|done|lia].
  unfold exec. mrun E1. by rewrite E.
Qed.

Lemma evicted_lookup ks (m : gmap K (Value V)) k :
  evicted ks m !! k = m !! k ∨ evicted ks m !! k = None.
Proof.
  destruct ks as [|k0 ks]; [by left|]. cbn.
  destruct (decide (k = k0)) as [->|Hne].
  - right. apply lookup_delete_eq.
  - left. by apply lookup_delete_ne.
Qed.

(** X8.  No operation changes an entry that is in the map: after
    [insert], [erase], [find] or [clear] on a well-formed cache, a key that
    had an entry has the same entry (value and node) or none. *)
Theorem operations_keep_entries (c : LRUCache K V) (ks : list K) (o : operation) :
  Wf c ks →
  ∃ c', run_operation o c = Some (tt, c') ∧
    ∀ k entry, hash_map_ c !! k = Some entry →
      hash_map_ c' !! k = Some entry ∨ hash_map_ c' !! k = None.
Proof.
  intros HW. destruct o as [key value|key|try_lock ac key|]; cbn [run_operation].
  - destruct (decide (key ∈ ks)) as [Hk|Hk].
    + apply (Wf_lookup c ks key HW) in Hk as Hsome.
      exists (with_node key c). split; [by mrun (insert_dup c key value Hsome)|].
      intros k entry He. by left.
    + destruct (insert_new_spec c ks key value HW Hk) as (c' & E & _ & Hm & _).
      exists c'. split; [by mrun E|]. intros k entry He.
      assert (Hne : k ≠ key).
      { intros ->. apply Hk. apply (Wf_lookup c ks key HW). by eexists. }
      rewrite Hm.
      assert (Hins : <[key:=mkValue (HeapPtr (length (heap c))) value]> (hash_map_ c) !! k
                     = Some entry) by by rewrite lookup_insert_ne.
      repeat case_bool_decide;
        repeat match goal with
               | |- context [evicted ?l ?m !! k] =>
                   destruct (evicted_lookup l m k) as [-> | ->]
               end; auto.
  - destruct (erase_spec c ks key HW) as (c' & E & _ & Hm & _).
    exists c'. split; [by mrun E|]. intros k entry He. rewrite Hm.
    destruct (decide (k = key)) as [->|Hne].
    + right. apply lookup_delete_eq.
    + left. by rewrite lookup_delete_ne.
  - destruct (find_spec c ks try_lock ac key HW) as (c' & E & _ & Hm & _).
    exists c'. split; [by mrun E|]. intros k entry He. left. by rewrite Hm.
  - destruct (clear_spec c) as (c' & E & _ & Hm & _).
    exists c'. split; [done|]. intros k entry He. right. by rewrite Hm, lookup_empty.
Qed.

(** X9.  One thread, any capacity (zero and negative ones too), any
    sequence of operations: every operation returns, no sentinel or
    unlinked node is dereferenced through a null pointer, and the list and
    the map stay in agreement.  Every key that [find] reaches has a map
    entry and the other way round. *)
Theorem operations_keep_list_and_map
    (size_ : Z) (bucketCount : nat) (os : list operation) :
  ∃ (c' : LRUCache K V) ks,
    run_operations os (LRUCache_new size_ bucketCount) = Some (tt, c') ∧
    Wf c' ks ∧
    ∀ k, reachable c' k ↔ is_Some (hash_map_ c' !! k).
Proof.
  destruct (Wf_run_operations os (LRUCache_new size_ bucketCount) [] (new_spec _ _))
    as (c' & ks & E & HW).
  exists c', ks. split_and!; [done..|].
  intros k. rewrite (reachable_iff c' ks k HW). symmetry. apply (Wf_lookup c' ks k HW).
Qed.

End cache_use.

(** *** Instances *)

(** A cache of capacity 2 that holds the keys 1 and 2. *)
Definition cache_12 : LRUCache Z string :=
  mkLRUCache (mkListNode nullptr (HeapPtr 0) None) (mkListNode (HeapPtr 1) nullptr None)
    [mkListNode HeadPtr (HeapPtr 1) (Some 1); mkListNode (HeapPtr 0) TailPtr (Some 2)]
    {[ 1 := mkValue (HeapPtr 0) "a"%string; 2 := mkValue (HeapPtr 1) "b"%string ]} 2 2.

Lemma cache_12_run :
  insert_all [(1, "a"%string); (2, "b"%string)] (LRUCache_new 2 8) = Some (tt, cache_12).
Proof. vm_compute. reflexivity. Qed.

Lemma Wf_cache_12 : Wf cache_12 [1; 2].
Proof.
  destruct (insert_all_spec (LRUCache_new 2 8) [] [(1, "a"%string); (2, "b"%string)]
              (new_spec _ _)) as (c' & E & HW & _).
  - reflexivity.
  - cbn. unfold INT_MAX. lia.
  - compute_done.
  - rewrite cache_12_run in E. injection E as <-. exact HW.
Qed.

(** X1, an instance: the key 2 put into the cache that holds the key 1. *)
Lemma insert_then_find_witness :
  Wf cache_1 [1] ∧ (2 ∉ [1]) ∧
  (size cache_1 <= capacity cache_1 ∨ (2 ≤ length [1])%nat) ∧
  ∃ c' r c'', insert 2 "b"%string cache_1 = Some (true, c') ∧
    find true no_accessor 2 c' = Some ((true, r), c'') ∧
    ConstAccessor.get r = "b"%string.
Proof.
  assert (H1 : 2 ∉ [1]) by compute_done.
  assert (H2 : size cache_1 <= capacity cache_1 ∨ (2 ≤ length [1])%nat)
    by (left; vm_compute; discriminate).
  split; [exact Wf_cache_1|]. split; [exact H1|]. split; [exact H2|].
  exact (insert_then_find cache_1 [1] 2 "b"%string true no_accessor Wf_cache_1 H1 H2).
Defined.

(** X4, an instance: capacity -1. *)
Lemma negative_capacity_drops_key_witness :
  -1 < 0 ∧
  ∃ c', insert 1 "a"%string (LRUCache_new (-1) 8) = Some (true, c') ∧
    size c' = -1 ∧ capacity c' = -1 ∧ ∀ k, ¬ reachable c' k.
Proof.
  assert (H : -1 < 0) by lia.
  split; [exact H|].
  exact (negative_capacity_drops_key (-1) 8%nat 1 "a"%string H).
Defined.

(** X5, an instance: two new keys put into the full cache of capacity 1. *)
Lemma full_cache_evicts_oldest_first_witness :
  Wf cache_full [1] ∧ size cache_full = capacity cache_full ∧
  size cache_full = Z.of_nat (length [1]) ∧ 0 < capacity cache_full ∧
  NoDup ([1] ++ [(2, "b"%string); (3, "c"%string)].*1) ∧
  ∃ c', exec (insert_all [(2, "b"%string); (3, "c"%string)]) cache_full = Some c' ∧
    Wf c' (drop 2 ([1] ++ [(2, "b"%string); (3, "c"%string)].*1)) ∧
    size c' = size cache_full ∧
    (∀ k, reachable c' k ↔ k ∈ drop 2 ([1] ++ [(2, "b"%string); (3, "c"%string)].*1)).
Proof.
  assert (H1 : size cache_full = capacity cache_full) by reflexivity.
  assert (H2 : size cache_full = Z.of_nat (length [1])) by reflexivity.
  assert (H3 : 0 < capacity cache_full) by reflexivity.
  assert (H4 : NoDup ([1] ++ [(2, "b"%string); (3, "c"%string)].*1)) by compute_done.
  split; [exact Wf_cache_full|]. split; [exact H1|]. split; [exact H2|].
  split; [exact H3|]. split; [exact H4|].
  exact (full_cache_evicts_oldest_first cache_full [1] [(2, "b"%string); (3, "c"%string)]
           Wf_cache_full H1 H2 H3 H4).
Defined.

(** X6, an instance: in the full cache of the keys 1 and 2, [find(1)]
    and then the insert of the key 3 leave the keys 1 and 3. *)
Lemma find_protects_key_witness :
  Wf cache_12 [1; 2] ∧ (1 ∈ [1; 2]) ∧
  size cache_12 = capacity cache_12 ∧ size cache_12 = Z.of_nat (length [1; 2]) ∧
  NoDup ([1; 2] ++ [(3, "c"%string)].*1) ∧
  (length [(3, "c"%string)] < length [1; 2])%nat ∧
  ∃ c', exec (find true no_accessor 1 ;; insert_all [(3, "c"%string)]) cache_12 = Some c' ∧
    Wf c' (drop (length [(3, "c"%string)]) (without 1 [1; 2] ++ 1 :: [(3, "c"%string)].*1)) ∧
    reachable c' 1.
Proof.
  assert (H1 : 1 ∈ [1; 2]) by compute_done.
  assert (H2 : size cache_12 = capacity cache_12) by reflexivity.
  assert (H3 : size cache_12 = Z.of_nat (length [1; 2])) by reflexivity.
  assert (H4 : NoDup ([1; 2] ++ [(3, "c"%string)].*1)) by compute_done.
  assert (H5 : (length [(3, "c"%string)] < length [1; 2])%nat) by (cbn; lia).
  split; [exact Wf_cache_12|]. split; [exact H1|]. split; [exact H2|].
  split; [exact H3|]. split; [exact H4|]. split; [exact H5|].
  exact (find_protects_key cache_12 [1; 2] 1 no_accessor [(3, "c"%string)]
           Wf_cache_12 H1 H2 H3 H4 H5).
Defined.

(** X7, an instance: in the full cache of the keys 1 and 2, [erase(1)]
    and then the insert of the key 3 leave the keys 2 and 3. *)
Lemma erase_makes_room_witness :
  Wf cache_12 [1; 2] ∧ (1 ∈ [1; 2]) ∧ (3 ∉ [1; 2]) ∧
  size cache_12 = Z.of_nat (length [1; 2]) ∧
  size cache_12 <= capacity cache_12 ∧ capacity cache_12 <= INT_MAX ∧
  ∃ c', exec (erase 1 ;; insert 3 "c"%string) cache_12 = Some c' ∧
    Wf c' (without 1 [1; 2] ++ [3]) ∧ size c' = size cache_12.
Proof.
  assert (H1 : 1 ∈ [1; 2]) by compute_done.
  assert (H2 : 3 ∉ [1; 2]) by compute_done.
  assert (H3 : size cache_12 = Z.of_nat (length [1; 2])) by reflexivity.
  assert (H4 : size cache_12 <= capacity cache_12) by (vm_compute; discriminate).
  assert (H5 : capacity cache_12 <= INT_MAX) by (vm_compute; discriminate).
  split; [exact Wf_cache_12|]. split; [exact H1|]. split; [exact H2|].
  split; [exact H3|]. split; [exact H4|]. split; [exact H5|].
  exact (erase_makes_room cache_12 [1; 2] 1 3 "c"%string Wf_cache_12 H1 H2 H3 H4 H5).
Defined.

(** X8, an instance: the insert of the key 3 into the full cache of the
    keys 1 and 2, which evicts the key 1. *)
Lemma operations_keep_entries_witness :
  Wf cache_12 [1; 2] ∧
  ∃ c', run_operation (op_insert 3 "c"%string) cache_12 = Some (tt, c') ∧
    ∀ k entry, hash_map_ cache_12 !! k = Some entry →
      hash_map_ c' !! k = Some entry ∨ hash_map_ c' !! k = None.
Proof.
  split; [exact Wf_cache_12|].
  exact (operations_keep_entries cache_12 [1; 2] (op_insert 3 "c"%string) Wf_cache_12).
Defined.

End LRUC.

Module Intrusive.

(** ** Data model of intrusive.h *)

(** [class HashTableNode<T>]: the two members that the table uses.  A
    [T*] is [None] when null, and else the index of the object in the
    store of the objects, which the callers own. *)
Record HashTableNode : Type := mkHashTableNode {
  htNext : option nat;
  htKeyHash : Z
}.

Definition getHashTableKeyHash (n : HashTableNode) : Z := htKeyHash n.
Definition getHashTableNext (n : HashTableNode) : option nat := htNext n.
Definition isLinkedToHashTable (n : HashTableNode) : bool :=
  negb (htKeyHash n =? 0).

(** [class IntrusiveHashTable]: [table] is [None] when null, and else the
    array of the heads of the chains. *)
Record IntrusiveHashTable : Type := mkIntrusiveHashTable {
  table : option (list (option nat));
  bucketCount : Z;
  usedBuckets : Z;
  allowDupKeys : bool
}.

Definition DefaultCapacity : Z := 2053.

(** The two constructors, before the call of [allocate] of the second. *)
Definition IntrusiveHashTable_new (allowDuplicateKeys : bool) : IntrusiveHashTable :=
  mkIntrusiveHashTable None 0 0 allowDuplicateKeys.

(** ** The member functions *)

(** The loop of [isPrime].  It runs at most [fuel] times; [None] is given
    when that does not suffice, and for a remainder by zero. *)
Fixpoint isPrime_loop (fuel : nat) (x k : Z) : option bool :=
  match fuel with
  | O => None
  | S fuel' =>
      if wrap_size (wrap_size (wrap_size (36 * k) * k) - wrap_size (12 * k)) <? x
      then
        let d1 := wrap_size (wrap_size (6 * k) + 1) in
        let d2 := wrap_size (wrap_size (6 * k) - 1) in
        if d1 =? 0 then None
        else if x mod d1 =? 0 then Some false
        else if d2 =? 0 then None
        else if x mod d2 =? 0 then Some false
        else isPrime_loop fuel' x (wrap_size (k + 1))
      else Some true
  end.

(** [IntrusiveHashTable::isPrime]. *)
Definition isPrime (fuel : nat) (x : Z) : option bool :=
  if ((Z.land x 1 =? 0) && negb (x =? 2)) || (x <? 2) ||
     ((x mod 3 =? 0) && negb (x =? 3))
  then Some false
  else isPrime_loop fuel x 1.

(** [IntrusiveHashTable::isAllocated] and [isEmpty]. *)
Definition isAllocated (t : IntrusiveHashTable) : bool :=
  match table t with
  | None => false
  | Some _ => negb (bucketCount t =? 0)
  end.
Definition isEmpty (t : IntrusiveHashTable) : bool := usedBuckets t =? 0.
Definition getSize (t : IntrusiveHashTable) : Z := usedBuckets t.
Definition getBucketCount (t : IntrusiveHashTable) : Z := bucketCount t.

(** The loop [while (!isPrime(bucketCount)) ++bucketCount] of [allocate]. *)
Fixpoint allocate_loop (fuel : nat) (loop_fuel : nat) (bucketCount : Z) : option Z :=
  match loop_fuel with
  | O => None
  | S loop_fuel' =>
      match isPrime fuel bucketCount with
      | None => None
      | Some true => Some bucketCount
      | Some false => allocate_loop fuel loop_fuel' (wrap_size (bucketCount + 1))
      end
  end.

(** How a call of [allocate] ends: it returns, or its new-expression
    throws [std::bad_array_new_length].  The table is the one that the
    call leaves. *)
Inductive allocation : Type :=
  | Returned (t : IntrusiveHashTable)
  | bad_array_new_length (t : IntrusiveHashTable).

(** The size of a pointer in bytes, and the greatest length of an array
    of pointers whose length in bytes fits [size_t]: it is [2 ^ 61 - 1]. *)
Definition sizeof_pointer : Z := 8.
Definition MAX_NEW_LENGTH : Z := SIZE_MAX / sizeof_pointer.

(** [IntrusiveHashTable::allocate(sizeHint)].  [bucketCount] is written
    before the new-expression [new ValueType *[bucketCount]()], which
    throws [std::bad_array_new_length] when the length in bytes of the
    array does not fit [size_t], and leaves [table] as it was.  For a
    shorter array the new-expression is taken to get its memory. *)
Definition allocate (fuel : nat) (sizeHint : Z) (t : IntrusiveHashTable)
  : option allocation :=
  if isAllocated t then Some (Returned t)
  else
    match allocate_loop fuel fuel sizeHint with
    | None => None
    | Some n =>
        if MAX_NEW_LENGTH <? n then
          Some (bad_array_new_length
                  (mkIntrusiveHashTable (table t) n (usedBuckets t) (allowDupKeys t)))
        else
          Some (Returned
                  (mkIntrusiveHashTable (Some (replicate (Z.to_nat n) None)) n
                     (usedBuckets t) (allowDupKeys t)))
    end.

(** [IntrusiveHashTable::allocate()]. *)
Definition allocate_default (fuel : nat) (t : IntrusiveHashTable)
  : option allocation :=
  allocate fuel DefaultCapacity t.

(** The constructor with a size hint. *)
Definition IntrusiveHashTable_new_hint (fuel : nat) (allowDuplicateKeys : bool)
    (sizeHint : Z) : option allocation :=
  allocate fuel sizeHint (IntrusiveHashTable_new allowDuplicateKeys).

Section table.
Context {K : Type} (KeyHasher : K → Z).

(** [hashOf]: the assertion [keyHash != 0] fails for a zero hash. *)
Definition hashOf (key : K) : option Z :=
  let keyHash := KeyHasher key in
  if keyHash =? 0 then None else Some keyHash.

(** [bucketOf]: a remainder by a zero [bucketCount] is undefined. *)
Definition bucketOf (t : IntrusiveHashTable) (keyHash : Z) : option Z :=
  if bucketCount t =? 0 then None else Some (keyHash mod bucketCount t).

(** [table[bucket]]. *)
Definition bucket_head (t : IntrusiveHashTable) (bucket : Z) : option (option nat) :=
  match table t with
  | None => None
  | Some tbl => tbl !! Z.to_nat bucket
  end.

(** The loop of [find]: from [item] along [htNext], to the first object
    whose [htKeyHash] is [keyHash]. *)
Fixpoint find_loop (fuel : nat) (objects : list HashTableNode) (keyHash : Z)
    (item : option nat) : option (option nat) :=
  match fuel with
  | O => None
  | S fuel' =>
      match item with
      | None => Some None
      | Some a =>
          match objects !! a with
          | None => None
          | Some n =>
              if keyHash =? htKeyHash n then Some (Some a)
              else find_loop fuel' objects keyHash (htNext n)
          end
      end
  end.

(** [IntrusiveHashTable::find]. *)
Definition find (fuel : nat) (objects : list HashTableNode)
    (t : IntrusiveHashTable) (key : K) : option (option nat) :=
  if isEmpty t then Some None
  else
    match hashOf key with
    | None => None
    | Some keyHash =>
        match bucketOf t keyHash with
        | None => None
        | Some bucket =>
            match bucket_head t bucket with
            | None => None
            | Some item => find_loop fuel objects keyHash item
            end
        end
    end.

(** The loop of [insert] that looks for the hash in a chain. *)
Fixpoint insert_loop (fuel : nat) (objects : list HashTableNode) (keyHash : Z)
    (item : option nat) : option bool :=
  match fuel with
  | O => None
  | S fuel' =>
      match item with
      | None => Some false
      | Some a =>
          match objects !! a with
          | None => None
          | Some n =>
              if keyHash =? htKeyHash n then Some true
              else insert_loop fuel' objects keyHash (htNext n)
          end
      end
  end.

(** [IntrusiveHashTable::insert]: the result, the objects and the table.
    The two assertions on [value] and the one of [hashOf] fail with
    [None].  An exception of [allocate()] would leave [insert] without a
    result; [allocate()] asks for 2053 buckets and does not throw
    ([allocate_default_not_thrown]). *)
Definition insert (fuel : nat) (key : K) (value : option nat)
    (objects : list HashTableNode) (t : IntrusiveHashTable)
  : option (bool * list HashTableNode * IntrusiveHashTable) :=
  match value with
  | None => None
  | Some v =>
      match objects !! v with
      | None => None
      | Some n =>
          if isLinkedToHashTable n then None
          else
            match allocate_default fuel t with
            | None => None
            | Some (bad_array_new_length _) => None
            | Some (Returned t) =>
                match hashOf key with
                | None => None
                | Some keyHash =>
                    match bucketOf t keyHash with
                    | None => None
                    | Some bucket =>
                        match table t, bucket_head t bucket with
                        | Some tbl, Some head =>
                            let link (next : option nat) :=
                              Some (true,
                                    <[v:=mkHashTableNode next keyHash]> objects,
                                    mkIntrusiveHashTable
                                      (Some (<[Z.to_nat bucket:=Some v]> tbl))
                                      (bucketCount t)
                                      (wrap_size (usedBuckets t + 1))
                                      (allowDupKeys t)) in
                            match head with
                            | Some _ =>
                                if negb (allowDupKeys t) then
                                  match insert_loop fuel objects keyHash head with
                                  | None => None
                                  | Some true => Some (false, objects, t)
                                  | Some false => link head
                                  end
                                else link head
                            | None => link None
                            end
                        | _, _ => None
                        end
                    end
                end
            end
      end
  end.

End table.

(** ** [isPrime] and [allocate] *)

(** Below this bound the loop condition of [isPrime] never wraps around:
    it is the square of the last number of the form [6 * k - 1] under
    [2 ^ 32]. *)
Definition PRIME_BOUND : Z := (2 ^ 32 - 5) * (2 ^ 32 - 5).

Lemma small_divisor x d :
  5 <= x → x mod 2 ≠ 0 → x mod 3 ≠ 0 →
  (∀ j, 1 <= j → (6 * j - 1) * (6 * j - 1) <= x →
        x mod (6 * j + 1) ≠ 0 ∧ x mod (6 * j - 1) ≠ 0) →
  2 <= d → d * d <= x → ¬ (d | x).
Proof.
  intros Hx H2 H3 Hno Hd Hdd [m Hm].
  pose proof (Z.div_mod d 6 ltac:(lia)) as Hdm.
  pose proof (Z.mod_pos_bound d 6 ltac:(lia)) as Hr.
  set (q := d / 6) in *. set (r := d mod 6) in *.
  assert (Hxm : x = 6 * (m * q) + r * m) by (rewrite Hm, Hdm; ring).
  set (mq := m * q) in *. clearbody mq.
  assert (Hcase : r = 0 ∨ r = 1 ∨ r = 2 ∨ r = 3 ∨ r = 4 ∨ r = 5) by lia.
  destruct Hcase as [Hr0|[Hr1|[Hr2|[Hr3|[Hr4|Hr5]]]]].
  - apply H2. rewrite Hxm, Hr0. clear. Z.to_euclidean_division_equations. lia.
  - assert (1 <= q) by lia.
    destruct (Hno q) as [Hn1 _]; [lia | nia |].
    apply Hn1. replace (6 * q + 1) with d by lia.
    rewrite Hm. apply Z.mod_mul. lia.
  - apply H2. rewrite Hxm, Hr2. clear. Z.to_euclidean_division_equations. lia.
  - apply H3. rewrite Hxm, Hr3. clear. Z.to_euclidean_division_equations. lia.
  - apply H2. rewrite Hxm, Hr4. clear. Z.to_euclidean_division_equations. lia.
  - destruct (Hno (q + 1)) as [_ Hn2]; [lia | nia |].
    apply Hn2. replace (6 * (q + 1) - 1) with d by lia.
    rewrite Hm. apply Z.mod_mul. lia.
Qed.

Lemma prime_6k x :
  5 <= x → x mod 2 ≠ 0 → x mod 3 ≠ 0 →
  Z.prime x ↔
  ∀ j, 1 <= j → (6 * j - 1) * (6 * j - 1) <= x →
       x mod (6 * j + 1) ≠ 0 ∧ x mod (6 * j - 1) ≠ 0.
Proof.
  intros Hx H2 H3. split.
  - intros [_ Hp] j Hj Hjj. split; intros Hmod.
    + apply (Hp (6 * j + 1)); [nia|]. apply Z.mod_divide; [lia | done].
    + apply (Hp (6 * j - 1)); [nia|]. apply Z.mod_divide; [lia | done].
  - intros Hno. split; [lia|]. intros n Hn Hdiv.
    destruct (Z_le_gt_dec (n * n) x) as [Hle|Hgt].
    + by apply (small_divisor x n Hx H2 H3 Hno); [lia | |].
    + destruct Hdiv as [m Hm].
      assert (2 <= m) by nia.
      apply (small_divisor x m Hx H2 H3 Hno); [lia | nia |].
      exists n. lia.
Qed.

Lemma PRIME_BOUND_eq : PRIME_BOUND = 18446744030759878681.
Proof. reflexivity. Qed.

Lemma loop_bound x k :
  0 <= x < PRIME_BOUND → 1 <= k → k = 1 ∨ (6 * k - 7) * (6 * k - 7) <= x →
  6 * k - 1 <= 2 ^ 32.
Proof.
  rewrite PRIME_BOUND_eq. intros Hx Hk [->|Hkk]; [lia|].
  destruct (Z_le_gt_dec (6 * k - 1) (2 ^ 32)) as [?|Hgt]; [done|].
  exfalso. assert (2 ^ 32 - 5 <= 6 * k - 7) by lia. nia.
Qed.

Lemma loop_cond_exact k :
  1 <= k → 6 * k - 1 <= 2 ^ 32 →
  wrap_size (wrap_size (wrap_size (36 * k) * k) - wrap_size (12 * k)) =
  (6 * k - 1) * (6 * k - 1) - 1.
Proof.
  intros Hk Hb. unfold wrap_size.
  rewrite Zmult_mod_idemp_l, Zminus_mod_idemp_r, Zminus_mod_idemp_l.
  rewrite Z.mod_small; [ring|]. nia.
Qed.

Lemma isPrime_loop_spec fuel x k :
  0 <= x < PRIME_BOUND → 1 <= k → k = 1 ∨ (6 * k - 7) * (6 * k - 7) <= x →
  (Z.to_nat (x + 1 - k) < fuel)%nat →
  ∃ b, isPrime_loop fuel x k = Some b ∧
    (b = true ↔
     ∀ j, k <= j → (6 * j - 1) * (6 * j - 1) <= x →
          x mod (6 * j + 1) ≠ 0 ∧ x mod (6 * j - 1) ≠ 0).
Proof.
  revert k. induction fuel as [|fuel IH]; intros k Hx Hk Hinv Hfuel; [lia|].
  pose proof (loop_bound x k Hx Hk Hinv) as Hb.
  cbn [isPrime_loop]. rewrite (loop_cond_exact k Hk Hb).
  assert (Hd1 : wrap_size (wrap_size (6 * k) + 1) = 6 * k + 1).
  { unfold wrap_size. rewrite Zplus_mod_idemp_l. apply Z.mod_small. lia. }
  assert (Hd2 : wrap_size (wrap_size (6 * k) - 1) = 6 * k - 1).
  { unfold wrap_size. rewrite Zminus_mod_idemp_l. apply Z.mod_small. lia. }
  assert (Hk1 : wrap_size (k + 1) = k + 1).
  { unfold wrap_size. apply Z.mod_small. lia. }
  rewrite Hd1, Hd2, Hk1. cbv zeta.
  destruct (Z.ltb_spec ((6 * k - 1) * (6 * k - 1) - 1) x) as [Hlt|Hge].
  - destruct (Z.eqb_spec (6 * k + 1) 0) as [?|_]; [lia|].
    destruct (Z.eqb_spec (x mod (6 * k + 1)) 0) as [Hm1|Hm1].
    { exists false. split; [done|]. split; [done|]. intros Hall.
      destruct (Hall k) as [Hc _]; [lia | lia | done]. }
    destruct (Z.eqb_spec (6 * k - 1) 0) as [?|_]; [lia|].
    destruct (Z.eqb_spec (x mod (6 * k - 1)) 0) as [Hm2|Hm2].
    { exists false. split; [done|]. split; [done|]. intros Hall.
      destruct (Hall k) as [_ Hc]; [lia | lia | done]. }
    destruct (IH (k + 1)) as (b & E & Hiff); [done | lia | right; nia | nia |].
    exists b. split; [done|]. rewrite Hiff. split.
    + intros Hall j Hj Hjj. destruct (decide (j = k)) as [->|Hne]; [done|].
      apply Hall; [lia | done].
    + intros Hall j Hj Hjj. apply Hall; [lia | done].
  - exists true. split; [done|]. split; [|done]. intros _ j Hj Hjj. nia.
Qed.

Lemma isPrime_spec fuel x :
  0 <= x < PRIME_BOUND → (Z.to_nat x < fuel)%nat →
  ∃ b, isPrime fuel x = Some b ∧ (b = true ↔ Z.prime x).
Proof.
  intros Hx Hfuel. unfold isPrime.
  assert (Hland : Z.land x 1 = x mod 2).
  { change 1 with (Z.ones 1). rewrite Z.land_ones by lia. done. }
  rewrite Hland.
  destruct (Z.ltb_spec x 2) as [Hlt2|Hge2].
  { rewrite orb_true_r. cbn [orb]. exists false. split; [done|].
    split; [done|]. intros [Hp _]. lia. }
  rewrite orb_false_r.
  destruct (Z.eqb_spec x 2) as [->|Hne2].
  { cbn. destruct fuel; [lia|]. exists true. split; [done|].
    split; [|done]. intros _. apply Z.prime_2. }
  destruct (Z.eqb_spec (x mod 2) 0) as [Heven|Hodd].
  { cbn [andb negb orb]. exists false. split; [done|]. split; [done|].
    intros [_ Hp]. exfalso. apply (Hp 2); [lia|].
    apply Z.mod_divide; [lia | done]. }
  cbn [andb orb].
  destruct (Z.eqb_spec x 3) as [->|Hne3].
  { cbn. destruct fuel; [lia|]. exists true. split; [done|].
    split; [|done]. intros _. apply Z.prime_3. }
  destruct (Z.eqb_spec (x mod 3) 0) as [H3|H3].
  { cbn [andb negb]. exists false. split; [done|]. split; [done|].
    intros [_ Hp]. exfalso. apply (Hp 3); [lia|].
    apply Z.mod_divide; [lia | done]. }
  cbn [andb].
  assert (Hx5 : 5 <= x).
  { destruct (decide (x = 4)) as [->|?]; [done | lia]. }
  destruct (isPrime_loop_spec fuel x 1) as (b & E & Hiff); [done | lia | by left | lia |].
  exists b. split; [done|]. rewrite Hiff. symmetry. by apply prime_6k.
Qed.

Lemma allocate_loop_spec fuel loop_fuel sizeHint p :
  0 <= sizeHint <= p → p < PRIME_BOUND → Z.prime p →
  (∀ q, sizeHint <= q < p → ¬ Z.prime q) →
  (Z.to_nat p < fuel)%nat → (Z.to_nat (p - sizeHint) < loop_fuel)%nat →
  allocate_loop fuel loop_fuel sizeHint = Some p.
Proof.
  revert sizeHint.
  induction loop_fuel as [|loop_fuel IH]; intros sizeHint Hh Hp Hprime Hmin Hf Hl; [lia|].
  cbn [allocate_loop].
  destruct (isPrime_spec fuel sizeHint) as (b & E & Hiff); [lia | lia |].
  rewrite E. destruct (decide (sizeHint = p)) as [->|Hne].
  - by rewrite (proj2 Hiff Hprime).
  - assert (b = false) as ->.
    { destruct b; [|done]. exfalso. apply (Hmin sizeHint); [lia | by apply Hiff]. }
    assert (wrap_size (sizeHint + 1) = sizeHint + 1) as ->.
    { unfold wrap_size. apply Z.mod_small. rewrite PRIME_BOUND_eq in Hp. lia. }
    apply IH; try done; [lia | | lia].
    intros q Hq. apply Hmin. lia.
Qed.

Lemma isAllocated_allocated p (used : Z) (dup : bool) :
  p ≠ 0 →
  isAllocated (mkIntrusiveHashTable (Some (replicate (Z.to_nat p) None)) p used dup)
  = true.
Proof.
  intros Hp. unfold isAllocated. cbn. by destruct (Z.eqb_spec p 0).
Qed.

Lemma MAX_NEW_LENGTH_eq : MAX_NEW_LENGTH = 2 ^ 61 - 1.
Proof. reflexivity. Qed.

Lemma MAX_NEW_LENGTH_PRIME_BOUND : MAX_NEW_LENGTH < PRIME_BOUND.
Proof. reflexivity. Qed.

Lemma allocate_spec fuel sizeHint p t :
  isAllocated t = false →
  0 <= sizeHint <= p → p <= MAX_NEW_LENGTH → Z.prime p →
  (∀ q, sizeHint <= q < p → ¬ Z.prime q) →
  (Z.to_nat p < fuel)%nat →
  allocate fuel sizeHint t =
  Some (Returned
          (mkIntrusiveHashTable (Some (replicate (Z.to_nat p) None)) p
             (usedBuckets t) (allowDupKeys t))).
Proof.
  intros Ht Hh Hp Hprime Hmin Hf. unfold allocate. rewrite Ht.
  pose proof MAX_NEW_LENGTH_PRIME_BOUND.
  rewrite (allocate_loop_spec fuel fuel sizeHint p) by (try done; lia).
  by destruct (Z.ltb_spec MAX_NEW_LENGTH p); [lia|].
Qed.

(** From [2 ^ 61] buckets on, the new-expression throws: [bucketCount] is
    the prime, and the table is not allocated. *)
Lemma allocate_bad_array_new_length fuel sizeHint p t :
  isAllocated t = false →
  0 <= sizeHint <= p → MAX_NEW_LENGTH < p < PRIME_BOUND → Z.prime p →
  (∀ q, sizeHint <= q < p → ¬ Z.prime q) →
  (Z.to_nat p < fuel)%nat →
  allocate fuel sizeHint t =
  Some (bad_array_new_length
          (mkIntrusiveHashTable (table t) p (usedBuckets t) (allowDupKeys t))).
Proof.
  intros Ht Hh Hp Hprime Hmin Hf. unfold allocate. rewrite Ht.
  rewrite (allocate_loop_spec fuel fuel sizeHint p) by (try done; lia).
  by destruct (Z.ltb_spec MAX_NEW_LENGTH p); [|lia].
Qed.

(** C7, as amended.  On a table that is not allocated, [allocate]
    returns with a bucket array of null heads whose length is the smallest
    prime that is at least the size hint, when that prime is at most
    [MAX_NEW_LENGTH], which is [2 ^ 61 - 1]: the length in bytes of the
    array then fits [size_t], and the new-expression does not throw
    [std::bad_array_new_length].  Every [allocate] on the table it leaves
    returns and changes nothing; and [allocate()] is [allocate(2053)]. *)
Theorem allocate_smallest_prime
    (fuel : nat) (sizeHint p : Z) (t : IntrusiveHashTable) :
  isAllocated t = false →
  0 <= sizeHint <= p → p <= MAX_NEW_LENGTH → Z.prime p →
  (∀ q, sizeHint <= q < p → ¬ Z.prime q) →
  (Z.to_nat p < fuel)%nat →
  ∃ t', allocate fuel sizeHint t = Some (Returned t') ∧
    getBucketCount t' = p ∧
    table t' = Some (replicate (Z.to_nat p) None) ∧
    usedBuckets t' = usedBuckets t ∧
    allowDupKeys t' = allowDupKeys t ∧
    (∀ fuel' sizeHint', allocate fuel' sizeHint' t' = Some (Returned t')) ∧
    (sizeHint = DefaultCapacity → allocate_default fuel t = Some (Returned t')) ∧
    DefaultCapacity = 2053 ∧ MAX_NEW_LENGTH = 2 ^ 61 - 1.
Proof.
  intros Ht Hh Hp Hprime Hmin Hf.
  pose proof (allocate_spec fuel sizeHint p t Ht Hh Hp Hprime Hmin Hf) as E.
  eexists. split; [exact E|]. split_and!; try done.
  - intros fuel' sizeHint'. unfold allocate.
    rewrite isAllocated_allocated; [done|]. destruct Hprime. lia.
  - intros ->. exact E.
Qed.

(** ** [find] *)

(** The objects at [l], one after the other from [item] along [htNext],
    up to a null pointer. *)
Fixpoint chain (objects : list HashTableNode) (item : option nat) (l : list nat)
  : Prop :=
  match l with
  | [] => item = None
  | a :: l' =>
      item = Some a ∧
      ∃ n, objects !! a = Some n ∧ chain objects (htNext n) l'
  end.

(** The first object of [l] whose [htKeyHash] is [keyHash]. *)
Definition first_match (objects : list HashTableNode) (keyHash : Z) (l : list nat)
  : option nat :=
  List.find
    (λ a, match objects !! a with
          | Some n => keyHash =? htKeyHash n
          | None => false
          end) l.

Lemma find_loop_spec fuel objects keyHash item l :
  chain objects item l → (length l < fuel)%nat →
  find_loop fuel objects keyHash item = Some (first_match objects keyHash l).
Proof.
  revert item l. induction fuel as [|fuel IH]; intros item l Hc Hf; [lia|].
  destruct l as [|a l]; cbn [chain] in Hc.
  - by subst item.
  - destruct Hc as (-> & n & Hn & Hc). cbn [find_loop first_match List.find].
    rewrite Hn. destruct (keyHash =? htKeyHash n); [done|].
    apply IH; [done | cbn in Hf; lia].
Qed.

Lemma first_match_spec objects keyHash l :
  match first_match objects keyHash l with
  | Some a =>
      ∃ l1 l2 n, l = l1 ++ a :: l2 ∧
        objects !! a = Some n ∧ htKeyHash n = keyHash ∧
        ∀ b m, b ∈ l1 → objects !! b = Some m → htKeyHash m ≠ keyHash
  | None => ∀ b m, b ∈ l → objects !! b = Some m → htKeyHash m ≠ keyHash
  end.
Proof.
  induction l as [|a l IH]; cbn [first_match List.find].
  - intros b m Hb. by apply elem_of_nil in Hb.
  - destruct (objects !! a) as [n|] eqn:Hn.
    + destruct (Z.eqb_spec keyHash (htKeyHash n)) as [Heq|Hne].
      * exists [], l, n. split_and!; try done.
        intros b m Hb. by apply elem_of_nil in Hb.
      * fold (first_match objects keyHash l).
        destruct (first_match objects keyHash l) as [a'|].
        -- destruct IH as (l1 & l2 & n' & -> & Hn' & Hh & Hbefore).
           exists (a :: l1), l2, n'. split_and!; try done.
           intros b m Hb Hm. apply elem_of_cons in Hb as [->|Hb]; [|by eapply Hbefore].
           rewrite Hn in Hm. injection Hm as <-. congruence.
        -- intros b m Hb Hm. apply elem_of_cons in Hb as [->|Hb]; [|by eapply IH].
           rewrite Hn in Hm. injection Hm as <-. congruence.
    + fold (first_match objects keyHash l).
      destruct (first_match objects keyHash l) as [a'|].
      * destruct IH as (l1 & l2 & n' & -> & Hn' & Hh & Hbefore).
        exists (a :: l1), l2, n'. split_and!; try done.
        intros b m Hb Hm. apply elem_of_cons in Hb as [->|Hb]; [|by eapply Hbefore].
        congruence.
      * intros b m Hb Hm. apply elem_of_cons in Hb as [->|Hb]; [|by eapply IH].
        congruence.
Qed.

Section find_properties.
Context {K : Type} (KeyHasher : K → Z).

(** [find] where the chain of the bucket ends.  On a table that is not
    empty, whose bucket [hash(key) mod bucketCount] starts a chain that
    reaches a null pointer, [find] walks that chain and returns its first
    object whose [htKeyHash] is the hash of the key, null when there is
    none; keys of equal hash get the same answer; on an empty table the
    answer is null; and the answer is the same on every table with this
    bucket count and this chain in that bucket. *)
Theorem find_first_hash_match
    (fuel : nat) (objects : list HashTableNode) (t : IntrusiveHashTable)
    (key : K) (tbl : list (option nat)) (item : option nat) (l : list nat) :
  isEmpty t = false → KeyHasher key ≠ 0 → bucketCount t ≠ 0 →
  table t = Some tbl →
  tbl !! Z.to_nat (KeyHasher key mod bucketCount t) = Some item →
  chain objects item l → (length l < fuel)%nat →
  find KeyHasher fuel objects t key =
    Some (first_match objects (KeyHasher key) l) ∧
  match first_match objects (KeyHasher key) l with
  | Some a =>
      ∃ l1 l2 n, l = l1 ++ a :: l2 ∧
        objects !! a = Some n ∧ htKeyHash n = KeyHasher key ∧
        ∀ b m, b ∈ l1 → objects !! b = Some m → htKeyHash m ≠ KeyHasher key
  | None =>
      ∀ b m, b ∈ l → objects !! b = Some m → htKeyHash m ≠ KeyHasher key
  end ∧
  (∀ key', KeyHasher key' = KeyHasher key →
     find KeyHasher fuel objects t key' = find KeyHasher fuel objects t key) ∧
  (∀ t0, isEmpty t0 = true → find KeyHasher fuel objects t0 key = Some None) ∧
  (∀ t', isEmpty t' = false → bucketCount t' = bucketCount t →
     bucket_head t' (KeyHasher key mod bucketCount t) = Some item →
     find KeyHasher fuel objects t' key = find KeyHasher fuel objects t key).
Proof.
  intros Hne Hh Hbc Htbl Hitem Hchain Hfuel.
  assert (Hhash : hashOf KeyHasher key = Some (KeyHasher key)).
  { unfold hashOf. by destruct (Z.eqb_spec (KeyHasher key) 0). }
  assert (Hbucket : bucketOf t (KeyHasher key) =
                    Some (KeyHasher key mod bucketCount t)).
  { unfold bucketOf. by destruct (Z.eqb_spec (bucketCount t) 0). }
  assert (Hfind : find KeyHasher fuel objects t key =
                  Some (first_match objects (KeyHasher key) l)).
  { unfold find. rewrite Hne, Hhash, Hbucket. unfold bucket_head.
    rewrite Htbl, Hitem. by apply find_loop_spec. }
  split_and!.
  - exact Hfind.
  - apply first_match_spec.
  - intros key' Heq. unfold find, hashOf. by rewrite Heq.
  - intros t0 Ht0. unfold find. by rewrite Ht0.
  - intros t' Hne' Hbc' Hhead. rewrite Hfind.
    unfold find. rewrite Hne', Hhash. unfold bucketOf. rewrite Hbc'.
    destruct (Z.eqb_spec (bucketCount t) 0); [done|]. rewrite Hhead.
    by apply find_loop_spec.
Qed.

End find_properties.

(** ** A table of integer keys that are their own hash *)

Definition two_objects : list HashTableNode :=
  [mkHashTableNode None 0; mkHashTableNode None 0].

(** The objects and the table after [allocate(10)], [insert(42, &o0)]
    and [insert(31, &o1)]: both keys fall into the bucket 9 of 11. *)
Definition objects_42_31 : list HashTableNode :=
  [mkHashTableNode None 42; mkHashTableNode (Some 0%nat) 31].
Definition table_42_31 : IntrusiveHashTable :=
  mkIntrusiveHashTable
    (Some [None; None; None; None; None; None; None; None; None; Some 1%nat; None])
    11 2 false.

Lemma table_42_31_run :
  allocate 12 10 (IntrusiveHashTable_new false) =
    Some (Returned (mkIntrusiveHashTable (Some (replicate 11 None)) 11 0 false)) ∧
  ('(_, objects, t) ← insert (λ k : Z, k) 12 42 (Some 0%nat) two_objects
                        (mkIntrusiveHashTable (Some (replicate 11 None)) 11 0 false);
   insert (λ k : Z, k) 12 31 (Some 1%nat) objects t)
  = Some (true, objects_42_31, table_42_31).
Proof. split; vm_compute; reflexivity. Qed.

(** An instance: [find(42)] passes the object of hash 31 and returns the
    object of hash 42. *)
Lemma find_first_hash_match_witness :
  isEmpty table_42_31 = false ∧ 42 ≠ 0 ∧ bucketCount table_42_31 ≠ 0 ∧
  table table_42_31 =
    Some [None; None; None; None; None; None; None; None; None; Some 1%nat; None] ∧
  [None; None; None; None; None; None; None; None; None; Some 1%nat; None]
    !! Z.to_nat (42 mod bucketCount table_42_31) = Some (Some 1%nat) ∧
  chain objects_42_31 (Some 1%nat) [1%nat; 0%nat] ∧
  (length [1%nat; 0%nat] < 3)%nat ∧
  find (λ k : Z, k) 3 objects_42_31 table_42_31 42 = Some (Some 0%nat).
Proof.
  assert (H1 : isEmpty table_42_31 = false) by reflexivity.
  assert (H2 : 42 ≠ 0) by lia.
  assert (H3 : bucketCount table_42_31 ≠ 0) by (cbn; lia).
  assert (H4 : table table_42_31 =
    Some [None; None; None; None; None; None; None; None; None; Some 1%nat; None])
    by reflexivity.
  assert (H5 :
    [None; None; None; None; None; None; None; None; None; Some 1%nat; None]
      !! Z.to_nat (42 mod bucketCount table_42_31) = Some (Some 1%nat))
    by reflexivity.
  assert (H6 : chain objects_42_31 (Some 1%nat) [1%nat; 0%nat]).
  { cbn. split; [done|]. eexists. split; [done|]. cbn. split; [done|].
    eexists. split; [done|]. done. }
  assert (H7 : (length [1%nat; 0%nat] < 3)%nat) by (cbn; lia).
  split; [exact H1|]. split; [exact H2|]. split; [exact H3|]. split; [exact H4|].
  split; [exact H5|]. split; [exact H6|]. split; [exact H7|].
  exact (proj1 (find_first_hash_match (λ k : Z, k) 3 objects_42_31 table_42_31 42
                  _ _ _ H1 H2 H3 H4 H5 H6 H7)).
Defined.

(** C7, counterexample.  For the size hint [SIZE_MAX], which is a
    multiple of 3, [++bucketCount] wraps around to 0, and the loop stops
    at 2: the bucket array has 2 heads, fewer than the size hint. *)
Lemma allocate_SIZE_MAX_wraps :
  isAllocated (IntrusiveHashTable_new false) = false ∧
  0 <= SIZE_MAX < 2 ^ 64 ∧
  isPrime 4 SIZE_MAX = Some false ∧
  wrap_size (SIZE_MAX + 1) = 0 ∧
  allocate 4 SIZE_MAX (IntrusiveHashTable_new false) =
    Some (Returned (mkIntrusiveHashTable (Some [None; None]) 2 0 false)) ∧
  2 < SIZE_MAX.
Proof.
  split; [reflexivity|]. split; [unfold SIZE_MAX; lia|].
  split; [vm_compute; reflexivity|]. split; [vm_compute; reflexivity|].
  split; [vm_compute; reflexivity|]. unfold SIZE_MAX. lia.
Qed.

Lemma prime_11 : Z.prime 11.
Proof.
  destruct (isPrime_spec 12 11) as (b & E & Hiff); [done | cbn; lia |].
  vm_compute in E. injection E as <-. by apply Hiff.
Qed.

Lemma prime_2053 : Z.prime 2053.
Proof.
  destruct (isPrime_spec 2054 2053) as (b & E & Hiff); [done | cbn; lia |].
  vm_compute in E. injection E as <-. by apply Hiff.
Qed.

(** C7, an instance of the amended statement: the size hint 10 gives 11
    buckets. *)
Lemma allocate_smallest_prime_witness :
  isAllocated (IntrusiveHashTable_new false) = false ∧
  0 <= 10 <= 11 ∧ 11 <= MAX_NEW_LENGTH ∧ Z.prime 11 ∧
  (∀ q, 10 <= q < 11 → ¬ Z.prime q) ∧
  (Z.to_nat 11 < 12)%nat ∧
  ∃ t', allocate 12 10 (IntrusiveHashTable_new false) = Some (Returned t') ∧
    getBucketCount t' = 11 ∧
    table t' = Some (replicate (Z.to_nat 11) None) ∧
    usedBuckets t' = usedBuckets (IntrusiveHashTable_new false) ∧
    allowDupKeys t' = allowDupKeys (IntrusiveHashTable_new false) ∧
    (∀ fuel' sizeHint', allocate fuel' sizeHint' t' = Some (Returned t')) ∧
    (10 = DefaultCapacity →
     allocate_default 12 (IntrusiveHashTable_new false) = Some (Returned t')) ∧
    DefaultCapacity = 2053 ∧ MAX_NEW_LENGTH = 2 ^ 61 - 1.
Proof.
  assert (H1 : isAllocated (IntrusiveHashTable_new false) = false) by reflexivity.
  assert (H2 : 0 <= 10 <= 11) by lia.
  assert (H3 : 11 <= MAX_NEW_LENGTH) by (vm_compute; discriminate).
  assert (H4 : ∀ q, 10 <= q < 11 → ¬ Z.prime q).
  { intros q Hq [_ Hp]. apply (Hp 2); [lia|]. exists 5. lia. }
  assert (H5 : (Z.to_nat 11 < 12)%nat) by (cbn; lia).
  split; [exact H1|]. split; [exact H2|]. split; [exact H3|].
  split; [exact prime_11|]. split; [exact H4|]. split; [exact H5|].
  exact (allocate_smallest_prime 12 10 11 (IntrusiveHashTable_new false)
           H1 H2 H3 prime_11 H4 H5).
Defined.

(** The bucket count that [allocate()] gives is 2053. *)
Lemma allocate_default_2053 (fuel : nat) (t : IntrusiveHashTable) :
  isAllocated t = false → (2053 < fuel)%nat →
  ∃ t', allocate_default fuel t = Some (Returned t') ∧ getBucketCount t' = 2053.
Proof.
  intros Ht Hf. unfold allocate_default, DefaultCapacity.
  rewrite (allocate_spec fuel 2053 2053 t Ht);
    [by eexists | lia | done | exact prime_2053 | intros q ?; lia | lia].
Qed.

(** More steps do not change what [isPrime] returns. *)
Lemma isPrime_loop_more fuel x k b :
  isPrime_loop fuel x k = Some b → ∀ more, isPrime_loop (fuel + more) x k = Some b.
Proof.
  revert k. induction fuel as [|fuel IH]; intros k E more; [done|].
  rewrite Nat.add_succ_l. cbn [isPrime_loop] in E |- *.
  destruct (_ <? x); [|done]. cbv zeta in E |- *.
  destruct (_ =? 0); [done|]. destruct (x mod _ =? 0); [done|].
  destruct (_ =? 0); [done|]. destruct (x mod _ =? 0); [done|].
  by apply IH.
Qed.

Lemma isPrime_more fuel x b :
  isPrime fuel x = Some b → ∀ more, isPrime (fuel + more) x = Some b.
Proof.
  unfold isPrime. intros E more. destruct (_ || _); [done|].
  by apply isPrime_loop_more.
Qed.

(** [allocate()] does not throw [std::bad_array_new_length]. *)
Lemma allocate_default_not_thrown (fuel : nat) (t t' : IntrusiveHashTable) :
  allocate_default fuel t ≠ Some (bad_array_new_length t').
Proof.
  unfold allocate_default, allocate, DefaultCapacity.
  destruct (isAllocated t); [done|].
  destruct fuel as [|fuel]; [done|]. cbn [allocate_loop].
  destruct (isPrime (S fuel) 2053) as [[|]|] eqn:E; [done | | done].
  exfalso. pose proof (isPrime_more _ _ _ E 2054%nat) as E'.
  destruct (isPrime_spec (S fuel + 2054) 2053) as (b & Eb & Hiff); [done | lia |].
  rewrite E' in Eb. injection Eb as <-.
  pose proof (proj2 Hiff prime_2053). done.
Qed.

(** ** The other member functions *)

(** [setAllowDuplicateKeys] and [isAllowingDuplicateKeys]. *)
Definition setAllowDuplicateKeys (allow : bool) (t : IntrusiveHashTable)
  : IntrusiveHashTable :=
  mkIntrusiveHashTable (table t) (bucketCount t) (usedBuckets t) allow.
Definition isAllowingDuplicateKeys (t : IntrusiveHashTable) : bool := allowDupKeys t.

(** What [item->htNext = nullptr; item->htKeyHash = 0] leaves. *)
Definition unlinked : HashTableNode := mkHashTableNode None 0.

(** [table[bucket] = item]; the caller has read [table[bucket]] before. *)
Definition set_bucket (bucket : Z) (item : option nat) (t : IntrusiveHashTable)
  : IntrusiveHashTable :=
  mkIntrusiveHashTable
    (match table t with
     | Some tbl => Some (<[Z.to_nat bucket:=item]> tbl)
     | None => None
     end)
    (bucketCount t) (usedBuckets t) (allowDupKeys t).

(** [--usedBuckets]. *)
Definition decrement_used (t : IntrusiveHashTable) : IntrusiveHashTable :=
  mkIntrusiveHashTable (table t) (bucketCount t) (wrap_size (usedBuckets t - 1))
    (allowDupKeys t).

(** The inner loop of [clear]: every object of a chain is reset. *)
Fixpoint clear_chain (fuel : nat) (objects : list HashTableNode) (item : option nat)
  : option (list HashTableNode) :=
  match fuel with
  | O => None
  | S fuel' =>
      match item with
      | None => Some objects
      | Some a =>
          match objects !! a with
          | None => None
          | Some n => clear_chain fuel' (<[a:=unlinked]> objects) (htNext n)
          end
      end
  end.

(** The outer loop of [clear], over the [count] buckets from [bucket]
    on. *)
Fixpoint clear_loop (fuel : nat) (t : IntrusiveHashTable) (count : nat) (bucket : Z)
    (objects : list HashTableNode) : option (list HashTableNode) :=
  match count with
  | O => Some objects
  | S count' =>
      match bucket_head t bucket with
      | None => None
      | Some item =>
          match clear_chain fuel objects item with
          | None => None
          | Some objects' => clear_loop fuel t count' (bucket + 1) objects'
          end
      end
  end.

(** [IntrusiveHashTable::clear]. *)
Definition clear (fuel : nat) (objects : list HashTableNode) (t : IntrusiveHashTable)
  : option (list HashTableNode * IntrusiveHashTable) :=
  if isEmpty t then Some (objects, t)
  else
    match clear_loop fuel t (Z.to_nat (bucketCount t)) 0 objects with
    | None => None
    | Some objects' =>
        Some (objects',
              mkIntrusiveHashTable (table t) (bucketCount t) 0 (allowDupKeys t))
    end.

(** [IntrusiveHashTable::deallocate]. *)
Definition deallocate (fuel : nat) (objects : list HashTableNode)
    (t : IntrusiveHashTable) : option (list HashTableNode * IntrusiveHashTable) :=
  if negb (isAllocated t) then Some (objects, t)
  else
    match clear fuel objects t with
    | None => None
    | Some (objects', t') =>
        Some (objects',
              mkIntrusiveHashTable None 0 (usedBuckets t') (allowDupKeys t'))
    end.

(** The loop of [countAllMatching]. *)
Fixpoint countAllMatching_loop (fuel : nat) (objects : list HashTableNode)
    (keyHash : Z) (item : option nat) (foundCount : Z) : option Z :=
  match fuel with
  | O => None
  | S fuel' =>
      match item with
      | None => Some foundCount
      | Some a =>
          match objects !! a with
          | None => None
          | Some n =>
              countAllMatching_loop fuel' objects keyHash (htNext n)
                (if keyHash =? htKeyHash n then wrap_size (foundCount + 1)
                 else foundCount)
          end
      end
  end.

(** The loop of [findAllMatching]: [items] is the array of the caller,
    and a write behind its end is undefined. *)
Fixpoint findAllMatching_loop (fuel : nat) (objects : list HashTableNode)
    (keyHash : Z) (maxItems : Z) (item : option nat)
    (items : list (option nat)) (foundCount : Z)
  : option (Z * list (option nat)) :=
  match fuel with
  | O => None
  | S fuel' =>
      match item with
      | None => Some (foundCount, items)
      | Some a =>
          match objects !! a with
          | None => None
          | Some n =>
              if keyHash =? htKeyHash n then
                match items !! Z.to_nat foundCount with
                | None => None
                | Some _ =>
                    let items' := <[Z.to_nat foundCount:=Some a]> items in
                    let foundCount' := wrap_size (foundCount + 1) in
                    if foundCount' =? maxItems then Some (foundCount', items')
                    else findAllMatching_loop fuel' objects keyHash maxItems
                           (htNext n) items' foundCount'
                end
              else if foundCount =? maxItems then Some (foundCount, items)
              else findAllMatching_loop fuel' objects keyHash maxItems
                     (htNext n) items foundCount
          end
      end
  end.

Section table_use.
Context {K : Type} (KeyHasher : K → Z).

(** [IntrusiveHashTable::operator[]]. *)
Definition subscript (fuel : nat) (objects : list HashTableNode)
    (t : IntrusiveHashTable) (key : K) : option (option nat) :=
  find KeyHasher fuel objects t key.

(** [IntrusiveHashTable::countAllMatching]. *)
Definition countAllMatching (fuel : nat) (objects : list HashTableNode)
    (t : IntrusiveHashTable) (key : K) : option Z :=
  if isEmpty t then Some 0
  else
    match hashOf KeyHasher key with
    | None => None
    | Some keyHash =>
        match bucketOf t keyHash with
        | None => None
        | Some bucket =>
            match bucket_head t bucket with
            | None => None
            | Some item => countAllMatching_loop fuel objects keyHash item 0
            end
        end
    end.

(** [IntrusiveHashTable::findAllMatching]: the count and the array.  The
    array is [None] when [items] is null; the two assertions fail with
    [None]. *)
Definition findAllMatching (fuel : nat) (objects : list HashTableNode)
    (t : IntrusiveHashTable) (key : K) (items : option (list (option nat)))
    (maxItems : Z) : option (Z * list (option nat)) :=
  match items with
  | None => None
  | Some items =>
      if maxItems =? 0 then None
      else if isEmpty t then Some (0, items)
      else
        match hashOf KeyHasher key with
        | None => None
        | Some keyHash =>
            match bucketOf t keyHash with
            | None => None
            | Some bucket =>
                match bucket_head t bucket with
                | None => None
                | Some item =>
                    findAllMatching_loop fuel objects keyHash maxItems item items 0
                end
            end
        end
  end.

End table_use.

(** The loop of [remove].  The write [previous->htNext = item->htNext]
    comes before the reset of [item]; the last branch is the failing
    assertion. *)
Fixpoint remove_loop (fuel : nat) (keyHash : Z) (bucket : Z)
    (objects : list HashTableNode) (t : IntrusiveHashTable)
    (previous item : option nat)
  : option (option nat * list HashTableNode * IntrusiveHashTable) :=
  match fuel with
  | O => None
  | S fuel' =>
      match item with
      | None => Some (None, objects, t)
      | Some a =>
          match objects !! a with
          | None => None
          | Some n =>
              if keyHash =? htKeyHash n then
                let t := decrement_used t in
                match previous with
                | Some p =>
                    match objects !! p with
                    | None => None
                    | Some pn =>
                        Some (Some a,
                              <[a:=unlinked]>
                                (<[p:=mkHashTableNode (htNext n) (htKeyHash pn)]> objects),
                              t)
                    end
                | None =>
                    match bucket_head t bucket with
                    | None => None
                    | Some head =>
                        if bool_decide (head = Some a) then
                          match htNext n with
                          | None =>
                              Some (Some a, <[a:=unlinked]> objects,
                                    set_bucket bucket None t)
                          | Some next =>
                              Some (Some a, <[a:=unlinked]> objects,
                                    set_bucket bucket (Some next) t)
                          end
                        else None
                    end
                end
              else remove_loop fuel' keyHash bucket objects t (Some a) (htNext n)
          end
      end
  end.

(** The loop of [removeAllMatching].  [nextItem] is read after the write
    to [previous], which leaves [item->htNext] as it is. *)
Fixpoint removeAllMatching_loop (fuel : nat) (keyHash : Z) (bucket : Z)
    (objects : list HashTableNode) (t : IntrusiveHashTable)
    (previous item : option nat) (removedCount : Z)
  : option (Z * list HashTableNode * IntrusiveHashTable) :=
  match fuel with
  | O => None
  | S fuel' =>
      match item with
      | None => Some (removedCount, objects, t)
      | Some a =>
          match objects !! a with
          | None => None
          | Some n =>
              if keyHash =? htKeyHash n then
                let t := decrement_used t in
                match previous with
                | Some p =>
                    match objects !! p with
                    | None => None
                    | Some pn =>
                        removeAllMatching_loop fuel' keyHash bucket
                          (<[a:=unlinked]>
                             (<[p:=mkHashTableNode (htNext n) (htKeyHash pn)]> objects))
                          t previous (htNext n) (wrap_size (removedCount + 1))
                    end
                | None =>
                    match bucket_head t bucket with
                    | None => None
                    | Some head =>
                        if bool_decide (head = Some a) then
                          match htNext n with
                          | None =>
                              Some (wrap_size (removedCount + 1),
                                    <[a:=unlinked]> objects,
                                    set_bucket bucket None t)
                          | Some next =>
                              removeAllMatching_loop fuel' keyHash bucket
                                (<[a:=unlinked]> objects)
                                (set_bucket bucket (Some next) t)
                                previous (Some next) (wrap_size (removedCount + 1))
                          end
                        else None
                    end
                end
              else
                removeAllMatching_loop fuel' keyHash bucket objects t
                  (Some a) (htNext n) removedCount
          end
      end
  end.

Section table_remove.
Context {K : Type} (KeyHasher : K → Z).

(** [IntrusiveHashTable::remove]: the object, the objects and the
    table. *)
Definition remove (fuel : nat) (key : K) (objects : list HashTableNode)
    (t : IntrusiveHashTable)
  : option (option nat * list HashTableNode * IntrusiveHashTable) :=
  if isEmpty t then Some (None, objects, t)
  else
    match hashOf KeyHasher key with
    | None => None
    | Some keyHash =>
        match bucketOf t keyHash with
        | None => None
        | Some bucket =>
            match bucket_head t bucket with
            | None => None
            | Some item => remove_loop fuel keyHash bucket objects t None item
            end
        end
    end.

(** [IntrusiveHashTable::removeAllMatching]: the count, the objects and
    the table. *)
Definition removeAllMatching (fuel : nat) (key : K) (objects : list HashTableNode)
    (t : IntrusiveHashTable)
  : option (Z * list HashTableNode * IntrusiveHashTable) :=
  if isEmpty t then Some (0, objects, t)
  else
    match hashOf KeyHasher key with
    | None => None
    | Some keyHash =>
        match bucketOf t keyHash with
        | None => None
        | Some bucket =>
            match bucket_head t bucket with
            | None => None
            | Some item =>
                removeAllMatching_loop fuel keyHash bucket objects t None item 0
            end
        end
    end.

End table_remove.

(** ** Chains and buckets *)

Lemma chain_update objects item l a x :
  a ∉ l → chain objects item l → chain (<[a:=x]> objects) item l.
Proof.
  revert item. induction l as [|b l IH]; intros item Ha Hc; cbn [chain] in *; [done|].
  destruct Hc as (-> & n & Hn & Hc). split; [done|].
  exists n. split.
  - rewrite list_lookup_insert_ne; [done|]. intros ->. apply Ha. left.
  - apply IH; [|done]. intros Hin. apply Ha. by right.
Qed.

Lemma chain_inj objects item l1 l2 :
  chain objects item l1 → chain objects item l2 → l1 = l2.
Proof.
  revert item l2. induction l1 as [|a l1 IH]; intros item l2 H1 H2.
  - cbn in H1. subst item. destruct l2; [done|]. by destruct H2.
  - destruct H1 as (-> & n & Hn & H1). destruct l2 as [|b l2]; [done|].
    destruct H2 as (Hb & m & Hm & H2). injection Hb as <-.
    rewrite Hn in Hm. injection Hm as <-. f_equal. by eapply IH.
Qed.

Lemma chain_drop objects item l a l1 l2 n :
  chain objects item l → l = l1 ++ a :: l2 → objects !! a = Some n →
  chain objects (htNext n) l2.
Proof.
  revert item l. induction l1 as [|b l1 IH]; intros item l Hc -> Hn.
  - destruct Hc as (_ & m & Hm & Hc). rewrite Hn in Hm. by injection Hm as <-.
  - destruct Hc as (_ & m & Hm & Hc). by eapply IH.
Qed.

Lemma chain_NoDup objects item l : chain objects item l → NoDup l.
Proof.
  revert item. induction l as [|a l IH]; intros item Hc; [constructor|].
  destruct Hc as (-> & n & Hn & Hc). constructor; [|by eapply IH].
  intros Hin. apply list_elem_of_split in Hin as (l1 & l2 & Hl).
  pose proof (chain_drop _ _ _ _ _ _ _ Hc Hl Hn) as Hc2.
  pose proof (chain_inj _ _ _ _ Hc Hc2) as Heq.
  apply (f_equal length) in Heq. rewrite Hl, length_app in Heq. cbn in Heq. lia.
Qed.

Lemma chain_lookup objects item l a :
  chain objects item l → a ∈ l → is_Some (objects !! a).
Proof.
  revert item. induction l as [|b l IH]; intros item Hc Ha; [by apply elem_of_nil in Ha|].
  destruct Hc as (-> & n & Hn & Hc).
  apply elem_of_cons in Ha as [->|Ha]; [by eexists | by eapply IH].
Qed.

(** Two stores that agree on the objects of a chain have that chain. *)
Lemma chain_ext objects objects' item l :
  (∀ a, a ∈ l → objects' !! a = objects !! a) →
  chain objects item l → chain objects' item l.
Proof.
  revert item. induction l as [|b l IH]; intros item Heq Hc; cbn [chain] in *; [done|].
  destruct Hc as (-> & n & Hn & Hc). split; [done|].
  exists n. split; [rewrite Heq; [done | left]|].
  apply IH; [|done]. intros a Ha. apply Heq. by right.
Qed.

Lemma elem_of_concat_lookup {A} (bs : list (list A)) (a : A) :
  a ∈ concat bs ↔ ∃ i l, bs !! i = Some l ∧ a ∈ l.
Proof.
  induction bs as [|l0 bs IH]; cbn [concat].
  - split; [intros Ha; by apply elem_of_nil in Ha | by intros (i & l & ? & _)].
  - rewrite elem_of_app, IH. split.
    + intros [Ha | (i & l & Hl & Ha)]; [by exists 0%nat, l0 | by exists (S i), l].
    + intros ([|i] & l & Hl & Ha).
      * injection Hl as ->. by left.
      * right. by exists i, l.
Qed.

Lemma length_concat_lookup {A} (bs : list (list A)) i l :
  bs !! i = Some l → (length l ≤ length (concat bs))%nat.
Proof.
  revert i. induction bs as [|l0 bs IH]; intros [|i] Hl; try done; cbn [concat];
    rewrite length_app.
  - injection Hl as ->. lia.
  - apply IH in Hl. lia.
Qed.

Lemma length_concat_insert {A} (bs : list (list A)) i l l' :
  bs !! i = Some l →
  (length (concat (<[i:=l']> bs)) + length l = length (concat bs) + length l')%nat.
Proof.
  revert i. induction bs as [|l0 bs IH]; intros [|i] Hl; try done.
  - injection Hl as ->.
    change (<[0%nat:=l']> (l :: bs)) with (l' :: bs). cbn [concat].
    rewrite !length_app. lia.
  - change (<[S i:=l']> (l0 :: bs)) with (l0 :: <[i:=l']> bs). cbn [concat].
    rewrite !length_app. pose proof (IH i Hl). lia.
Qed.

(** ** The well-formed table *)

(** The hash that the object at [a] holds. *)
Definition hash_at (objects : list HashTableNode) (a : nat) : option Z :=
  htKeyHash <$> objects !! a.

(** The objects of [l] whose [htKeyHash] is [keyHash], in the order of
    [l]. *)
Definition matching (objects : list HashTableNode) (keyHash : Z) (l : list nat)
  : list nat :=
  filter (λ a, hash_at objects a = Some keyHash) l.
Definition others (objects : list HashTableNode) (keyHash : Z) (l : list nat)
  : list nat :=
  filter (λ a, hash_at objects a ≠ Some keyHash) l.

(** [bs] gives, bucket by bucket, the objects that the chains of the
    table link: the array has one head for each bucket, each chain ends,
    and each object of a chain holds a hash that is not zero and belongs
    to the bucket.  [usedBuckets] is the number of the linked objects. *)
Record TWf (objects : list HashTableNode) (t : IntrusiveHashTable)
    (bs : list (list nat)) : Prop := mkTWf {
  TWf_count : bucketCount t = Z.of_nat (length bs);
  TWf_pos : 0 < bucketCount t;
  TWf_table : ∃ tbl, table t = Some tbl ∧ Forall2 (chain objects) tbl bs;
  TWf_hash : ∀ i l a, bs !! i = Some l → a ∈ l →
    ∃ n, objects !! a = Some n ∧ htKeyHash n ≠ 0 ∧
         htKeyHash n mod bucketCount t = Z.of_nat i;
  TWf_used : usedBuckets t = Z.of_nat (length (concat bs));
  TWf_range : usedBuckets t < 2 ^ 64
}.

(** The index of the bucket of a hash. *)
Definition bucket_index (t : IntrusiveHashTable) (keyHash : Z) : nat :=
  Z.to_nat (keyHash mod bucketCount t).

Lemma TWf_isAllocated objects t bs : TWf objects t bs → isAllocated t = true.
Proof.
  intros [Hc Hp (tbl & Ht & _) _ _ _]. unfold isAllocated. rewrite Ht.
  by destruct (Z.eqb_spec (bucketCount t) 0); [lia|].
Qed.

Lemma TWf_bucket objects t bs keyHash :
  TWf objects t bs →
  ∃ l item, bucketOf t keyHash = Some (keyHash mod bucketCount t) ∧
    bs !! bucket_index t keyHash = Some l ∧
    bucket_head t (keyHash mod bucketCount t) = Some item ∧
    chain objects item l ∧ (length l ≤ Z.to_nat (usedBuckets t))%nat.
Proof.
  intros [Hc Hp (tbl & Ht & HF) _ Hu _].
  pose proof (Z.mod_pos_bound keyHash (bucketCount t) Hp) as Hb.
  destruct (lookup_lt_is_Some_2 bs (bucket_index t keyHash)) as [l Hl];
    [unfold bucket_index; lia|].
  destruct (Forall2_lookup_r _ _ _ _ _ HF Hl) as (item & Hitem & Hchain).
  exists l, item. split_and!; try done.
  - unfold bucketOf. by destruct (Z.eqb_spec (bucketCount t) 0); [lia|].
  - unfold bucket_head. by rewrite Ht.
  - apply length_concat_lookup in Hl. lia.
Qed.

Lemma TWf_bucket_of objects t bs i l a n :
  TWf objects t bs → bs !! i = Some l → a ∈ l → objects !! a = Some n →
  bucket_index t (htKeyHash n) = i ∧ htKeyHash n ≠ 0.
Proof.
  intros HW Hl Ha Hn. destruct (TWf_hash _ _ _ HW i l a Hl Ha) as (m & Hm & H0 & Hmod).
  rewrite Hn in Hm. injection Hm as <-. unfold bucket_index. split; [lia | done].
Qed.

Lemma TWf_disjoint objects t bs i j l l' a :
  TWf objects t bs → bs !! i = Some l → bs !! j = Some l' → a ∈ l → a ∈ l' → i = j.
Proof.
  intros HW Hi Hj Ha Ha'.
  destruct (TWf_hash _ _ _ HW i l a Hi Ha) as (n & Hn & _ & Hmod).
  destruct (TWf_bucket_of _ _ _ _ _ _ _ HW Hj Ha' Hn) as [<- _].
  unfold bucket_index. lia.
Qed.

Lemma TWf_unlinked_notin objects t bs a n :
  TWf objects t bs → objects !! a = Some n → htKeyHash n = 0 → a ∉ concat bs.
Proof.
  intros HW Hn H0 Hin. apply elem_of_concat_lookup in Hin as (i & l & Hl & Ha).
  by destruct (TWf_bucket_of _ _ _ _ _ _ _ HW Hl Ha Hn).
Qed.

(** ** The loops over a chain *)

Lemma hash_at_Some objects a n : objects !! a = Some n → hash_at objects a = Some (htKeyHash n).
Proof. intros Hn. unfold hash_at. by rewrite Hn. Qed.

Lemma first_match_matching objects keyHash l :
  (∀ a, a ∈ l → is_Some (objects !! a)) →
  first_match objects keyHash l = head (matching objects keyHash l).
Proof.
  induction l as [|a l IH]; intros Hall; [done|].
  destruct (Hall a) as [n Hn]; [left|].
  cbn [first_match List.find]. unfold matching. rewrite filter_cons.
  rewrite Hn, (hash_at_Some _ _ _ Hn).
  destruct (Z.eqb_spec keyHash (htKeyHash n)) as [->|Hne].
  - by rewrite decide_True.
  - rewrite decide_False by congruence. apply IH. intros b Hb. apply Hall. by right.
Qed.

Lemma insert_loop_find_loop fuel objects keyHash item :
  insert_loop fuel objects keyHash item =
    (λ r : option nat, bool_decide (is_Some r)) <$> find_loop fuel objects keyHash item.
Proof.
  revert item. induction fuel as [|fuel IH]; intros item; [done|].
  cbn [insert_loop find_loop]. destruct item as [a|]; [|done].
  destruct (objects !! a) as [n|]; [|done].
  destruct (keyHash =? htKeyHash n); [done | apply IH].
Qed.

Lemma countAllMatching_loop_spec fuel objects keyHash item l foundCount :
  chain objects item l → (length l < fuel)%nat →
  0 <= foundCount → foundCount + Z.of_nat (length l) < 2 ^ 64 →
  countAllMatching_loop fuel objects keyHash item foundCount =
    Some (foundCount + Z.of_nat (length (matching objects keyHash l))).
Proof.
  revert item l foundCount. induction fuel as [|fuel IH]; intros item l c Hc Hf H0 Hr; [lia|].
  destruct l as [|a l]; cbn [chain] in Hc.
  - subst item. cbn. f_equal. lia.
  - destruct Hc as (-> & n & Hn & Hc). cbn [countAllMatching_loop]. rewrite Hn.
    unfold matching. rewrite filter_cons, (hash_at_Some _ _ _ Hn).
    cbn [length] in *.
    destruct (Z.eqb_spec keyHash (htKeyHash n)) as [->|Hne].
    + rewrite decide_True by done.
      assert (Hw : wrap_size (c + 1) = c + 1).
      { unfold wrap_size. apply Z.mod_small. lia. }
      rewrite Hw. fold (matching objects (htKeyHash n) l).
      rewrite (IH _ l) by (try done; lia). cbn [length]. f_equal. lia.
    + rewrite decide_False by congruence. fold (matching objects keyHash l).
      apply IH; try done; lia.
Qed.

(** A change in the bucket [i], which leaves the objects of the other
    chains as they are. *)
Lemma TWf_update objects t bs objects' t' i l l' tbl item' :
  TWf objects t bs → bs !! i = Some l → table t = Some tbl →
  table t' = Some (<[i:=item']> tbl) → bucketCount t' = bucketCount t →
  chain objects' item' l' →
  (∀ a, a ∈ concat bs → a ∉ l → objects' !! a = objects !! a) →
  (∀ a, a ∈ l' → ∃ n, objects' !! a = Some n ∧ htKeyHash n ≠ 0 ∧
                   htKeyHash n mod bucketCount t = Z.of_nat i) →
  usedBuckets t' + Z.of_nat (length l) = usedBuckets t + Z.of_nat (length l') →
  usedBuckets t' < 2 ^ 64 →
  TWf objects' t' (<[i:=l']> bs).
Proof.
  intros HW Hl Htbl Htbl' Hbc Hchain Hsame Hhash Hused Hrange.
  pose proof HW as [Hc Hp (tbl0 & Ht0 & HF) Hh Hu _].
  rewrite Htbl in Ht0. injection Ht0 as <-.
  split.
  - by rewrite length_insert, Hbc.
  - by rewrite Hbc.
  - exists (<[i:=item']> tbl). split; [done|].
    apply Forall2_same_length_lookup. split.
    { rewrite !length_insert. by eapply Forall2_length. }
    intros j item lj Hitem Hlj.
    destruct (decide (i = j)) as [<-|Hne].
    + rewrite list_lookup_insert_eq in Hlj by by eapply lookup_lt_Some.
      rewrite list_lookup_insert_eq in Hitem
        by (rewrite (Forall2_length _ _ _ HF); by eapply lookup_lt_Some).
      by injection Hitem as <-; injection Hlj as <-.
    + rewrite list_lookup_insert_ne in Hitem by done.
      rewrite list_lookup_insert_ne in Hlj by done.
      apply (chain_ext objects); [|by eapply Forall2_lookup_lr].
      intros a Ha. apply Hsame.
      * apply elem_of_concat_lookup. by exists j, lj.
      * intros Ha'. apply Hne. by eapply (TWf_disjoint objects t bs i j l lj a).
  - intros j lj a Hlj Ha. rewrite Hbc.
    destruct (decide (i = j)) as [<-|Hne].
    + rewrite list_lookup_insert_eq in Hlj by by eapply lookup_lt_Some.
      injection Hlj as <-. by apply Hhash.
    + rewrite list_lookup_insert_ne in Hlj by done.
      destruct (Hh j lj a Hlj Ha) as (n & Hn & H0 & Hmod).
      exists n. split_and!; try done. rewrite Hsame; [done | |].
      * apply elem_of_concat_lookup. by exists j, lj.
      * intros Ha'. apply Hne. by eapply (TWf_disjoint objects t bs i j l lj a).
  - pose proof (length_concat_insert bs i l l' Hl). lia.
  - done.
Qed.

Lemma elem_of_concat_insert {A} (bs : list (list A)) i l l' a :
  bs !! i = Some l →
  a ∈ concat (<[i:=l']> bs) ↔
    a ∈ l' ∨ ∃ j lj, j ≠ i ∧ bs !! j = Some lj ∧ a ∈ lj.
Proof.
  intros Hl. rewrite elem_of_concat_lookup. split.
  - intros (j & lj & Hlj & Ha). destruct (decide (i = j)) as [<-|Hne].
    + rewrite list_lookup_insert_eq in Hlj by by eapply lookup_lt_Some.
      injection Hlj as <-. by left.
    + rewrite list_lookup_insert_ne in Hlj by done. right. by exists j, lj.
  - intros [Ha | (j & lj & Hne & Hlj & Ha)].
    + exists i, l'. split; [|done]. apply list_lookup_insert_eq. by eapply lookup_lt_Some.
    + exists j, lj. split; [|done]. by rewrite list_lookup_insert_ne.
Qed.

Section table_properties.
Context {K : Type} (KeyHasher : K → Z).

Lemma hashOf_Some key : KeyHasher key ≠ 0 → hashOf KeyHasher key = Some (KeyHasher key).
Proof. intros Hh. unfold hashOf. by destruct (Z.eqb_spec (KeyHasher key) 0). Qed.

Lemma TWf_empty objects t bs i l :
  TWf objects t bs → isEmpty t = true → bs !! i = Some l → l = [].
Proof.
  intros HW He Hl. unfold isEmpty in He. apply Z.eqb_eq in He.
  pose proof (TWf_used _ _ _ HW) as Hu.
  pose proof (length_concat_lookup bs i l Hl).
  apply length_zero_iff_nil. lia.
Qed.

(** [find] on a well-formed table. *)
Lemma find_TWf fuel objects t bs key l :
  TWf objects t bs → KeyHasher key ≠ 0 →
  (Z.to_nat (usedBuckets t) < fuel)%nat →
  bs !! bucket_index t (KeyHasher key) = Some l →
  find KeyHasher fuel objects t key =
    Some (head (matching objects (KeyHasher key) l)).
Proof.
  intros HW Hh Hf Hl.
  destruct (TWf_bucket objects t bs (KeyHasher key) HW)
    as (l0 & item & Hb & Hl0 & Hhead & Hchain & Hlen).
  rewrite Hl in Hl0. injection Hl0 as <-.
  unfold find. destruct (isEmpty t) eqn:He.
  - by rewrite (TWf_empty objects t bs _ l HW He Hl).
  - rewrite (hashOf_Some key Hh), Hb, Hhead.
    rewrite (find_loop_spec fuel objects _ item l) by (try done; lia).
    f_equal. apply first_match_matching. intros a Ha. by eapply chain_lookup.
Qed.

(** [insert] on a well-formed table. *)
Lemma insert_TWf fuel objects t bs key v n l tbl :
  TWf objects t bs → objects !! v = Some n → htKeyHash n = 0 →
  KeyHasher key ≠ 0 → (Z.to_nat (usedBuckets t) < fuel)%nat →
  bs !! bucket_index t (KeyHasher key) = Some l → table t = Some tbl →
  insert KeyHasher fuel key (Some v) objects t =
    Some (if negb (allowDupKeys t) &&
             bool_decide (is_Some (head (matching objects (KeyHasher key) l)))
          then (false, objects, t)
          else (true,
                <[v:=mkHashTableNode (default None (tbl !! bucket_index t (KeyHasher key)))
                       (KeyHasher key)]> objects,
                mkIntrusiveHashTable
                  (Some (<[bucket_index t (KeyHasher key):=Some v]> tbl))
                  (bucketCount t) (wrap_size (usedBuckets t + 1)) (allowDupKeys t))).
Proof.
  intros HW Hv H0 Hh Hf Hl Htbl.
  destruct (TWf_bucket objects t bs (KeyHasher key) HW)
    as (l0 & item & Hb & Hl0 & Hhead & Hchain & Hlen).
  rewrite Hl in Hl0. injection Hl0 as <-.
  unfold insert. rewrite Hv. unfold isLinkedToHashTable. rewrite H0. cbn [Z.eqb negb].
  unfold allocate_default, allocate. rewrite (TWf_isAllocated _ _ _ HW).
  rewrite (hashOf_Some key Hh), Hb, Htbl, Hhead.
  assert (Hitem : tbl !! bucket_index t (KeyHasher key) = Some item).
  { unfold bucket_head in Hhead. by rewrite Htbl in Hhead. }
  rewrite Hitem. cbn [default].
  destruct item as [a|].
  - destruct (allowDupKeys t); cbn [negb andb]; [done|].
    rewrite insert_loop_find_loop.
    rewrite (find_loop_spec fuel objects _ (Some a) l) by (try done; lia).
    rewrite first_match_matching by (intros b Hb'; by eapply chain_lookup).
    cbn [fmap option_fmap option_map].
    by destruct (head (matching objects (KeyHasher key) l)).
  - destruct l as [|b l]; [|by destruct Hchain]. cbn. by rewrite andb_false_r.
Qed.

(** What a successful [insert] leaves. *)
Lemma TWf_insert objects t bs key v n l tbl :
  TWf objects t bs → objects !! v = Some n → htKeyHash n = 0 →
  KeyHasher key ≠ 0 → usedBuckets t + 1 < 2 ^ 64 →
  bs !! bucket_index t (KeyHasher key) = Some l → table t = Some tbl →
  TWf (<[v:=mkHashTableNode (default None (tbl !! bucket_index t (KeyHasher key)))
             (KeyHasher key)]> objects)
      (mkIntrusiveHashTable
         (Some (<[bucket_index t (KeyHasher key):=Some v]> tbl))
         (bucketCount t) (wrap_size (usedBuckets t + 1)) (allowDupKeys t))
      (<[bucket_index t (KeyHasher key):=v :: l]> bs).
Proof.
  intros HW Hv H0 Hh Hr Hl Htbl.
  destruct (TWf_bucket objects t bs (KeyHasher key) HW)
    as (l0 & item & Hb & Hl0 & Hhead & Hchain & Hlen).
  rewrite Hl in Hl0. injection Hl0 as <-.
  assert (Hitem : tbl !! bucket_index t (KeyHasher key) = Some item).
  { unfold bucket_head in Hhead. by rewrite Htbl in Hhead. }
  rewrite Hitem. cbn [default].
  pose proof (TWf_unlinked_notin _ _ _ _ _ HW Hv H0) as Hnotin.
  assert (Hvl : v ∉ l).
  { intros Hin. apply Hnotin. apply elem_of_concat_lookup. by eexists _, l. }
  pose proof (TWf_used _ _ _ HW) as Hu. pose proof (TWf_pos _ _ _ HW) as Hp.
  assert (Hw : wrap_size (usedBuckets t + 1) = usedBuckets t + 1).
  { unfold wrap_size. apply Z.mod_small. lia. }
  eapply (TWf_update objects t bs _ _ _ l (v :: l) tbl (Some v) HW Hl Htbl); cbn.
  - done.
  - done.
  - split; [done|]. eexists. split.
    + apply list_lookup_insert_eq. by eapply lookup_lt_Some.
    + cbn. by apply chain_update.
  - intros a Ha _. apply list_lookup_insert_ne. by intros ->.
  - intros a Ha. apply elem_of_cons in Ha as [->|Ha].
    + eexists. split; [apply list_lookup_insert_eq; by eapply lookup_lt_Some|].
      cbn. split; [done|]. unfold bucket_index.
      pose proof (Z.mod_pos_bound (KeyHasher key) (bucketCount t) Hp). lia.
    + destruct (TWf_hash _ _ _ HW _ l a Hl Ha) as (m & Hm & ? & Hmod).
      exists m. split_and!; try done.
      rewrite list_lookup_insert_ne; [done|]. by intros ->.
  - rewrite Hw. lia.
  - rewrite Hw. lia.
Qed.

End table_properties.


(** ** [remove] *)

Lemma hash_at_insert_ne objects a b x :
  a ≠ b → hash_at (<[a:=x]> objects) b = hash_at objects b.
Proof. intros Hne. unfold hash_at. by rewrite list_lookup_insert_ne. Qed.

Lemma matching_notin objects keyHash l a :
  a ∉ l → a ∉ matching objects keyHash l.
Proof. intros Ha Hin. apply list_elem_of_filter in Hin. tauto. Qed.

Lemma filter_ne_notin (l : list nat) a : a ∉ l → filter (λ b, b ≠ a) l = l.
Proof.
  induction l as [|b l IH]; intros Ha; [done|].
  rewrite filter_cons_True by (intros ->; apply Ha; left).
  f_equal. apply IH. intros Hin. apply Ha. by right.
Qed.

(** The loop of [remove] behind an object [p] that stays: it unlinks the
    first object behind [p] that holds the hash. *)
Lemma remove_loop_behind fuel keyHash bucket objects t p pn l :
  chain objects (Some p) (p :: l) → objects !! p = Some pn →
  (length l < fuel)%nat →
  ∃ r objects' t',
    remove_loop fuel keyHash bucket objects t (Some p) (htNext pn) =
      Some (r, objects', t') ∧
    r = head (matching objects keyHash l) ∧
    match r with
    | None => objects' = objects ∧ t' = t
    | Some a =>
        t' = decrement_used t ∧
        objects' !! a = Some unlinked ∧
        chain objects' (Some p) (p :: filter (λ b, b ≠ a) l) ∧
        (∀ b, b ∉ p :: l → objects' !! b = objects !! b) ∧
        (∀ b, b ≠ a → hash_at objects' b = hash_at objects b)
    end.
Proof.
  revert fuel p pn. induction l as [|a l IH]; intros fuel p pn Hc Hp Hf.
  - destruct Hc as (_ & pn' & Hp' & Hc). rewrite Hp in Hp'. injection Hp' as <-.
    cbn in Hc. rewrite Hc. destruct fuel as [|fuel]; [lia|].
    exists None, objects, t. by split_and!.
  - pose proof (chain_NoDup _ _ _ Hc) as Hnd.
    apply NoDup_cons in Hnd as [Hpl Hnd]. apply NoDup_cons in Hnd as [Hal Hnd].
    assert (Hpa : p ≠ a) by (intros ->; apply Hpl; left).
    assert (Hpl' : p ∉ l) by (intros Hin; apply Hpl; by right).
    destruct Hc as (_ & pn' & Hp' & Hc). rewrite Hp in Hp'. injection Hp' as <-.
    destruct Hc as (Hnext & n & Hn & Hc).
    destruct fuel as [|fuel]; [cbn in Hf; lia|].
    rewrite Hnext. cbn [remove_loop]. rewrite Hn.
    unfold matching. rewrite filter_cons, (hash_at_Some _ _ _ Hn).
    destruct (Z.eqb_spec keyHash (htKeyHash n)) as [->|Hne].
    + rewrite decide_True by done. rewrite Hp. cbn [head].
      eexists (Some a), _, _. split; [done|]. split; [done|].
      assert (Hlt : (a < length (<[p:=mkHashTableNode (htNext n) (htKeyHash pn)]> objects))%nat).
      { rewrite length_insert. by eapply lookup_lt_Some. }
      split_and!.
      * done.
      * by apply list_lookup_insert_eq.
      * rewrite filter_cons_False by (intros Hx; by apply Hx).
        rewrite (filter_ne_notin l a Hal).
        split; [done|]. eexists. split.
        { rewrite list_lookup_insert_ne by done.
          apply list_lookup_insert_eq. by eapply lookup_lt_Some. }
        cbn [htNext]. apply chain_update; [done|]. by apply chain_update.
      * intros b Hb. rewrite !list_lookup_insert_ne; [done | |].
        -- intros ->. apply Hb. left.
        -- intros ->. apply Hb. right. left.
      * intros b Hb. rewrite hash_at_insert_ne by done.
        destruct (decide (p = b)) as [<-|Hpb]; [|by apply hash_at_insert_ne].
        unfold hash_at. rewrite list_lookup_insert_eq by by eapply lookup_lt_Some.
        by rewrite Hp.
    + rewrite decide_False by congruence.
      destruct (IH fuel a n) as (r & objects' & t' & E & Hr & Hres).
      { split; [done|]. by exists n. }
      { done. }
      { cbn in Hf. lia. }
      exists r, objects', t'. split; [done|]. split; [done|].
      destruct r as [a'|]; [|done].
      destruct Hres as (Ht' & Ha' & Hchain' & Hsame & Hhash).
      assert (Ha'l : a' ∈ l).
      { symmetry in Hr. apply head_Some_elem_of in Hr.
        apply list_elem_of_filter in Hr. tauto. }
      split_and!; try done.
      * rewrite filter_cons_True by (intros ->; done).
        split; [done|]. exists pn. split.
        { rewrite Hsame; [done|]. intros Hin. apply elem_of_cons in Hin as [?|?]; done. }
        by rewrite Hnext.
      * intros b Hb. apply Hsame. intros Hin. apply Hb. by right.
Qed.

Section remove_properties.
Context {K : Type} (KeyHasher : K → Z).

(** [remove] on a well-formed table. *)
Lemma remove_TWf fuel objects t bs key l :
  TWf objects t bs → KeyHasher key ≠ 0 →
  (Z.to_nat (usedBuckets t) < fuel)%nat →
  bs !! bucket_index t (KeyHasher key) = Some l →
  ∃ r objects' t',
    remove KeyHasher fuel key objects t = Some (r, objects', t') ∧
    r = head (matching objects (KeyHasher key) l) ∧
    match r with
    | None => objects' = objects ∧ t' = t
    | Some a =>
        TWf objects' t' (<[bucket_index t (KeyHasher key):=filter (λ b, b ≠ a) l]> bs) ∧
        objects' !! a = Some unlinked ∧
        usedBuckets t' = usedBuckets t - 1 ∧
        bucketCount t' = bucketCount t ∧ allowDupKeys t' = allowDupKeys t ∧
        (∀ b, b ≠ a → hash_at objects' b = hash_at objects b)
    end.
Proof.
  intros HW Hh Hf Hl.
  destruct (TWf_bucket objects t bs (KeyHasher key) HW)
    as (l0 & item & Hbucket & Hl0 & Hhead & Hchain & Hlen).
  rewrite Hl in Hl0. injection Hl0 as <-.
  unfold remove. destruct (isEmpty t) eqn:He.
  { rewrite (TWf_empty objects t bs _ l HW He Hl). by exists None, objects, t. }
  rewrite (hashOf_Some KeyHasher key Hh), Hbucket, Hhead.
  pose proof HW as [Hc Hp (tbl & Htbl & HF) Hhash Hu Hrange].
  assert (Hitem : tbl !! bucket_index t (KeyHasher key) = Some item).
  { unfold bucket_head in Hhead. by rewrite Htbl in Hhead. }
  assert (Hused : 0 < usedBuckets t).
  { unfold isEmpty in He. apply Z.eqb_neq in He. lia. }
  assert (Hw : wrap_size (usedBuckets t - 1) = usedBuckets t - 1).
  { unfold wrap_size. apply Z.mod_small. lia. }
  (* what the reset of [a] leaves of the bucket *)
  assert (Hfin : ∀ a objects' item',
    a ∈ l →
    chain objects' item' (filter (λ b, b ≠ a) l) →
    (∀ b, b ∉ l → objects' !! b = objects !! b) →
    (∀ b, b ≠ a → hash_at objects' b = hash_at objects b) →
    TWf objects'
      (mkIntrusiveHashTable (Some (<[bucket_index t (KeyHasher key):=item']> tbl))
         (bucketCount t) (wrap_size (usedBuckets t - 1)) (allowDupKeys t))
      (<[bucket_index t (KeyHasher key):=filter (λ b, b ≠ a) l]> bs)).
  { intros a objects' item' Ha Hchain' Hsame Hhash'.
    eapply (TWf_update objects t bs _ _ _ l _ tbl item' HW Hl Htbl); cbn; try done.
    - intros b _ Hbl. by apply Hsame.
    - intros b Hb'. apply list_elem_of_filter in Hb' as [Hne Hb'].
      destruct (Hhash _ l b Hl Hb') as (m & Hm & H0 & Hmod).
      specialize (Hhash' b Hne). unfold hash_at in Hhash'. rewrite Hm in Hhash'.
      destruct (objects' !! b) as [m'|]; [|done]. cbn in Hhash'.
      exists m'. split; [done|]. injection Hhash' as ->. done.
    - rewrite Hw.
      assert (Hlenf : (length (filter (λ b, b ≠ a) l) + 1 = length l)%nat).
      { pose proof (chain_NoDup _ _ _ Hchain) as Hnd.
        apply list_elem_of_split in Ha as (l1 & l2 & ->).
        apply NoDup_app in Hnd as (_ & Hd & Hnd2). apply NoDup_cons in Hnd2 as [Hn2 _].
        rewrite filter_app, filter_cons_False by (intros Hx; by apply Hx).
        rewrite !filter_ne_notin; [rewrite !length_app; cbn; lia | done |].
        intros Hin. apply (Hd a Hin). left. }
      lia.
    - rewrite Hw. lia. }
  destruct l as [|a l].
  { cbn in Hchain. subst item. destruct fuel as [|fuel]; [lia|].
    exists None, objects, t. by split_and!. }
  pose proof Hchain as (-> & n & Hn & Hcl).
  pose proof (chain_NoDup _ _ _ Hchain) as Hnd.
  apply NoDup_cons in Hnd as [Hal Hnd].
  destruct fuel as [|fuel]; [lia|]. cbn [remove_loop]. rewrite Hn.
  unfold matching. rewrite filter_cons, (hash_at_Some _ _ _ Hn).
  destruct (Z.eqb_spec (KeyHasher key) (htKeyHash n)) as [Heq|Hne].
  - rewrite decide_True by congruence. cbn [head].
    assert (Hh' : bucket_head (decrement_used t) (KeyHasher key mod bucketCount t)
                  = Some (Some a)) by done.
    rewrite Hh'. rewrite bool_decide_eq_true_2 by done.
    assert (Hres : TWf (<[a:=unlinked]> objects)
              (set_bucket (KeyHasher key mod bucketCount t) (htNext n) (decrement_used t))
              (<[bucket_index t (KeyHasher key):=filter (λ b, b ≠ a) (a :: l)]> bs)).
    { unfold set_bucket, decrement_used. cbn. rewrite Htbl.
      apply Hfin; [left | | |].
      - rewrite filter_cons_False by (intros Hx; by apply Hx).
        rewrite (filter_ne_notin l a Hal). by apply chain_update.
      - intros b Hb. apply list_lookup_insert_ne. intros ->. apply Hb. left.
      - intros b Hb. by apply hash_at_insert_ne. }
    assert (Hres' : (<[a:=unlinked]> objects) !! a = Some unlinked).
    { apply list_lookup_insert_eq. by eapply lookup_lt_Some. }
    assert (Hhash' : ∀ b, b ≠ a →
              hash_at (<[a:=unlinked]> objects) b = hash_at objects b).
    { intros b Hb. by apply hash_at_insert_ne. }
    destruct (htNext n) as [next|];
      eexists (Some a), _, _; (split; [done|]); (split; [done|]);
      split_and!; try done; cbn; lia.
  - rewrite decide_False by congruence.
    destruct (remove_loop_behind fuel (KeyHasher key)
                (KeyHasher key mod bucketCount t) objects t a n l Hchain Hn)
      as (r & objects' & t' & E & Hr & Hres); [cbn in Hlen; lia|].
    exists r, objects', t'. split; [done|]. split; [done|].
    destruct r as [a'|]; [|done].
    destruct Hres as (-> & Ha' & Hchain' & Hsame & Hhash').
    assert (Ha'l : a' ∈ l).
    { symmetry in Hr. apply head_Some_elem_of in Hr.
      apply list_elem_of_filter in Hr. tauto. }
    assert (Hne' : a ≠ a') by (intros ->; done).
    split_and!; [|done | cbn; lia | done..].
    unfold decrement_used. rewrite Htbl.
    rewrite <- (list_insert_id tbl (bucket_index t (KeyHasher key)) (Some a)) at 1 by done.
    apply Hfin; [by right | | done..].
    by rewrite filter_cons_True by done.
Qed.

End remove_properties.


(** ** [removeAllMatching] *)

Lemma matching_ext objects objects' keyHash l :
  (∀ b, b ∈ l → hash_at objects' b = hash_at objects b) →
  matching objects' keyHash l = matching objects keyHash l ∧
  others objects' keyHash l = others objects keyHash l.
Proof.
  induction l as [|a l IH]; intros Heq; [done|].
  destruct IH as [IH1 IH2]; [intros b Hb; apply Heq; by right|].
  unfold matching, others in *. rewrite !filter_cons, Heq by left.
  rewrite IH1, IH2. done.
Qed.

Lemma matching_others_length objects keyHash l :
  (length (matching objects keyHash l) + length (others objects keyHash l) = length l)%nat.
Proof.
  induction l as [|a l IH]; [done|].
  unfold matching, others in *. rewrite !filter_cons.
  destruct (decide (hash_at objects a = Some keyHash)).
  - rewrite decide_False by tauto. cbn [length]. lia.
  - rewrite decide_True by done. cbn [length]. lia.
Qed.

Lemma table_eta t :
  mkIntrusiveHashTable (table t) (bucketCount t) (usedBuckets t) (allowDupKeys t) = t.
Proof. by destruct t. Qed.

(** The loop of [removeAllMatching] behind an object [p] that stays. *)
Lemma removeAllMatching_loop_behind keyHash bucket l :
  ∀ fuel objects t p pn removedCount,
  chain objects (Some p) (p :: l) → objects !! p = Some pn →
  (length l < fuel)%nat →
  Z.of_nat (length l) <= usedBuckets t < 2 ^ 64 →
  0 <= removedCount → removedCount + Z.of_nat (length l) < 2 ^ 64 →
  ∃ objects',
    removeAllMatching_loop fuel keyHash bucket objects t (Some p) (htNext pn)
      removedCount =
      Some (removedCount + Z.of_nat (length (matching objects keyHash l)), objects',
            mkIntrusiveHashTable (table t) (bucketCount t)
              (usedBuckets t - Z.of_nat (length (matching objects keyHash l)))
              (allowDupKeys t)) ∧
    chain objects' (Some p) (p :: others objects keyHash l) ∧
    (∀ b, b ∈ matching objects keyHash l → objects' !! b = Some unlinked) ∧
    (∀ b, b ∉ p :: l → objects' !! b = objects !! b) ∧
    (∀ b, b ∉ matching objects keyHash l → hash_at objects' b = hash_at objects b).
Proof.
  induction l as [|a l IH]; intros fuel objects t p pn c Hc Hp Hf Hu Hc0 Hcr.
  - destruct Hc as (_ & pn' & Hp' & Hc). rewrite Hp in Hp'. injection Hp' as <-.
    cbn in Hc. rewrite Hc. destruct fuel as [|fuel]; [lia|].
    exists objects. cbn [removeAllMatching_loop matching others filter list_filter length].
    split_and!; try done.
    + rewrite Z.add_0_r, Z.sub_0_r, table_eta. done.
    + split; [done|]. by exists pn.
    + intros b Hb. by apply elem_of_nil in Hb.
  - pose proof (chain_NoDup _ _ _ Hc) as Hnd.
    apply NoDup_cons in Hnd as [Hpl Hnd]. apply NoDup_cons in Hnd as [Hal Hnd].
    assert (Hpa : p ≠ a) by (intros ->; apply Hpl; left).
    assert (Hpl' : p ∉ l) by (intros Hin; apply Hpl; by right).
    destruct Hc as (_ & pn' & Hp' & Hc). rewrite Hp in Hp'. injection Hp' as <-.
    destruct Hc as (Hnext & n & Hn & Hc).
    destruct fuel as [|fuel]; [cbn in Hf; lia|].
    rewrite Hnext. cbn [removeAllMatching_loop]. rewrite Hn.
    cbn [length] in *.
    unfold matching, others. rewrite !filter_cons, (hash_at_Some _ _ _ Hn).
    fold (matching objects keyHash l). fold (others objects keyHash l).
    destruct (Z.eqb_spec keyHash (htKeyHash n)) as [->|Hne].
    + rewrite decide_True by done. rewrite decide_False by tauto. rewrite Hp.
      set (objects1 := <[a:=unlinked]>
                         (<[p:=mkHashTableNode (htNext n) (htKeyHash pn)]> objects)).
      assert (Hp1 : objects1 !! p = Some (mkHashTableNode (htNext n) (htKeyHash pn))).
      { unfold objects1. rewrite list_lookup_insert_ne by done.
        apply list_lookup_insert_eq. by eapply lookup_lt_Some. }
      assert (Ha1 : objects1 !! a = Some unlinked).
      { unfold objects1. apply list_lookup_insert_eq. rewrite length_insert.
        by eapply lookup_lt_Some. }
      assert (Hhash1 : ∀ b, b ≠ a → hash_at objects1 b = hash_at objects b).
      { intros b Hb. unfold objects1. rewrite hash_at_insert_ne by done.
        destruct (decide (p = b)) as [<-|Hpb]; [|by apply hash_at_insert_ne].
        unfold hash_at. rewrite list_lookup_insert_eq by by eapply lookup_lt_Some.
        by rewrite Hp. }
      assert (Hsame1 : ∀ b, b ≠ a → b ≠ p → objects1 !! b = objects !! b).
      { intros b Hba Hbp. unfold objects1. by rewrite !list_lookup_insert_ne. }
      assert (Hw1 : wrap_size (usedBuckets t - 1) = usedBuckets t - 1).
      { unfold wrap_size. apply Z.mod_small. lia. }
      assert (Hw2 : wrap_size (c + 1) = c + 1).
      { unfold wrap_size. apply Z.mod_small. lia. }
      destruct (matching_ext objects objects1 (htKeyHash n) l) as [Hm Ho].
      { intros b Hb. apply Hhash1. by intros ->. }
      destruct (IH fuel objects1 (decrement_used t) p
                  (mkHashTableNode (htNext n) (htKeyHash pn)) (wrap_size (c + 1)))
        as (objects' & E & Hchain' & Hreset & Hsame & Hhash).
      { split; [done|]. eexists. split; [exact Hp1|]. cbn [htNext].
        unfold objects1. apply chain_update; [done|]. by apply chain_update. }
      { done. }
      { lia. }
      { cbn. rewrite Hw1. lia. }
      { lia. }
      { lia. }
      cbn [htNext] in E. rewrite Hm, Ho in *.
      exists objects'. split_and!.
      * fold objects1. rewrite E. cbn [decrement_used table bucketCount usedBuckets allowDupKeys length].
        by rewrite Hw1, Hw2, Nat2Z.inj_succ, <- Z.add_1_l, Z.add_assoc, Z.sub_add_distr.
      * done.
      * intros b Hb. apply elem_of_cons in Hb as [->|Hb]; [|by apply Hreset].
        rewrite Hsame; [done|]. intros Hin. apply elem_of_cons in Hin as [?|?]; done.
      * intros b Hb. rewrite Hsame.
        -- apply Hsame1; intros ->; apply Hb; [right; left | left].
        -- intros Hin. apply Hb. apply elem_of_cons in Hin as [->|Hin]; [left | by do 2 right].
      * intros b Hb. rewrite Hhash.
        -- apply Hhash1. intros ->. apply Hb. left.
        -- intros Hin. apply Hb. by right.
    + rewrite decide_False by congruence. rewrite decide_True by congruence.
      destruct (IH fuel objects t a n c) as (objects' & E & Hchain' & Hreset & Hsame & Hhash).
      { split; [done|]. by exists n. }
      { done. }
      { lia. }
      { lia. }
      { lia. }
      { lia. }
      exists objects'. split_and!; try done.
      * split; [done|]. exists pn. split; [|by rewrite Hnext].
        rewrite Hsame; [done|]. intros Hin. apply elem_of_cons in Hin as [?|?]; done.
      * intros b Hb. apply Hsame. intros Hin. apply Hb. by right.
Qed.

(** The loop of [removeAllMatching] from the head of the bucket. *)
Lemma removeAllMatching_loop_head keyHash bucket l :
  ∀ fuel objects t item tbl removedCount,
  chain objects item l → table t = Some tbl →
  tbl !! Z.to_nat bucket = Some item →
  (length l < fuel)%nat →
  Z.of_nat (length l) <= usedBuckets t < 2 ^ 64 →
  0 <= removedCount → removedCount + Z.of_nat (length l) < 2 ^ 64 →
  ∃ objects' item',
    removeAllMatching_loop fuel keyHash bucket objects t None item removedCount =
      Some (removedCount + Z.of_nat (length (matching objects keyHash l)), objects',
            mkIntrusiveHashTable (Some (<[Z.to_nat bucket:=item']> tbl)) (bucketCount t)
              (usedBuckets t - Z.of_nat (length (matching objects keyHash l)))
              (allowDupKeys t)) ∧
    chain objects' item' (others objects keyHash l) ∧
    (∀ b, b ∈ matching objects keyHash l → objects' !! b = Some unlinked) ∧
    (∀ b, b ∉ l → objects' !! b = objects !! b) ∧
    (∀ b, b ∉ matching objects keyHash l → hash_at objects' b = hash_at objects b).
Proof.
  induction l as [|a l IH]; intros fuel objects t item tbl c Hc Htbl Hitem Hf Hu Hc0 Hcr.
  - cbn in Hc. subst item. destruct fuel as [|fuel]; [lia|].
    exists objects, None.
    cbn [removeAllMatching_loop matching others filter list_filter length].
    split_and!; try done.
    + rewrite Z.add_0_r, Z.sub_0_r, (list_insert_id _ _ _ Hitem), <- Htbl, table_eta. done.
    + intros b Hb. by apply elem_of_nil in Hb.
  - pose proof (chain_NoDup _ _ _ Hc) as Hnd. apply NoDup_cons in Hnd as [Hal Hnd].
    pose proof Hc as (-> & n & Hn & Hcl).
    destruct fuel as [|fuel]; [cbn in Hf; lia|].
    cbn [removeAllMatching_loop]. rewrite Hn. cbn [length] in *.
    unfold matching, others. rewrite !filter_cons, (hash_at_Some _ _ _ Hn).
    fold (matching objects keyHash l). fold (others objects keyHash l).
    assert (Hw1 : wrap_size (usedBuckets t - 1) = usedBuckets t - 1).
    { unfold wrap_size. apply Z.mod_small. lia. }
    assert (Hw2 : wrap_size (c + 1) = c + 1).
    { unfold wrap_size. apply Z.mod_small. lia. }
    destruct (Z.eqb_spec keyHash (htKeyHash n)) as [->|Hne].
    + rewrite decide_True by done. rewrite decide_False by tauto.
      assert (Hh' : bucket_head (decrement_used t) bucket = Some (Some a)).
      { unfold bucket_head, decrement_used. cbn. by rewrite Htbl. }
      rewrite Hh', bool_decide_eq_true_2 by done.
      set (objects1 := <[a:=unlinked]> objects).
      assert (Ha1 : objects1 !! a = Some unlinked).
      { apply list_lookup_insert_eq. by eapply lookup_lt_Some. }
      assert (Hhash1 : ∀ b, b ≠ a → hash_at objects1 b = hash_at objects b).
      { intros b Hb. by apply hash_at_insert_ne. }
      assert (Hsame1 : ∀ b, b ≠ a → objects1 !! b = objects !! b).
      { intros b Hb. by apply list_lookup_insert_ne. }
      destruct (htNext n) as [next|] eqn:Hnext.
      * destruct (matching_ext objects objects1 (htKeyHash n) l) as [Hm Ho].
        { intros b Hb. apply Hhash1. by intros ->. }
        destruct (IH fuel objects1
                    (set_bucket bucket (Some next) (decrement_used t)) (Some next)
                    (<[Z.to_nat bucket:=Some next]> tbl) (wrap_size (c + 1)))
          as (objects' & item' & E & Hchain' & Hreset & Hsame & Hhash).
        { by apply chain_update. }
        { unfold set_bucket, decrement_used. cbn. by rewrite Htbl. }
        { apply list_lookup_insert_eq. by eapply lookup_lt_Some. }
        { lia. }
        { cbn. rewrite Hw1. lia. }
        { lia. }
        { lia. }
        rewrite Hm, Ho in *.
        exists objects', item'. split_and!.
        -- rewrite E. cbn [set_bucket decrement_used table bucketCount usedBuckets
                            allowDupKeys length].
           by rewrite Hw1, Hw2, list_insert_insert_eq, Nat2Z.inj_succ, <- Z.add_1_l,
             Z.add_assoc, Z.sub_add_distr.
        -- done.
        -- intros b Hb. apply elem_of_cons in Hb as [->|Hb]; [|by apply Hreset].
           by rewrite Hsame.
        -- intros b Hb. rewrite Hsame.
           ++ apply Hsame1. intros ->. apply Hb. left.
           ++ intros Hin. apply Hb. by right.
        -- intros b Hb. rewrite Hhash.
           ++ apply Hhash1. intros ->. apply Hb. left.
           ++ intros Hin. apply Hb. by right.
      * destruct l as [|b l]; [|by destruct Hcl].
        exists objects1, None.
        cbn [matching others filter list_filter length].
        split_and!.
        -- unfold set_bucket, decrement_used.
           cbn [table bucketCount usedBuckets allowDupKeys].
           by rewrite Htbl, Hw1, Hw2.
        -- done.
        -- intros b Hb. by apply list_elem_of_singleton in Hb as ->.
        -- intros b Hb. apply Hsame1. intros ->. apply Hb. left.
        -- intros b Hb. apply Hhash1. intros ->. apply Hb. left.
    + rewrite decide_False by congruence. rewrite decide_True by congruence.
      destruct (removeAllMatching_loop_behind keyHash bucket l fuel objects t a n c)
        as (objects' & E & Hchain' & Hreset & Hsame & Hhash); try done; try lia.
      exists objects', (Some a). split_and!; try done.
      rewrite E, Htbl, (list_insert_id _ _ _ Hitem). done.
Qed.


Lemma findAllMatching_loop_spec keyHash maxItems l :
  ∀ fuel objects item items foundCount,
  chain objects item l → (length l < fuel)%nat →
  0 <= foundCount < maxItems → maxItems <= Z.of_nat (length items) →
  maxItems < 2 ^ 64 →
  findAllMatching_loop fuel objects keyHash maxItems item items foundCount =
    Some (foundCount +
            Z.of_nat (length (matching objects keyHash l) `min`
                      Z.to_nat (maxItems - foundCount)),
          list_inserts (Z.to_nat foundCount)
            (Some <$> take (Z.to_nat (maxItems - foundCount))
                        (matching objects keyHash l)) items).
Proof.
  induction l as [|a l IH]; intros fuel objects item items c Hc Hf Hc0 Hlen Hmax.
  - cbn in Hc. subst item. destruct fuel as [|fuel]; [lia|].
    cbn. rewrite take_nil. cbn. by rewrite Z.add_0_r.
  - destruct Hc as (-> & n & Hn & Hc).
    destruct fuel as [|fuel]; [cbn in Hf; lia|].
    cbn [findAllMatching_loop]. rewrite Hn. cbn [length] in Hf.
    unfold matching. rewrite filter_cons, (hash_at_Some _ _ _ Hn).
    fold (matching objects keyHash l).
    destruct (Z.eqb_spec keyHash (htKeyHash n)) as [->|Hne].
    + rewrite decide_True by done.
      destruct (lookup_lt_is_Some_2 items (Z.to_nat c)) as [x Hx]; [lia|].
      rewrite Hx.
      assert (Hw : wrap_size (c + 1) = c + 1).
      { unfold wrap_size. apply Z.mod_small. lia. }
      rewrite Hw.
      assert (Hk : Z.to_nat (maxItems - c) = S (Z.to_nat (maxItems - (c + 1)))) by lia.
      rewrite Hk. cbn [take fmap list_fmap list_inserts length].
      rewrite <- Nat.succ_min_distr, Nat2Z.inj_succ.
      destruct (Z.eqb_spec (c + 1) maxItems) as [Heq|Hneq].
      * replace (Z.to_nat (maxItems - (c + 1))) with 0%nat by lia.
        rewrite Nat.min_0_r, take_0. cbn. f_equal; try f_equal; lia.
      * rewrite (IH fuel objects (htNext n) _ (c + 1)); try done; try lia;
          [|rewrite length_insert; lia].
        f_equal. f_equal; [lia|].
        replace (Z.to_nat (c + 1)) with (S (Z.to_nat c)) by lia.
        symmetry. apply list_insert_inserts_lt. lia.
    + rewrite decide_False by congruence.
      destruct (Z.eqb_spec c maxItems) as [Heq|_]; [lia|].
      apply IH; try done; lia.
Qed.

Section matching_properties.
Context {K : Type} (KeyHasher : K → Z).

(** [countAllMatching] on a well-formed table. *)
Lemma countAllMatching_TWf fuel objects t bs key l :
  TWf objects t bs → KeyHasher key ≠ 0 →
  (Z.to_nat (usedBuckets t) < fuel)%nat →
  bs !! bucket_index t (KeyHasher key) = Some l →
  countAllMatching KeyHasher fuel objects t key =
    Some (Z.of_nat (length (matching objects (KeyHasher key) l))).
Proof.
  intros HW Hh Hf Hl.
  destruct (TWf_bucket objects t bs (KeyHasher key) HW)
    as (l0 & item & Hbucket & Hl0 & Hhead & Hchain & Hlen).
  rewrite Hl in Hl0. injection Hl0 as <-.
  unfold countAllMatching. destruct (isEmpty t) eqn:He.
  { by rewrite (TWf_empty objects t bs _ l HW He Hl). }
  rewrite (hashOf_Some KeyHasher key Hh), Hbucket, Hhead.
  pose proof (TWf_range _ _ _ HW). pose proof (TWf_used _ _ _ HW).
  rewrite (countAllMatching_loop_spec fuel objects _ item l) by (try done; lia).
  done.
Qed.

(** [findAllMatching] on a well-formed table. *)
Lemma findAllMatching_TWf fuel objects t bs key l items maxItems :
  TWf objects t bs → KeyHasher key ≠ 0 →
  (Z.to_nat (usedBuckets t) < fuel)%nat →
  bs !! bucket_index t (KeyHasher key) = Some l →
  0 < maxItems <= Z.of_nat (length items) → maxItems < 2 ^ 64 →
  findAllMatching KeyHasher fuel objects t key (Some items) maxItems =
    Some (Z.of_nat (length (matching objects (KeyHasher key) l) `min` Z.to_nat maxItems),
          (Some <$> take (Z.to_nat maxItems) (matching objects (KeyHasher key) l)) ++
          drop (length (matching objects (KeyHasher key) l) `min` Z.to_nat maxItems) items).
Proof.
  intros HW Hh Hf Hl Hmax Hmax'.
  destruct (TWf_bucket objects t bs (KeyHasher key) HW)
    as (l0 & item & Hbucket & Hl0 & Hhead & Hchain & Hlen).
  rewrite Hl in Hl0. injection Hl0 as <-.
  unfold findAllMatching.
  destruct (Z.eqb_spec maxItems 0) as [?|_]; [lia|].
  destruct (isEmpty t) eqn:He.
  { rewrite (TWf_empty objects t bs _ l HW He Hl). cbn. by rewrite take_nil. }
  rewrite (hashOf_Some KeyHasher key Hh), Hbucket, Hhead.
  rewrite (findAllMatching_loop_spec _ _ l) by (try done; lia).
  rewrite Z.sub_0_r, Z.add_0_l. f_equal. f_equal.
  set (ms := matching objects (KeyHasher key) l).
  rewrite <- (take_drop (length ms `min` Z.to_nat maxItems) items) at 1.
  apply list_inserts_0_r.
  rewrite length_fmap, !length_take. lia.
Qed.

(** [removeAllMatching] on a well-formed table. *)
Lemma removeAllMatching_TWf fuel objects t bs key l :
  TWf objects t bs → KeyHasher key ≠ 0 →
  (Z.to_nat (usedBuckets t) < fuel)%nat →
  bs !! bucket_index t (KeyHasher key) = Some l →
  ∃ objects' t',
    removeAllMatching KeyHasher fuel key objects t =
      Some (Z.of_nat (length (matching objects (KeyHasher key) l)), objects', t') ∧
    TWf objects' t'
      (<[bucket_index t (KeyHasher key):=others objects (KeyHasher key) l]> bs) ∧
    (∀ b, b ∈ matching objects (KeyHasher key) l → objects' !! b = Some unlinked) ∧
    (∀ b, b ∉ matching objects (KeyHasher key) l →
          hash_at objects' b = hash_at objects b) ∧
    usedBuckets t' =
      usedBuckets t - Z.of_nat (length (matching objects (KeyHasher key) l)) ∧
    bucketCount t' = bucketCount t ∧ allowDupKeys t' = allowDupKeys t.
Proof.
  intros HW Hh Hf Hl.
  destruct (TWf_bucket objects t bs (KeyHasher key) HW)
    as (l0 & item & Hbucket & Hl0 & Hhead & Hchain & Hlen).
  rewrite Hl in Hl0. injection Hl0 as <-.
  unfold removeAllMatching. destruct (isEmpty t) eqn:He.
  { pose proof (TWf_empty objects t bs _ l HW He Hl) as ->.
    exists objects, t. unfold matching, others. rewrite !filter_nil.
    cbn [length]. rewrite Z.sub_0_r, (list_insert_id _ _ _ Hl).
    split_and!; try done. intros b Hb. by apply elem_of_nil in Hb. }
  rewrite (hashOf_Some KeyHasher key Hh), Hbucket, Hhead.
  pose proof HW as [Hc Hp (tbl & Htbl & HF) Hhash Hu Hrange].
  assert (Hitem : tbl !! bucket_index t (KeyHasher key) = Some item).
  { unfold bucket_head in Hhead. by rewrite Htbl in Hhead. }
  destruct (removeAllMatching_loop_head (KeyHasher key)
              (KeyHasher key mod bucketCount t) l fuel objects t item tbl 0)
    as (objects' & item' & E & Hchain' & Hreset & Hsame & Hhash'); try done; try lia.
  rewrite Z.add_0_l in E. fold (bucket_index t (KeyHasher key)) in E.
  eexists objects', _. split; [exact E|].
  pose proof (matching_others_length objects (KeyHasher key) l) as Hmo.
  split_and!; try done.
  eapply (TWf_update objects t bs _ _ _ l _ tbl item' HW Hl Htbl); cbn; try done.
  - intros b _ Hbl. by apply Hsame.
  - intros b Hb'. apply list_elem_of_filter in Hb' as [Hnm Hb'].
    destruct (Hhash _ l b Hl Hb') as (m & Hm & H0 & Hmod).
    assert (Hb'' : b ∉ matching objects (KeyHasher key) l).
    { intros Hin. apply list_elem_of_filter in Hin. tauto. }
    specialize (Hhash' b Hb''). unfold hash_at in Hhash'. rewrite Hm in Hhash'.
    destruct (objects' !! b) as [m'|]; [|done]. cbn in Hhash'.
    exists m'. split; [done|]. injection Hhash' as ->. done.
  - lia.
  - lia.
Qed.

End matching_properties.


(** ** [clear], [deallocate] and [allocate] *)

Lemma clear_chain_spec l :
  ∀ fuel objects item,
  chain objects item l → (length l < fuel)%nat →
  ∃ objects', clear_chain fuel objects item = Some objects' ∧
    (∀ b, b ∈ l → objects' !! b = Some unlinked) ∧
    (∀ b, b ∉ l → objects' !! b = objects !! b).
Proof.
  induction l as [|a l IH]; intros fuel objects item Hc Hf.
  - cbn in Hc. subst item. destruct fuel as [|fuel]; [lia|].
    exists objects. split_and!; try done. intros b Hb. by apply elem_of_nil in Hb.
  - pose proof (chain_NoDup _ _ _ Hc) as Hnd. apply NoDup_cons in Hnd as [Hal Hnd].
    destruct Hc as (-> & n & Hn & Hc).
    destruct fuel as [|fuel]; [cbn in Hf; lia|].
    cbn [clear_chain]. rewrite Hn.
    destruct (IH fuel (<[a:=unlinked]> objects) (htNext n))
      as (objects' & E & Hreset & Hsame); [by apply chain_update | cbn in Hf; lia |].
    exists objects'. split_and!; [done | |].
    + intros b Hb. apply elem_of_cons in Hb as [->|Hb]; [|by apply Hreset].
      rewrite Hsame by done. apply list_lookup_insert_eq. by eapply lookup_lt_Some.
    + intros b Hb. rewrite Hsame.
      * apply list_lookup_insert_ne. intros ->. apply Hb. left.
      * intros Hin. apply Hb. by right.
Qed.

Lemma clear_loop_spec fuel t rest :
  ∀ k objects,
  (∀ j l, rest !! j = Some l →
     ∃ item, bucket_head t (Z.of_nat (k + j)) = Some item ∧
       chain objects item l ∧ (length l < fuel)%nat) →
  (∀ j j' l l' a, rest !! j = Some l → rest !! j' = Some l' →
     a ∈ l → a ∈ l' → j = j') →
  ∃ objects', clear_loop fuel t (length rest) (Z.of_nat k) objects = Some objects' ∧
    (∀ b, b ∈ concat rest → objects' !! b = Some unlinked) ∧
    (∀ b, b ∉ concat rest → objects' !! b = objects !! b).
Proof.
  induction rest as [|l rest IH]; intros k objects Hrest Hdisj.
  - exists objects. split_and!; try done. intros b Hb. by apply elem_of_nil in Hb.
  - destruct (Hrest 0%nat l) as (item & Hhead & Hchain & Hlen); [done|].
    rewrite Nat.add_0_r in Hhead.
    cbn [length clear_loop]. rewrite Hhead.
    destruct (clear_chain_spec l fuel objects item Hchain Hlen)
      as (objects1 & E1 & Hreset1 & Hsame1).
    rewrite E1.
    replace (Z.of_nat k + 1) with (Z.of_nat (S k)) by lia.
    destruct (IH (S k) objects1) as (objects' & E & Hreset & Hsame).
    { intros j l' Hl'. destruct (Hrest (S j) l' Hl') as (item' & Hhead' & Hchain' & Hlen').
      exists item'. split_and!; [|  |done].
      - by replace (S k + j)%nat with (k + S j)%nat by lia.
      - apply (chain_ext objects); [|done]. intros a Ha. apply Hsame1.
        intros Hal. by specialize (Hdisj 0%nat (S j) l l' a eq_refl Hl' Hal Ha). }
    { intros j j' l1 l2 a H1 H2 Ha1 Ha2.
      specialize (Hdisj (S j) (S j') l1 l2 a H1 H2 Ha1 Ha2). lia. }
    exists objects'. split; [done|]. cbn [concat]. split.
    + intros b Hb. destruct (decide (b ∈ concat rest)) as [Hin|Hnotin].
      * by apply Hreset.
      * rewrite Hsame by done. apply Hreset1.
        apply elem_of_app in Hb as [?|?]; done.
    + intros b Hb. rewrite Hsame, Hsame1; [done | |];
        intros Hin; apply Hb; apply elem_of_app; tauto.
Qed.

Lemma clear_TWf fuel objects t bs :
  TWf objects t bs → (Z.to_nat (usedBuckets t) < fuel)%nat →
  ∃ objects',
    clear fuel objects t =
      Some (objects',
            mkIntrusiveHashTable (table t) (bucketCount t) 0 (allowDupKeys t)) ∧
    (∀ b, b ∈ concat bs → objects' !! b = Some unlinked) ∧
    (∀ b, b ∉ concat bs → objects' !! b = objects !! b).
Proof.
  intros HW Hf. pose proof HW as [Hc Hp (tbl & Htbl & HF) Hhash Hu Hrange].
  unfold clear. destruct (isEmpty t) eqn:He.
  - unfold isEmpty in He. apply Z.eqb_eq in He.
    exists objects. split_and!; try done.
    + by rewrite <- He, table_eta.
    + intros b Hb. assert (Hnil : concat bs = []) by (apply length_zero_iff_nil; lia).
      rewrite Hnil in Hb. by apply elem_of_nil in Hb.
  - replace (Z.to_nat (bucketCount t)) with (length bs) by lia.
    destruct (clear_loop_spec fuel t bs 0 objects) as (objects' & E & Hreset & Hsame).
    + intros j l Hl. destruct (Forall2_lookup_r _ _ _ _ _ HF Hl) as (item & Hitem & Hchain).
      exists item. split_and!; [|done|].
      * unfold bucket_head. rewrite Htbl. cbn. by rewrite Nat2Z.id.
      * pose proof (length_concat_lookup bs j l Hl). lia.
    + intros j j' l l' a. apply (TWf_disjoint objects t bs j j' l l' a HW).
    + exists objects'. change (Z.of_nat 0) with 0 in E. by rewrite E.
Qed.

Lemma deallocate_TWf fuel objects t bs :
  TWf objects t bs → (Z.to_nat (usedBuckets t) < fuel)%nat →
  ∃ objects',
    deallocate fuel objects t =
      Some (objects', IntrusiveHashTable_new (allowDupKeys t)) ∧
    (∀ b, b ∈ concat bs → objects' !! b = Some unlinked) ∧
    (∀ b, b ∉ concat bs → objects' !! b = objects !! b).
Proof.
  intros HW Hf. destruct (clear_TWf fuel objects t bs HW Hf) as (objects' & E & Hreset & Hsame).
  exists objects'. split_and!; try done.
  unfold deallocate. by rewrite (TWf_isAllocated _ _ _ HW), E.
Qed.

(** The table that [allocate] leaves is well formed, with empty chains. *)
Lemma TWf_allocated objects (n : nat) (dup : bool) :
  (0 < n)%nat → Z.of_nat n < 2 ^ 64 →
  TWf objects
    (mkIntrusiveHashTable (Some (replicate n None)) (Z.of_nat n) 0 dup)
    (replicate n []).
Proof.
  intros Hn Hr.
  assert (Hnil : ∀ m, concat (replicate m (@nil nat)) = []).
  { intros m. induction m as [|m IH]; [done | by cbn]. }
  split; cbn.
  - by rewrite length_replicate.
  - lia.
  - eexists. split; [done|]. by apply Forall2_replicate.
  - intros i l a Hl Ha. apply lookup_replicate in Hl as [-> _]. by apply elem_of_nil in Ha.
  - by rewrite Hnil.
  - lia.
Qed.


(** ** Properties of the table *)

Lemma elem_of_concat_bucket {A} (bs : list (list A)) i l a :
  bs !! i = Some l →
  a ∈ concat bs ↔ a ∈ l ∨ ∃ j lj, j ≠ i ∧ bs !! j = Some lj ∧ a ∈ lj.
Proof.
  intros Hl. rewrite <- (elem_of_concat_insert bs i l l a Hl).
  by rewrite (list_insert_id _ _ _ Hl).
Qed.

Lemma matching_elem_of objects t bs keyHash l a :
  TWf objects t bs → bs !! bucket_index t keyHash = Some l →
  a ∈ matching objects keyHash l ↔
    a ∈ concat bs ∧ hash_at objects a = Some keyHash.
Proof.
  intros HW Hl. unfold matching. rewrite list_elem_of_filter. split.
  - intros [Hh Ha]. split; [|done]. apply elem_of_concat_lookup.
    by exists (bucket_index t keyHash), l.
  - intros [Ha Hh]. split; [done|].
    apply elem_of_concat_lookup in Ha as (j & lj & Hlj & Ha).
    destruct (TWf_hash _ _ _ HW j lj a Hlj Ha) as (n & Hn & _ & Hmod).
    unfold hash_at in Hh. rewrite Hn in Hh. injection Hh as Hh.
    assert (j = bucket_index t keyHash) as ->.
    { unfold bucket_index. by rewrite <- Hh, Hmod, Nat2Z.id. }
    rewrite Hl in Hlj. by injection Hlj as <-.
Qed.

Section table_theorems.
Context {K : Type} (KeyHasher : K → Z).

(** X10.  An [insert] that the table accepts (duplicates are allowed, or
    [find] does not see the key) links the object at the head of its
    chain: the table stays well formed with one more object, the size
    grows by one, [find] returns the new object, [countAllMatching]
    counts one more, and no other object is written. *)
Theorem table_insert_then_find
    (fuel : nat) (objects : list HashTableNode) (t : IntrusiveHashTable)
    (bs : list (list nat)) (key : K) (v : nat) (n : HashTableNode) :
  TWf objects t bs → objects !! v = Some n → isLinkedToHashTable n = false →
  KeyHasher key ≠ 0 → getSize t + 1 < 2 ^ 64 →
  (Z.to_nat (getSize t) + 1 < fuel)%nat →
  isAllowingDuplicateKeys t = true ∨ find KeyHasher fuel objects t key = Some None →
  ∃ objects' t' bs',
    insert KeyHasher fuel key (Some v) objects t = Some (true, objects', t') ∧
    TWf objects' t' bs' ∧ (∀ a, a ∈ concat bs' ↔ a = v ∨ a ∈ concat bs) ∧
    getSize t' = getSize t + 1 ∧
    find KeyHasher fuel objects' t' key = Some (Some v) ∧
    (∃ c, countAllMatching KeyHasher fuel objects t key = Some c ∧
          countAllMatching KeyHasher fuel objects' t' key = Some (c + 1)) ∧
    (∀ a, a ≠ v → objects' !! a = objects !! a).
Proof.
  unfold getSize, isAllowingDuplicateKeys.
  intros HW Hv Hlinked Hh Hr Hf Hdup.
  assert (H0 : htKeyHash n = 0).
  { unfold isLinkedToHashTable in Hlinked. apply negb_false_iff, Z.eqb_eq in Hlinked. done. }
  destruct (TWf_bucket objects t bs (KeyHasher key) HW) as (l & item & _ & Hl & _).
  pose proof (TWf_table _ _ _ HW) as (tbl & Htbl & _).
  set (i := bucket_index t (KeyHasher key)) in *.
  pose proof (insert_TWf KeyHasher fuel objects t bs key v n l tbl HW Hv H0 Hh
                ltac:(lia) Hl Htbl) as E.
  pose proof (TWf_insert KeyHasher objects t bs key v n l tbl HW Hv H0 Hh Hr Hl Htbl) as HW'.
  fold i in E, HW'.
  assert (Hcond : negb (allowDupKeys t) &&
            bool_decide (is_Some (head (matching objects (KeyHasher key) l))) = false).
  { destruct Hdup as [->|Hfind]; [done|].
    rewrite (find_TWf KeyHasher fuel objects t bs key l HW Hh ltac:(lia) Hl) in Hfind.
    injection Hfind as ->. rewrite bool_decide_eq_false_2; [apply andb_false_r|].
    by intros [? ?]. }
  rewrite Hcond in E.
  set (objects' := <[v:=mkHashTableNode (default None (tbl !! i)) (KeyHasher key)]> objects)
    in *.
  set (t' := mkIntrusiveHashTable (Some (<[i:=Some v]> tbl)) (bucketCount t)
               (wrap_size (usedBuckets t + 1)) (allowDupKeys t)) in *.
  pose proof (TWf_used _ _ _ HW) as Hu.
  assert (Hw : usedBuckets t' = usedBuckets t + 1).
  { unfold t', wrap_size. cbn. apply Z.mod_small. lia. }
  assert (Hvl : v ∉ l).
  { intros Hin. apply (TWf_unlinked_notin _ _ _ _ _ HW Hv H0).
    apply elem_of_concat_lookup. by exists i, l. }
  assert (Hl' : <[i:=v :: l]> bs !! bucket_index t' (KeyHasher key) = Some (v :: l)).
  { apply list_lookup_insert_eq. by eapply lookup_lt_Some. }
  assert (Hv' : objects' !! v = Some (mkHashTableNode (default None (tbl !! i)) (KeyHasher key))).
  { apply list_lookup_insert_eq. by eapply lookup_lt_Some. }
  assert (Hm : matching objects' (KeyHasher key) (v :: l) =
               v :: matching objects (KeyHasher key) l).
  { unfold matching at 1. rewrite filter_cons_True by by rewrite (hash_at_Some _ _ _ Hv').
    f_equal. apply matching_ext. intros b Hb. apply hash_at_insert_ne. by intros ->. }
  exists objects', t', (<[i:=v :: l]> bs). split_and!.
  - exact E.
  - exact HW'.
  - intros a. rewrite (elem_of_concat_insert bs i l (v :: l) a Hl),
      (elem_of_concat_bucket bs i l a Hl), elem_of_cons. tauto.
  - exact Hw.
  - rewrite (find_TWf KeyHasher fuel objects' t' _ key (v :: l) HW' Hh ltac:(lia) Hl').
    by rewrite Hm.
  - exists (Z.of_nat (length (matching objects (KeyHasher key) l))). split.
    + apply (countAllMatching_TWf KeyHasher fuel objects t bs key l HW Hh ltac:(lia) Hl).
    + rewrite (countAllMatching_TWf KeyHasher fuel objects' t' _ key (v :: l)
                 HW' Hh ltac:(lia) Hl').
      rewrite Hm. cbn [length]. f_equal. lia.
  - intros a Ha. by apply list_lookup_insert_ne.
Qed.

(** X11.  When duplicates are not allowed, [insert] compares hashes and
    nothing else: a key whose hash is that of a key that [find] sees is
    rejected, equal or not; [insert] returns false, and the objects and the
    table are as before. *)
Theorem table_insert_rejects_equal_hash
    (fuel : nat) (objects : list HashTableNode) (t : IntrusiveHashTable)
    (bs : list (list nat)) (key key0 : K) (v a : nat) (n : HashTableNode) :
  TWf objects t bs → objects !! v = Some n → isLinkedToHashTable n = false →
  KeyHasher key ≠ 0 → (Z.to_nat (getSize t) < fuel)%nat →
  isAllowingDuplicateKeys t = false →
  KeyHasher key = KeyHasher key0 →
  find KeyHasher fuel objects t key0 = Some (Some a) →
  insert KeyHasher fuel key (Some v) objects t = Some (false, objects, t).
Proof.
  unfold getSize, isAllowingDuplicateKeys.
  intros HW Hv Hlinked Hh Hf Hdup Heq Hfind.
  assert (H0 : htKeyHash n = 0).
  { unfold isLinkedToHashTable in Hlinked. apply negb_false_iff, Z.eqb_eq in Hlinked. done. }
  destruct (TWf_bucket objects t bs (KeyHasher key) HW) as (l & item & _ & Hl & _).
  pose proof (TWf_table _ _ _ HW) as (tbl & Htbl & _).
  rewrite (insert_TWf KeyHasher fuel objects t bs key v n l tbl HW Hv H0 Hh Hf Hl Htbl).
  rewrite (find_TWf KeyHasher fuel objects t bs key0 l HW) in Hfind;
    [|congruence | done | by rewrite <- Heq].
  injection Hfind as Hfind. rewrite Heq, Hfind, Hdup. cbn [negb andb].
  by rewrite bool_decide_eq_true_2.
Qed.

Lemma matching_remove_head objects objects' keyHash l a :
  NoDup l → head (matching objects keyHash l) = Some a →
  (∀ b, b ≠ a → hash_at objects' b = hash_at objects b) →
  matching objects' keyHash (filter (λ b, b ≠ a) l) = tail (matching objects keyHash l).
Proof.
  intros Hnd Hhead Hhash.
  destruct (matching_ext objects objects' keyHash (filter (λ b, b ≠ a) l)) as [-> _].
  { intros b Hb. apply list_elem_of_filter in Hb as [Hb _]. by apply Hhash. }
  clear Hhash. induction l as [|b l IH]; [done|].
  apply NoDup_cons in Hnd as [Hb Hnd].
  unfold matching in Hhead |- *. rewrite filter_cons in Hhead.
  destruct (decide (hash_at objects b = Some keyHash)) as [Hm|Hm].
  - injection Hhead as ->.
    rewrite filter_cons_False by (intros Hx; by apply Hx).
    rewrite (filter_ne_notin l a Hb). by rewrite filter_cons_True.
  - assert (Hne : b ≠ a).
    { intros ->. apply head_Some_elem_of in Hhead.
      apply list_elem_of_filter in Hhead. tauto. }
    rewrite filter_cons_True by done. rewrite !filter_cons_False by done.
    by apply IH.
Qed.

(** X12.  [remove] returns the object that [find] returns.  When that is
    an object, it is unlinked and reset (no next object, hash 0), the
    table stays well formed without it, the size goes down by one, the
    hashes of the other objects are as before, and [countAllMatching]
    counts one less.  When it is null, nothing is written. *)
Theorem table_remove_returns_found
    (fuel : nat) (objects : list HashTableNode) (t : IntrusiveHashTable)
    (bs : list (list nat)) (key : K) :
  TWf objects t bs → KeyHasher key ≠ 0 → (Z.to_nat (getSize t) < fuel)%nat →
  ∃ r objects' t',
    remove KeyHasher fuel key objects t = Some (r, objects', t') ∧
    find KeyHasher fuel objects t key = Some r ∧
    match r with
    | None => objects' = objects ∧ t' = t
    | Some a =>
        objects' !! a = Some unlinked ∧
        getSize t' = getSize t - 1 ∧
        (∃ bs', TWf objects' t' bs' ∧
           ∀ b, b ∈ concat bs' ↔ b ∈ concat bs ∧ b ≠ a) ∧
        (∀ b, b ≠ a → hash_at objects' b = hash_at objects b) ∧
        ∃ c, countAllMatching KeyHasher fuel objects t key = Some c ∧
             countAllMatching KeyHasher fuel objects' t' key = Some (c - 1)
    end.
Proof.
  unfold getSize. intros HW Hh Hf.
  destruct (TWf_bucket objects t bs (KeyHasher key) HW) as (l & item & _ & Hl & _ & Hchain & _).
  destruct (remove_TWf KeyHasher fuel objects t bs key l HW Hh Hf Hl)
    as (r & objects' & t' & E & Hr & Hres).
  exists r, objects', t'. split; [done|]. split.
  { rewrite Hr. by apply (find_TWf KeyHasher fuel objects t bs key l). }
  destruct r as [a|]; [|done].
  destruct Hres as (HW' & Ha & Hu & Hbc & Hdup & Hhash).
  set (i := bucket_index t (KeyHasher key)) in *.
  assert (Hal : a ∈ l).
  { symmetry in Hr. apply head_Some_elem_of in Hr.
    apply list_elem_of_filter in Hr. tauto. }
  split_and!; try done.
  - exists (<[i:=filter (λ b, b ≠ a) l]> bs). split; [done|].
    intros b. rewrite (elem_of_concat_insert bs i l _ b Hl),
      (elem_of_concat_bucket bs i l b Hl), list_elem_of_filter.
    split.
    + intros [[Hne Hb] | (j & lj & Hj & Hlj & Hb)]; [tauto|].
      split; [right; by exists j, lj|]. intros ->. apply Hj.
      by apply (TWf_disjoint objects t bs j i lj l a).
    + intros [[Hb | (j & lj & Hj & Hlj & Hb)] Hne]; [tauto|].
      right. by exists j, lj.
  - exists (Z.of_nat (length (matching objects (KeyHasher key) l))). split.
    + by apply (countAllMatching_TWf KeyHasher fuel objects t bs key l).
    + assert (Hl' : <[i:=filter (λ b, b ≠ a) l]> bs !! bucket_index t' (KeyHasher key)
                    = Some (filter (λ b, b ≠ a) l)).
      { unfold bucket_index. rewrite Hbc. apply list_lookup_insert_eq.
        by eapply lookup_lt_Some. }
      rewrite (countAllMatching_TWf KeyHasher fuel objects' t' _ key _ HW' Hh
                 ltac:(lia) Hl').
      rewrite (matching_remove_head objects objects' _ l a
                 (chain_NoDup _ _ _ Hchain) (eq_sym Hr) Hhash).
      destruct (matching objects (KeyHasher key) l); [done|].
      cbn [tail length]. f_equal. lia.
Qed.

(** X13.  [find], [operator[]], [countAllMatching] and [findAllMatching]
    answer from one list: the linked objects that hold the hash of the
    key, in the order of their chain, the last inserted first.  [find]
    returns its first object, [countAllMatching] its length, and
    [findAllMatching] writes its first [maxItems] objects at the front of
    the array, leaves the rest of the array, and returns their number. *)
Theorem table_queries_agree
    (fuel : nat) (objects : list HashTableNode) (t : IntrusiveHashTable)
    (bs : list (list nat)) (key : K) (items : list (option nat)) (maxItems : Z) :
  TWf objects t bs → KeyHasher key ≠ 0 → (Z.to_nat (getSize t) < fuel)%nat →
  0 < maxItems <= Z.of_nat (length items) → maxItems < 2 ^ 64 →
  ∃ ms : list nat,
    NoDup ms ∧
    (∀ a, a ∈ ms ↔ a ∈ concat bs ∧ hash_at objects a = Some (KeyHasher key)) ∧
    find KeyHasher fuel objects t key = Some (head ms) ∧
    subscript KeyHasher fuel objects t key = Some (head ms) ∧
    countAllMatching KeyHasher fuel objects t key = Some (Z.of_nat (length ms)) ∧
    findAllMatching KeyHasher fuel objects t key (Some items) maxItems =
      Some (Z.of_nat (length ms) `min` maxItems,
            (Some <$> take (Z.to_nat maxItems) ms) ++
            drop (length ms `min` Z.to_nat maxItems) items).
Proof.
  unfold getSize. intros HW Hh Hf Hmax Hmax'.
  destruct (TWf_bucket objects t bs (KeyHasher key) HW) as (l & item & _ & Hl & _ & Hchain & _).
  exists (matching objects (KeyHasher key) l). split_and!.
  - apply NoDup_filter. by eapply chain_NoDup.
  - intros a. by apply (matching_elem_of objects t bs).
  - by apply (find_TWf KeyHasher fuel objects t bs key l).
  - by apply (find_TWf KeyHasher fuel objects t bs key l).
  - by apply (countAllMatching_TWf KeyHasher fuel objects t bs key l).
  - rewrite (findAllMatching_TWf KeyHasher fuel objects t bs key l items maxItems)
      by done.
    do 2 f_equal. lia.
Qed.

(** X14.  [removeAllMatching] returns what [countAllMatching] counts.  It
    unlinks and resets every linked object that holds the hash of the key
    and no other; the table stays well formed, the size goes down by the
    count, and afterwards [find] returns null and [countAllMatching]
    zero. *)
Theorem table_removeAllMatching_removes_all
    (fuel : nat) (objects : list HashTableNode) (t : IntrusiveHashTable)
    (bs : list (list nat)) (key : K) :
  TWf objects t bs → KeyHasher key ≠ 0 → (Z.to_nat (getSize t) < fuel)%nat →
  ∃ c objects' t' bs',
    countAllMatching KeyHasher fuel objects t key = Some c ∧
    removeAllMatching KeyHasher fuel key objects t = Some (c, objects', t') ∧
    TWf objects' t' bs' ∧
    (∀ b, b ∈ concat bs' ↔
          b ∈ concat bs ∧ hash_at objects b ≠ Some (KeyHasher key)) ∧
    (∀ b, b ∈ concat bs → hash_at objects b = Some (KeyHasher key) →
          objects' !! b = Some unlinked) ∧
    (∀ b, b ∈ concat bs' → hash_at objects' b = hash_at objects b) ∧
    getSize t' = getSize t - c ∧
    find KeyHasher fuel objects' t' key = Some None ∧
    countAllMatching KeyHasher fuel objects' t' key = Some 0.
Proof.
  unfold getSize. intros HW Hh Hf.
  destruct (TWf_bucket objects t bs (KeyHasher key) HW) as (l & item & _ & Hl & _ & Hchain & _).
  destruct (removeAllMatching_TWf KeyHasher fuel objects t bs key l HW Hh Hf Hl)
    as (objects' & t' & E & HW' & Hreset & Hhash & Hu & Hbc & Hdup).
  set (i := bucket_index t (KeyHasher key)) in *.
  set (ms := matching objects (KeyHasher key) l) in *.
  assert (Hl' : <[i:=others objects (KeyHasher key) l]> bs !! bucket_index t' (KeyHasher key)
                = Some (others objects (KeyHasher key) l)).
  { unfold bucket_index. rewrite Hbc. apply list_lookup_insert_eq. by eapply lookup_lt_Some. }
  assert (Hin' : ∀ b, b ∈ concat (<[i:=others objects (KeyHasher key) l]> bs) ↔
                      b ∈ concat bs ∧ hash_at objects b ≠ Some (KeyHasher key)).
  { intros b. rewrite (elem_of_concat_insert bs i l _ b Hl),
      (elem_of_concat_bucket bs i l b Hl).
    unfold others. rewrite list_elem_of_filter. split.
    - intros [[Hne Hb] | (j & lj & Hj & Hlj & Hb)]; [tauto|].
      split; [right; by exists j, lj|].
      intros Hhb. apply Hj.
      destruct (TWf_hash _ _ _ HW j lj b Hlj Hb) as (m & Hm & _ & Hmod).
      unfold hash_at in Hhb. rewrite Hm in Hhb. injection Hhb as Hhb.
      unfold i, bucket_index. by rewrite <- Hhb, Hmod, Nat2Z.id.
    - intros [[Hb | (j & lj & Hj & Hlj & Hb)] Hne]; [tauto|]. right. by exists j, lj. }
  assert (Hm' : matching objects' (KeyHasher key) (others objects (KeyHasher key) l) = []).
  { destruct (matching objects' (KeyHasher key) (others objects (KeyHasher key) l))
      as [|b ms'] eqn:Em; [done|].
    assert (Hb : b ∈ matching objects' (KeyHasher key) (others objects (KeyHasher key) l))
      by (rewrite Em; left).
    apply list_elem_of_filter in Hb as [Hhb Hb].
    apply list_elem_of_filter in Hb as [Hne Hb].
    rewrite Hhash in Hhb; [done|]. intros Hin. apply list_elem_of_filter in Hin. tauto. }
  pose proof (TWf_used _ _ _ HW) as Hused.
  pose proof (matching_others_length objects (KeyHasher key) l) as Hmo.
  pose proof (length_concat_lookup bs i l Hl) as Hle.
  exists (Z.of_nat (length ms)), objects', t', (<[i:=others objects (KeyHasher key) l]> bs).
  split_and!; try done.
  - by apply (countAllMatching_TWf KeyHasher fuel objects t bs key l).
  - intros b Hb Hhb. apply Hreset. by apply (matching_elem_of objects t bs).
  - intros b Hb. apply Hhash. intros Hin.
    apply Hin' in Hb as [_ Hb]. apply list_elem_of_filter in Hin. tauto.
  - rewrite (find_TWf KeyHasher fuel objects' t' _ key _ HW' Hh ltac:(lia) Hl').
    by rewrite Hm'.
  - rewrite (countAllMatching_TWf KeyHasher fuel objects' t' _ key _ HW' Hh ltac:(lia) Hl').
    by rewrite Hm'.
Qed.

End table_theorems.


(** ** What [clear] leaves in the bucket array *)

Lemma find_loop_cycle objects keyHash a v ha hv :
  objects !! a = Some (mkHashTableNode (Some v) ha) →
  objects !! v = Some (mkHashTableNode (Some a) hv) →
  keyHash ≠ ha → keyHash ≠ hv →
  ∀ fuel, find_loop fuel objects keyHash (Some a) = None ∧
          find_loop fuel objects keyHash (Some v) = None.
Proof.
  intros Ha Hv Hna Hnv fuel. induction fuel as [|fuel [IHa IHv]]; [done|].
  cbn [find_loop]. rewrite Ha, Hv. cbn [htKeyHash htNext].
  destruct (Z.eqb_spec keyHash ha) as [?|_]; [done|].
  destruct (Z.eqb_spec keyHash hv) as [?|_]; [done|].
  done.
Qed.

Section clear_theorems.
Context {K : Type} (KeyHasher : K → Z).

(** [insert] that finds nothing to reject links the object in front of
    the head of the bucket, whatever the head is. *)
Lemma insert_link fuel objects t key v n tbl head :
  objects !! v = Some n → htKeyHash n = 0 → isAllocated t = true →
  KeyHasher key ≠ 0 → table t = Some tbl →
  tbl !! bucket_index t (KeyHasher key) = Some head →
  allowDupKeys t = true ∨ insert_loop fuel objects (KeyHasher key) head = Some false →
  insert KeyHasher fuel key (Some v) objects t =
    Some (true, <[v:=mkHashTableNode head (KeyHasher key)]> objects,
          mkIntrusiveHashTable (Some (<[bucket_index t (KeyHasher key):=Some v]> tbl))
            (bucketCount t) (wrap_size (usedBuckets t + 1)) (allowDupKeys t)).
Proof.
  intros Hv H0 Ha Hh Htbl Hhead Hdup.
  unfold insert. rewrite Hv. unfold isLinkedToHashTable. rewrite H0. cbn [Z.eqb negb].
  unfold allocate_default, allocate. rewrite Ha.
  rewrite (hashOf_Some KeyHasher key Hh).
  assert (Hbc : bucketCount t ≠ 0).
  { unfold isAllocated in Ha. rewrite Htbl in Ha.
    by destruct (Z.eqb_spec (bucketCount t) 0). }
  unfold bucketOf. destruct (Z.eqb_spec (bucketCount t) 0) as [?|_]; [done|].
  unfold bucket_head. rewrite Htbl. fold (bucket_index t (KeyHasher key)). rewrite Hhead.
  destruct head as [b|]; [|done].
  destruct Hdup as [->| ->]; [done|]. by destruct (allowDupKeys t).
Qed.

(** X15.  [clear] resets every linked object and sets the size to 0, so
    that [find] returns null for every key; it does not write the bucket
    array: each bucket that had a chain still points at its former head,
    which is now reset. *)
Theorem table_clear_keeps_heads
    (fuel : nat) (objects : list HashTableNode) (t : IntrusiveHashTable)
    (bs : list (list nat)) :
  TWf objects t bs → (Z.to_nat (getSize t) < fuel)%nat →
  ∃ objects' t',
    clear fuel objects t = Some (objects', t') ∧
    getSize t' = 0 ∧ getBucketCount t' = getBucketCount t ∧
    isAllocated t' = true ∧
    (∀ a, a ∈ concat bs → objects' !! a = Some unlinked) ∧
    (∀ a, a ∉ concat bs → objects' !! a = objects !! a) ∧
    (∀ fuel' key, find KeyHasher fuel' objects' t' key = Some None) ∧
    table t' = table t ∧
    (∀ i a l, bs !! i = Some (a :: l) →
       bucket_head t' (Z.of_nat i) = Some (Some a) ∧
       isLinkedToHashTable <$> objects' !! a = Some false).
Proof.
  unfold getSize, getBucketCount. intros HW Hf.
  destruct (clear_TWf fuel objects t bs HW Hf) as (objects' & E & Hreset & Hsame).
  pose proof (TWf_table _ _ _ HW) as (tbl & Htbl & HF).
  eexists objects', _. split; [exact E|]. cbn [usedBuckets bucketCount table].
  split_and!; try done.
  - by apply (TWf_isAllocated _ _ _ HW).
  - intros i a l Hl.
    destruct (Forall2_lookup_r _ _ _ _ _ HF Hl) as (item & Hitem & -> & _).
    split.
    + unfold bucket_head. cbn [table]. by rewrite Htbl, Nat2Z.id.
    + rewrite Hreset; [done|]. apply elem_of_concat_lookup. exists i, (a :: l).
      split; [done | left].
Qed.

(** X16.  After [clear], an [insert] into a bucket that had a chain links
    the new object in front of the former head [a], which is reset and not
    part of the table.  When [a] is then inserted again into this bucket,
    the two objects point at each other, and [find] for a third hash of
    this bucket walks the two objects without end: it has no result for
    any number of steps. *)
Theorem table_clear_then_insert_makes_cycle
    (fuel : nat) (objects : list HashTableNode) (t : IntrusiveHashTable)
    (bs : list (list nat)) (key_v key_a key : K) (v a : nat) (l : list nat)
    (n : HashTableNode) :
  TWf objects t bs → (Z.to_nat (getSize t) < fuel)%nat → (3 ≤ fuel)%nat →
  bs !! bucket_index t (KeyHasher key_a) = Some (a :: l) →
  bucket_index t (KeyHasher key_v) = bucket_index t (KeyHasher key_a) →
  bucket_index t (KeyHasher key) = bucket_index t (KeyHasher key_a) →
  KeyHasher key_v ≠ 0 → KeyHasher key_a ≠ 0 → KeyHasher key ≠ 0 →
  KeyHasher key_v ≠ KeyHasher key_a →
  KeyHasher key ≠ KeyHasher key_v → KeyHasher key ≠ KeyHasher key_a →
  objects !! v = Some n → v ≠ a →
  isLinkedToHashTable n = false ∨ v ∈ concat bs →
  ∃ objects1 t1 objects2 t2 objects3 t3,
    clear fuel objects t = Some (objects1, t1) ∧
    insert KeyHasher fuel key_v (Some v) objects1 t1 = Some (true, objects2, t2) ∧
    objects2 !! v = Some (mkHashTableNode (Some a) (KeyHasher key_v)) ∧
    objects2 !! a = Some unlinked ∧
    insert KeyHasher fuel key_a (Some a) objects2 t2 = Some (true, objects3, t3) ∧
    getSize t3 = 2 ∧
    bucket_head t3 (KeyHasher key mod bucketCount t3) = Some (Some a) ∧
    objects3 !! a = Some (mkHashTableNode (Some v) (KeyHasher key_a)) ∧
    objects3 !! v = Some (mkHashTableNode (Some a) (KeyHasher key_v)) ∧
    ∀ fuel', find KeyHasher fuel' objects3 t3 key = None.
Proof.
  unfold getSize.
  intros HW Hf Hf3 Hl Hiv Hik Hhv Hha Hhk Hva Hkv Hka Hv Hne Hfree.
  destruct (clear_TWf fuel objects t bs HW Hf) as (objects1 & E & Hreset & Hsame).
  pose proof HW as [Hc Hp (tbl & Htbl & HF) _ _ _].
  set (i := bucket_index t (KeyHasher key_a)) in *.
  destruct (Forall2_lookup_r _ _ _ _ _ HF Hl) as (item & Hitem & -> & _).
  assert (Hi : (i < length tbl)%nat) by by eapply lookup_lt_Some.
  assert (Ha1 : objects1 !! a = Some unlinked).
  { apply Hreset. apply elem_of_concat_lookup. exists i, (a :: l). split; [done | left]. }
  assert (∃ n1, objects1 !! v = Some n1 ∧ htKeyHash n1 = 0) as (n1 & Hv1 & H01).
  { destruct (decide (v ∈ concat bs)) as [Hin|Hnotin].
    - exists unlinked. split; [by apply Hreset | done].
    - exists n. rewrite Hsame by done. split; [done|].
      destruct Hfree as [Hlinked|?]; [|done].
      unfold isLinkedToHashTable in Hlinked.
      by apply negb_false_iff, Z.eqb_eq in Hlinked. }
  set (t1 := mkIntrusiveHashTable (table t) (bucketCount t) 0 (allowDupKeys t)) in *.
  assert (Halloc : ∀ tb u, isAllocated
            (mkIntrusiveHashTable (Some tb) (bucketCount t) u (allowDupKeys t)) = true).
  { intros tb u. unfold isAllocated. cbn. by destruct (Z.eqb_spec (bucketCount t) 0); [lia|]. }
  destruct fuel as [|[|[|fuel]]]; try lia.
  (* the first insert *)
  set (objects2 := <[v:=mkHashTableNode (Some a) (KeyHasher key_v)]> objects1).
  set (t2 := mkIntrusiveHashTable (Some (<[i:=Some v]> tbl)) (bucketCount t)
               (wrap_size (0 + 1)) (allowDupKeys t)).
  assert (E2 : insert KeyHasher (S (S (S fuel))) key_v (Some v) objects1 t1 =
               Some (true, objects2, t2)).
  { unfold objects2, t2. rewrite <- Hiv.
    apply (insert_link _ objects1 t1 key_v v n1 tbl (Some a)); try done.
    - unfold t1. rewrite Htbl. apply Halloc.
    - change (bucket_index t1 (KeyHasher key_v)) with (bucket_index t (KeyHasher key_v)).
      by rewrite Hiv.
    - right. cbn [insert_loop]. rewrite Ha1. cbn [unlinked htKeyHash htNext].
      by destruct (Z.eqb_spec (KeyHasher key_v) 0). }
  assert (Hv2 : objects2 !! v = Some (mkHashTableNode (Some a) (KeyHasher key_v))).
  { apply list_lookup_insert_eq. by eapply lookup_lt_Some. }
  assert (Ha2 : objects2 !! a = Some unlinked).
  { unfold objects2. by rewrite list_lookup_insert_ne. }
  (* the second insert *)
  set (objects3 := <[a:=mkHashTableNode (Some v) (KeyHasher key_a)]> objects2).
  set (t3 := mkIntrusiveHashTable (Some (<[i:=Some a]> (<[i:=Some v]> tbl)))
               (bucketCount t) (wrap_size (wrap_size (0 + 1) + 1)) (allowDupKeys t)).
  assert (E3 : insert KeyHasher (S (S (S fuel))) key_a (Some a) objects2 t2 =
               Some (true, objects3, t3)).
  { unfold objects3, t3.
    apply (insert_link _ objects2 t2 key_a a unlinked (<[i:=Some v]> tbl) (Some v));
      try done.
    - apply Halloc.
    - change (bucket_index t2 (KeyHasher key_a)) with i.
      by apply list_lookup_insert_eq.
    - right. cbn [insert_loop]. rewrite Hv2. cbn [htKeyHash htNext].
      destruct (Z.eqb_spec (KeyHasher key_a) (KeyHasher key_v)) as [?|_]; [congruence|].
      rewrite Ha2. cbn [unlinked htKeyHash htNext].
      by destruct (Z.eqb_spec (KeyHasher key_a) 0). }
  assert (Ha3 : objects3 !! a = Some (mkHashTableNode (Some v) (KeyHasher key_a))).
  { apply list_lookup_insert_eq. by eapply lookup_lt_Some. }
  assert (Hv3 : objects3 !! v = Some (mkHashTableNode (Some a) (KeyHasher key_v))).
  { unfold objects3. rewrite list_lookup_insert_ne by done. exact Hv2. }
  assert (Hhead3 : bucket_head t3 (KeyHasher key mod bucketCount t3) = Some (Some a)).
  { unfold bucket_head, t3. cbn [table bucketCount].
    fold (bucket_index t (KeyHasher key)). rewrite Hik.
    apply list_lookup_insert_eq. by rewrite length_insert. }
  exists objects1, t1, objects2, t2, objects3, t3.
  split_and!; try done.
  intros fuel'. unfold find.
  assert (Hne3 : isEmpty t3 = false) by done.
  rewrite Hne3, (hashOf_Some KeyHasher key Hhk).
  unfold bucketOf. change (bucketCount t3) with (bucketCount t) in *.
  destruct (Z.eqb_spec (bucketCount t) 0) as [?|_]; [lia|].
  rewrite Hhead3.
  by apply (find_loop_cycle objects3 _ a v _ _ Ha3 Hv3).
Qed.

(** X17.  [deallocate], which the destructor calls, resets every linked
    object and leaves the table as its constructor made it: no bucket
    array, no buckets, size 0, the duplicates flag as it was.  A second
    [deallocate] changes nothing. *)
Theorem table_deallocate_resets
    (fuel : nat) (objects : list HashTableNode) (t : IntrusiveHashTable)
    (bs : list (list nat)) :
  TWf objects t bs → (Z.to_nat (getSize t) < fuel)%nat →
  ∃ objects',
    deallocate fuel objects t =
      Some (objects', IntrusiveHashTable_new (isAllowingDuplicateKeys t)) ∧
    (∀ a, a ∈ concat bs → objects' !! a = Some unlinked) ∧
    (∀ a, a ∉ concat bs → objects' !! a = objects !! a) ∧
    (∀ fuel', deallocate fuel' objects' (IntrusiveHashTable_new (isAllowingDuplicateKeys t)) =
       Some (objects', IntrusiveHashTable_new (isAllowingDuplicateKeys t))).
Proof.
  unfold getSize, isAllowingDuplicateKeys. intros HW Hf.
  destruct (deallocate_TWf fuel objects t bs HW Hf) as (objects' & E & Hreset & Hsame).
  exists objects'. by split_and!.
Qed.

Lemma insert_allocate fuel key value objects t t0 :
  allocate_default fuel t = Some (Returned t0) → isAllocated t0 = true →
  insert KeyHasher fuel key value objects t = insert KeyHasher fuel key value objects t0.
Proof.
  intros Ht Ha. unfold insert. rewrite Ht.
  unfold allocate_default, allocate. by rewrite Ha.
Qed.

(** X18.  The first [insert] into a table that was constructed without a
    size hint allocates 2053 buckets, links the object as the only one of
    its chain, and makes the size 1; [find] then returns the object. *)
Theorem table_first_insert_allocates
    (fuel : nat) (objects : list HashTableNode) (allowDuplicateKeys : bool)
    (key : K) (v : nat) (n : HashTableNode) :
  objects !! v = Some n → isLinkedToHashTable n = false →
  KeyHasher key ≠ 0 → (2053 < fuel)%nat →
  ∃ objects' t',
    insert KeyHasher fuel key (Some v) objects
      (IntrusiveHashTable_new allowDuplicateKeys) = Some (true, objects', t') ∧
    getBucketCount t' = DefaultCapacity ∧ getSize t' = 1 ∧
    isAllowingDuplicateKeys t' = allowDuplicateKeys ∧
    objects' !! v = Some (mkHashTableNode None (KeyHasher key)) ∧
    (∀ a, a ≠ v → objects' !! a = objects !! a) ∧
    find KeyHasher fuel objects' t' key = Some (Some v) ∧
    ∃ bs', TWf objects' t' bs' ∧ ∀ a, a ∈ concat bs' ↔ a = v.
Proof.
  intros Hv Hlinked Hh Hf.
  assert (H0 : htKeyHash n = 0).
  { unfold isLinkedToHashTable in Hlinked. by apply negb_false_iff, Z.eqb_eq in Hlinked. }
  set (tbl := replicate (Z.to_nat 2053) (@None nat)).
  set (t0 := mkIntrusiveHashTable (Some tbl) 2053 0 allowDuplicateKeys).
  assert (Halloc : allocate_default fuel (IntrusiveHashTable_new allowDuplicateKeys) =
                   Some (Returned t0)).
  { unfold allocate_default, DefaultCapacity.
    apply (allocate_spec fuel 2053 2053 (IntrusiveHashTable_new allowDuplicateKeys));
      [done | lia | done | exact prime_2053 | intros q ?; lia | lia]. }
  assert (Ha0 : isAllocated t0 = true) by done.
  rewrite (insert_allocate fuel key (Some v) objects _ t0 Halloc Ha0).
  set (i := bucket_index t0 (KeyHasher key)).
  assert (Hi : (i < Z.to_nat 2053)%nat).
  { unfold i, bucket_index. change (bucketCount t0) with 2053.
    pose proof (Z.mod_pos_bound (KeyHasher key) 2053 ltac:(lia)) as Hm.
    set (m := KeyHasher key mod 2053) in *. clearbody m. lia. }
  assert (Hhead : tbl !! i = Some None) by by apply lookup_replicate_2.
  assert (HW0 : TWf objects t0 (replicate (Z.to_nat 2053) [])).
  { apply (TWf_allocated objects (Z.to_nat 2053) allowDuplicateKeys); [lia|].
    rewrite Z2Nat.id by lia. done. }
  assert (Hl0 : replicate (Z.to_nat 2053) (@nil nat) !! i = Some []) by by apply lookup_replicate_2.
  pose proof (TWf_insert KeyHasher objects t0 _ key v n [] tbl HW0 Hv H0 Hh
                ltac:(done) Hl0 eq_refl) as HW'.
  fold i in HW'. rewrite Hhead in HW'. cbn [default] in HW'.
  rewrite (insert_link fuel objects t0 key v n tbl None Hv H0 Ha0 Hh eq_refl Hhead);
    [|right; by destruct fuel].
  fold i.
  assert (Hv' : <[v:=mkHashTableNode None (KeyHasher key)]> objects !! v =
                Some (mkHashTableNode None (KeyHasher key))).
  { apply list_lookup_insert_eq. by eapply lookup_lt_Some. }
  eexists _, _. split; [done|].
  split_and!; try done.
  - intros a Ha. by apply list_lookup_insert_ne.
  - match goal with |- find _ _ ?o ?t1 _ = _ =>
      rewrite (find_TWf KeyHasher fuel o t1 _ key [v] HW' Hh)
    end.
    + unfold matching. rewrite filter_cons_True by by rewrite (hash_at_Some _ _ _ Hv').
      done.
    + change (Z.to_nat _) with 1%nat. clear -Hf. lia.
    + apply list_lookup_insert_eq. by rewrite length_replicate.
  - eexists. split; [exact HW'|].
    intros a. rewrite (elem_of_concat_insert _ i [] [v] a Hl0), list_elem_of_singleton.
    split; [|by left]. intros [?|(j & lj & _ & Hlj & Ha)]; [done|].
    apply lookup_replicate in Hlj as [-> _]. by apply elem_of_nil in Ha.
Qed.

End clear_theorems.


(** ** Tables that do not allow duplicates *)

(** The linked objects hold hashes that differ from one another. *)
Definition hash_unique (objects : list HashTableNode) (bs : list (list nat)) : Prop :=
  ∀ a b, a ∈ concat bs → b ∈ concat bs →
    hash_at objects a = hash_at objects b → a = b.

Lemma hash_unique_matching objects t bs keyHash l :
  TWf objects t bs → hash_unique objects bs →
  bs !! bucket_index t keyHash = Some l →
  (length (matching objects keyHash l) ≤ 1)%nat.
Proof.
  intros HW Hu Hl.
  destruct (TWf_bucket objects t bs keyHash HW) as (l0 & item & _ & Hl0 & _ & Hchain & _).
  rewrite Hl in Hl0. injection Hl0 as <-.
  assert (Hnd : NoDup (matching objects keyHash l)).
  { apply NoDup_filter. by eapply chain_NoDup. }
  pose proof (matching_elem_of objects t bs keyHash l) as Hin.
  destruct (matching objects keyHash l) as [|x [|y ms]]; cbn [length]; [lia..|].
  apply NoDup_cons in Hnd as [Hx _]. exfalso. apply Hx.
  destruct (proj1 (Hin x HW Hl)) as [Hxb Hxh]; [left|].
  destruct (proj1 (Hin y HW Hl)) as [Hyb Hyh]; [right; left|].
  rewrite (Hu x y Hxb Hyb) by congruence. left.
Qed.

Section unique_theorems.
Context {K : Type} (KeyHasher : K → Z).

(** X19.  On a table that does not allow duplicates and whose linked
    objects hold different hashes, [insert] returns true exactly when
    [find] does not see the key, and it keeps the table well formed and
    the hashes different: [countAllMatching] is then at most 1 for every
    key. *)
Theorem table_insert_keeps_hashes_unique
    (fuel : nat) (objects : list HashTableNode) (t : IntrusiveHashTable)
    (bs : list (list nat)) (key : K) (v : nat) (n : HashTableNode) :
  TWf objects t bs → hash_unique objects bs →
  isAllowingDuplicateKeys t = false →
  objects !! v = Some n → isLinkedToHashTable n = false →
  KeyHasher key ≠ 0 → getSize t + 1 < 2 ^ 64 →
  (Z.to_nat (getSize t) + 1 < fuel)%nat →
  ∃ r objects' t' bs',
    insert KeyHasher fuel key (Some v) objects t = Some (r, objects', t') ∧
    (r = true ↔ find KeyHasher fuel objects t key = Some None) ∧
    TWf objects' t' bs' ∧ hash_unique objects' bs' ∧
    isAllowingDuplicateKeys t' = false ∧
    ∀ key', KeyHasher key' ≠ 0 →
      ∃ c, countAllMatching KeyHasher fuel objects' t' key' = Some c ∧ 0 <= c <= 1.
Proof.
  unfold getSize, isAllowingDuplicateKeys.
  intros HW Hu Hdup Hv Hlinked Hh Hr Hf.
  assert (H0 : htKeyHash n = 0).
  { unfold isLinkedToHashTable in Hlinked. by apply negb_false_iff, Z.eqb_eq in Hlinked. }
  destruct (TWf_bucket objects t bs (KeyHasher key) HW) as (l & item & _ & Hl & _).
  pose proof (TWf_table _ _ _ HW) as (tbl & Htbl & _).
  set (i := bucket_index t (KeyHasher key)) in *.
  pose proof (insert_TWf KeyHasher fuel objects t bs key v n l tbl HW Hv H0 Hh
                ltac:(lia) Hl Htbl) as E.
  pose proof (find_TWf KeyHasher fuel objects t bs key l HW Hh ltac:(lia) Hl) as Efind.
  fold i in E. rewrite Hdup in E. cbn [negb andb] in E.
  assert (Hcount : ∀ objects' t' bs',
    TWf objects' t' bs' → hash_unique objects' bs' →
    (Z.to_nat (usedBuckets t') < fuel)%nat →
    ∀ key', KeyHasher key' ≠ 0 →
      ∃ c, countAllMatching KeyHasher fuel objects' t' key' = Some c ∧ 0 <= c <= 1).
  { intros objects' t' bs' HW' Hu' Hf' key' Hh'.
    destruct (TWf_bucket objects' t' bs' (KeyHasher key') HW') as (l' & item' & _ & Hl' & _).
    eexists. split.
    - by apply (countAllMatching_TWf KeyHasher fuel objects' t' bs' key' l').
    - pose proof (hash_unique_matching objects' t' bs' _ l' HW' Hu' Hl'). lia. }
  destruct (head (matching objects (KeyHasher key) l)) as [a0|] eqn:Hhead.
  - rewrite bool_decide_eq_true_2 in E by done.
    exists false, objects, t, bs. split_and!; try done.
    + rewrite Efind. split; congruence.
    + apply (Hcount objects t bs HW Hu). lia.
  - rewrite bool_decide_eq_false_2 in E by (by intros [? ?]).
    pose proof (TWf_insert KeyHasher objects t bs key v n l tbl HW Hv H0 Hh Hr Hl Htbl) as HW'.
    fold i in HW'. rewrite Hdup in HW'.
    set (objects' := <[v:=mkHashTableNode (default None (tbl !! i)) (KeyHasher key)]> objects)
      in *.
    assert (Hv' : hash_at objects' v = Some (KeyHasher key)).
    { unfold hash_at, objects'. rewrite list_lookup_insert_eq by by eapply lookup_lt_Some.
      done. }
    assert (Hvb : v ∉ concat bs) by by apply (TWf_unlinked_notin _ _ _ _ _ HW Hv H0).
    assert (Hnone : ∀ b, b ∈ concat bs → hash_at objects' b ≠ Some (KeyHasher key)).
    { intros b Hb Hhb.
      assert (Hbv : b ≠ v) by by intros ->.
      unfold objects' in Hhb. rewrite hash_at_insert_ne in Hhb by done.
      assert (Hin : b ∈ matching objects (KeyHasher key) l)
        by by apply (matching_elem_of objects t bs).
      destruct (matching objects (KeyHasher key) l); [by apply elem_of_nil in Hin | done]. }
    assert (Hu' : hash_unique objects' (<[i:=v :: l]> bs)).
    { assert (Hmem : ∀ x, x ∈ concat (<[i:=v :: l]> bs) → x = v ∨ x ∈ concat bs).
      { intros x. rewrite (elem_of_concat_insert bs i l (v :: l) x Hl),
          (elem_of_concat_bucket bs i l x Hl), elem_of_cons. tauto. }
      intros a b Ha Hb Hab. apply Hmem in Ha, Hb.
      destruct Ha as [->|Ha], Hb as [->|Hb]; [done | | |].
      - exfalso. apply (Hnone b Hb). congruence.
      - exfalso. apply (Hnone a Ha). congruence.
      - apply (Hu a b Ha Hb). unfold objects' in Hab.
        rewrite !hash_at_insert_ne in Hab; [done | by intros -> | by intros ->]. }
    eexists true, objects', _, (<[i:=v :: l]> bs). split_and!; try done.
    apply (Hcount _ _ _ HW' Hu'). cbn [usedBuckets].
    assert (Hw : wrap_size (usedBuckets t + 1) = usedBuckets t + 1).
    { pose proof (TWf_used _ _ _ HW). unfold wrap_size. apply Z.mod_small. lia. }
    rewrite Hw. lia.
Qed.

End unique_theorems.

(** ** A table of eleven buckets *)

(** The objects of [objects_42_31] and an object that is not linked. *)
Definition objects_42_31_free : list HashTableNode := objects_42_31 ++ [unlinked].

(** The chains of [table_42_31]: the objects 1 and 0, in the bucket 9. *)
Definition bs_42_31 : list (list nat) :=
  <[9%nat:=[1%nat; 0%nat]]> (replicate 11 []).

Lemma TWf_table_42_31 : TWf objects_42_31_free table_42_31 bs_42_31.
Proof.
  pose proof (TWf_allocated (replicate 3 unlinked) 11 false ltac:(lia) ltac:(done)) as H0.
  pose proof (TWf_insert (λ k : Z, k) _ _ _ 42 0%nat unlinked [] _ H0
                eq_refl eq_refl ltac:(done) ltac:(done) eq_refl eq_refl) as H1.
  pose proof (TWf_insert (λ k : Z, k) _ _ _ 31 1%nat unlinked [0%nat] _ H1
                eq_refl eq_refl ltac:(done) ltac:(done) eq_refl eq_refl) as H2.
  exact H2.
Qed.

Lemma hash_unique_42_31 : hash_unique objects_42_31_free bs_42_31.
Proof.
  intros a b Ha Hb Hab.
  change (concat bs_42_31) with [1%nat; 0%nat] in Ha, Hb.
  apply elem_of_cons in Ha as [->|Ha]; apply elem_of_cons in Hb as [->|Hb];
    try apply list_elem_of_singleton in Ha as ->;
    try apply list_elem_of_singleton in Hb as ->; done.
Qed.


(** X10, an instance: the object 2 put under the key 20, which falls
    into the bucket 9 like 42 and 31. *)
Lemma table_insert_then_find_witness :
  TWf objects_42_31_free table_42_31 bs_42_31 ∧
  objects_42_31_free !! 2%nat = Some unlinked ∧
  isLinkedToHashTable unlinked = false ∧ 20 ≠ 0 ∧
  getSize table_42_31 + 1 < 2 ^ 64 ∧
  (Z.to_nat (getSize table_42_31) + 1 < 12)%nat ∧
  find (λ k : Z, k) 12 objects_42_31_free table_42_31 20 = Some None ∧
  ∃ objects' t',
    insert (λ k : Z, k) 12 20 (Some 2%nat) objects_42_31_free table_42_31 =
      Some (true, objects', t') ∧
    getSize t' = getSize table_42_31 + 1 ∧
    find (λ k : Z, k) 12 objects' t' 20 = Some (Some 2%nat).
Proof.
  assert (H1 : objects_42_31_free !! 2%nat = Some unlinked) by reflexivity.
  assert (H2 : isLinkedToHashTable unlinked = false) by reflexivity.
  assert (H3 : 20 ≠ 0) by lia.
  assert (H4 : getSize table_42_31 + 1 < 2 ^ 64) by reflexivity.
  assert (H5 : (Z.to_nat (getSize table_42_31) + 1 < 12)%nat) by (cbn; lia).
  assert (H6 : find (λ k : Z, k) 12 objects_42_31_free table_42_31 20 = Some None)
    by reflexivity.
  split; [exact TWf_table_42_31|]. split; [exact H1|]. split; [exact H2|].
  split; [exact H3|]. split; [exact H4|]. split; [exact H5|]. split; [exact H6|].
  destruct (table_insert_then_find (λ k : Z, k) 12 objects_42_31_free table_42_31
              bs_42_31 20 2%nat unlinked TWf_table_42_31 H1 H2 H3 H4 H5 (or_intror H6))
    as (objects' & t' & bs' & E & _ & _ & Hsize & Hfind & _).
  exists objects', t'. split; [exact E|]. split; [exact Hsize | exact Hfind].
Defined.

(** X11, an instance: with the absolute value as the hash, the key -42
    is rejected because the key 42 is in the table. *)
Lemma table_insert_rejects_equal_hash_witness :
  TWf objects_42_31_free table_42_31 bs_42_31 ∧
  objects_42_31_free !! 2%nat = Some unlinked ∧
  isLinkedToHashTable unlinked = false ∧ Z.abs (-42) ≠ 0 ∧
  (Z.to_nat (getSize table_42_31) < 12)%nat ∧
  isAllowingDuplicateKeys table_42_31 = false ∧
  Z.abs (-42) = Z.abs 42 ∧
  find Z.abs 12 objects_42_31_free table_42_31 42 = Some (Some 0%nat) ∧
  insert Z.abs 12 (-42) (Some 2%nat) objects_42_31_free table_42_31 =
    Some (false, objects_42_31_free, table_42_31).
Proof.
  assert (H1 : objects_42_31_free !! 2%nat = Some unlinked) by reflexivity.
  assert (H2 : isLinkedToHashTable unlinked = false) by reflexivity.
  assert (H3 : Z.abs (-42) ≠ 0) by (cbn; lia).
  assert (H4 : (Z.to_nat (getSize table_42_31) < 12)%nat) by (cbn; lia).
  assert (H5 : isAllowingDuplicateKeys table_42_31 = false) by reflexivity.
  assert (H6 : Z.abs (-42) = Z.abs 42) by reflexivity.
  assert (H7 : find Z.abs 12 objects_42_31_free table_42_31 42 = Some (Some 0%nat))
    by reflexivity.
  split; [exact TWf_table_42_31|]. split; [exact H1|]. split; [exact H2|].
  split; [exact H3|]. split; [exact H4|]. split; [exact H5|]. split; [exact H6|].
  split; [exact H7|].
  exact (table_insert_rejects_equal_hash Z.abs 12 objects_42_31_free table_42_31
           bs_42_31 (-42) 42 2%nat 0%nat unlinked TWf_table_42_31 H1 H2 H3 H4 H5 H6 H7).
Defined.

(** X12, an instance: [remove(42)] returns the object 0, the second of
    its chain. *)
Lemma table_remove_returns_found_witness :
  TWf objects_42_31_free table_42_31 bs_42_31 ∧ 42 ≠ 0 ∧
  (Z.to_nat (getSize table_42_31) < 12)%nat ∧
  ∃ r objects' t',
    remove (λ k : Z, k) 12 42 objects_42_31_free table_42_31 = Some (r, objects', t') ∧
    find (λ k : Z, k) 12 objects_42_31_free table_42_31 42 = Some r.
Proof.
  assert (H1 : 42 ≠ 0) by lia.
  assert (H2 : (Z.to_nat (getSize table_42_31) < 12)%nat) by (cbn; lia).
  split; [exact TWf_table_42_31|]. split; [exact H1|]. split; [exact H2|].
  destruct (table_remove_returns_found (λ k : Z, k) 12 objects_42_31_free table_42_31
              bs_42_31 42 TWf_table_42_31 H1 H2) as (r & objects' & t' & E & Hfind & _).
  exists r, objects', t'. split; [exact E | exact Hfind].
Defined.

(** X13, an instance: the key 42 and an array of two pointers. *)
Lemma table_queries_agree_witness :
  TWf objects_42_31_free table_42_31 bs_42_31 ∧ 42 ≠ 0 ∧
  (Z.to_nat (getSize table_42_31) < 12)%nat ∧
  0 < 2 <= Z.of_nat (length [@None nat; None]) ∧ 2 < 2 ^ 64 ∧
  ∃ ms : list nat,
    find (λ k : Z, k) 12 objects_42_31_free table_42_31 42 = Some (head ms) ∧
    countAllMatching (λ k : Z, k) 12 objects_42_31_free table_42_31 42 =
      Some (Z.of_nat (length ms)) ∧
    findAllMatching (λ k : Z, k) 12 objects_42_31_free table_42_31 42
      (Some [None; None]) 2 =
      Some (Z.of_nat (length ms) `min` 2,
            (Some <$> take (Z.to_nat 2) ms) ++
            drop (length ms `min` Z.to_nat 2) [None; None]).
Proof.
  assert (H1 : 42 ≠ 0) by lia.
  assert (H2 : (Z.to_nat (getSize table_42_31) < 12)%nat) by (cbn; lia).
  assert (H3 : 0 < 2 <= Z.of_nat (length [@None nat; None])) by (cbn; lia).
  assert (H4 : 2 < 2 ^ 64) by reflexivity.
  split; [exact TWf_table_42_31|]. split; [exact H1|]. split; [exact H2|].
  split; [exact H3|]. split; [exact H4|].
  destruct (table_queries_agree (λ k : Z, k) 12 objects_42_31_free table_42_31
              bs_42_31 42 [None; None] 2 TWf_table_42_31 H1 H2 H3 H4)
    as (ms & _ & _ & Hfind & _ & Hcount & Hall).
  exists ms. split; [exact Hfind|]. split; [exact Hcount | exact Hall].
Defined.

(** X14, an instance: [removeAllMatching(31)]. *)
Lemma table_removeAllMatching_removes_all_witness :
  TWf objects_42_31_free table_42_31 bs_42_31 ∧ 31 ≠ 0 ∧
  (Z.to_nat (getSize table_42_31) < 12)%nat ∧
  ∃ c objects' t',
    countAllMatching (λ k : Z, k) 12 objects_42_31_free table_42_31 31 = Some c ∧
    removeAllMatching (λ k : Z, k) 12 31 objects_42_31_free table_42_31 =
      Some (c, objects', t') ∧
    getSize t' = getSize table_42_31 - c ∧
    find (λ k : Z, k) 12 objects' t' 31 = Some None.
Proof.
  assert (H1 : 31 ≠ 0) by lia.
  assert (H2 : (Z.to_nat (getSize table_42_31) < 12)%nat) by (cbn; lia).
  split; [exact TWf_table_42_31|]. split; [exact H1|]. split; [exact H2|].
  destruct (table_removeAllMatching_removes_all (λ k : Z, k) 12 objects_42_31_free
              table_42_31 bs_42_31 31 TWf_table_42_31 H1 H2)
    as (c & objects' & t' & bs' & Hcount & E & _ & _ & _ & _ & Hsize & Hfind & _).
  exists c, objects', t'. split; [exact Hcount|]. split; [exact E|].
  split; [exact Hsize | exact Hfind].
Defined.

(** X15, an instance: after [clear], the bucket 9 still points at the
    object 1. *)
Lemma table_clear_keeps_heads_witness :
  TWf objects_42_31_free table_42_31 bs_42_31 ∧
  (Z.to_nat (getSize table_42_31) < 12)%nat ∧
  ∃ objects' t',
    clear 12 objects_42_31_free table_42_31 = Some (objects', t') ∧
    getSize t' = 0 ∧ table t' = table table_42_31 ∧
    bucket_head t' (Z.of_nat 9) = Some (Some 1%nat) ∧
    isLinkedToHashTable <$> objects' !! 1%nat = Some false.
Proof.
  assert (H1 : (Z.to_nat (getSize table_42_31) < 12)%nat) by (cbn; lia).
  split; [exact TWf_table_42_31|]. split; [exact H1|].
  destruct (table_clear_keeps_heads (λ k : Z, k) 12 objects_42_31_free table_42_31
              bs_42_31 TWf_table_42_31 H1)
    as (objects' & t' & E & Hsize & _ & _ & _ & _ & _ & Htable & Hheads).
  exists objects', t'. split; [exact E|]. split; [exact Hsize|]. split; [exact Htable|].
  exact (Hheads 9%nat 1%nat [0%nat] eq_refl).
Defined.

(** X16, an instance: after [clear], the object 2 is inserted under the
    key 20 and the object 1 under the key 31 again; [find(9)] then has
    no result. *)
Lemma table_clear_then_insert_makes_cycle_witness :
  TWf objects_42_31_free table_42_31 bs_42_31 ∧
  (Z.to_nat (getSize table_42_31) < 12)%nat ∧ (3 ≤ 12)%nat ∧
  bs_42_31 !! bucket_index table_42_31 31 = Some [1%nat; 0%nat] ∧
  bucket_index table_42_31 20 = bucket_index table_42_31 31 ∧
  bucket_index table_42_31 9 = bucket_index table_42_31 31 ∧
  20 ≠ 0 ∧ 31 ≠ 0 ∧ 9 ≠ 0 ∧ 20 ≠ 31 ∧ 9 ≠ 20 ∧ 9 ≠ 31 ∧
  objects_42_31_free !! 2%nat = Some unlinked ∧ 2%nat ≠ 1%nat ∧
  isLinkedToHashTable unlinked = false ∧
  ∃ objects1 t1 objects2 t2 objects3 t3,
    clear 12 objects_42_31_free table_42_31 = Some (objects1, t1) ∧
    insert (λ k : Z, k) 12 20 (Some 2%nat) objects1 t1 = Some (true, objects2, t2) ∧
    insert (λ k : Z, k) 12 31 (Some 1%nat) objects2 t2 = Some (true, objects3, t3) ∧
    getSize t3 = 2 ∧
    ∀ fuel', find (λ k : Z, k) fuel' objects3 t3 9 = None.
Proof.
  assert (H1 : (Z.to_nat (getSize table_42_31) < 12)%nat) by (cbn; lia).
  assert (H2 : (3 ≤ 12)%nat) by lia.
  assert (H3 : bs_42_31 !! bucket_index table_42_31 31 = Some [1%nat; 0%nat])
    by reflexivity.
  assert (H4 : bucket_index table_42_31 20 = bucket_index table_42_31 31) by reflexivity.
  assert (H5 : bucket_index table_42_31 9 = bucket_index table_42_31 31) by reflexivity.
  assert (H6 : 20 ≠ 0) by lia. assert (H7 : 31 ≠ 0) by lia. assert (H8 : 9 ≠ 0) by lia.
  assert (H9 : 20 ≠ 31) by lia. assert (H10 : 9 ≠ 20) by lia. assert (H11 : 9 ≠ 31) by lia.
  assert (H12 : objects_42_31_free !! 2%nat = Some unlinked) by reflexivity.
  assert (H13 : 2%nat ≠ 1%nat) by lia.
  assert (H14 : isLinkedToHashTable unlinked = false) by reflexivity.
  split; [exact TWf_table_42_31|]. split; [exact H1|]. split; [exact H2|].
  split; [exact H3|]. split; [exact H4|]. split; [exact H5|]. split; [exact H6|].
  split; [exact H7|]. split; [exact H8|]. split; [exact H9|]. split; [exact H10|].
  split; [exact H11|]. split; [exact H12|]. split; [exact H13|]. split; [exact H14|].
  destruct (table_clear_then_insert_makes_cycle (λ k : Z, k) 12 objects_42_31_free
              table_42_31 bs_42_31 20 31 9 2%nat 1%nat [0%nat] unlinked
              TWf_table_42_31 H1 H2 H3 H4 H5 H6 H7 H8 H9 H10 H11 H12 H13 (or_introl H14))
    as (o1 & t1 & o2 & t2 & o3 & t3 & E1 & E2 & _ & _ & E3 & Hsize & _ & _ & _ & Hfind).
  exists o1, t1, o2, t2, o3, t3.
  split; [exact E1|]. split; [exact E2|]. split; [exact E3|].
  split; [exact Hsize | exact Hfind].
Defined.

(** X17, an instance. *)
Lemma table_deallocate_resets_witness :
  TWf objects_42_31_free table_42_31 bs_42_31 ∧
  (Z.to_nat (getSize table_42_31) < 12)%nat ∧
  ∃ objects',
    deallocate 12 objects_42_31_free table_42_31 =
      Some (objects', IntrusiveHashTable_new false).
Proof.
  assert (H1 : (Z.to_nat (getSize table_42_31) < 12)%nat) by (cbn; lia).
  split; [exact TWf_table_42_31|]. split; [exact H1|].
  destruct (table_deallocate_resets 12 objects_42_31_free table_42_31 bs_42_31
              TWf_table_42_31 H1) as (objects' & E & _).
  exists objects'. exact E.
Defined.

(** X18, an instance: the first insert into a table that does not allow
    duplicates. *)
Lemma table_first_insert_allocates_witness :
  two_objects !! 0%nat = Some unlinked ∧ isLinkedToHashTable unlinked = false ∧
  42 ≠ 0 ∧ (2053 < 2054)%nat ∧
  ∃ objects' t',
    insert (λ k : Z, k) 2054 42 (Some 0%nat) two_objects (IntrusiveHashTable_new false) =
      Some (true, objects', t') ∧
    getBucketCount t' = DefaultCapacity ∧ getSize t' = 1 ∧
    find (λ k : Z, k) 2054 objects' t' 42 = Some (Some 0%nat).
Proof.
  assert (H1 : two_objects !! 0%nat = Some unlinked) by reflexivity.
  assert (H2 : isLinkedToHashTable unlinked = false) by reflexivity.
  assert (H3 : 42 ≠ 0) by lia.
  assert (H4 : (2053 < 2054)%nat) by lia.
  split; [exact H1|]. split; [exact H2|]. split; [exact H3|]. split; [exact H4|].
  destruct (table_first_insert_allocates (λ k : Z, k) 2054 two_objects false 42 0%nat
              unlinked H1 H2 H3 H4)
    as (objects' & t' & E & Hbc & Hsize & _ & _ & _ & Hfind & _).
  exists objects', t'. split; [exact E|]. split; [exact Hbc|].
  split; [exact Hsize | exact Hfind].
Defined.

(** X19, an instance: the object 2 put under the key 20. *)
Lemma table_insert_keeps_hashes_unique_witness :
  TWf objects_42_31_free table_42_31 bs_42_31 ∧
  hash_unique objects_42_31_free bs_42_31 ∧
  isAllowingDuplicateKeys table_42_31 = false ∧
  objects_42_31_free !! 2%nat = Some unlinked ∧
  isLinkedToHashTable unlinked = false ∧ 20 ≠ 0 ∧
  getSize table_42_31 + 1 < 2 ^ 64 ∧
  (Z.to_nat (getSize table_42_31) + 1 < 12)%nat ∧
  ∃ r objects' t' bs',
    insert (λ k : Z, k) 12 20 (Some 2%nat) objects_42_31_free table_42_31 =
      Some (r, objects', t') ∧
    TWf objects' t' bs' ∧ hash_unique objects' bs'.
Proof.
  assert (H1 : isAllowingDuplicateKeys table_42_31 = false) by reflexivity.
  assert (H2 : objects_42_31_free !! 2%nat = Some unlinked) by reflexivity.
  assert (H3 : isLinkedToHashTable unlinked = false) by reflexivity.
  assert (H4 : 20 ≠ 0) by lia.
  assert (H5 : getSize table_42_31 + 1 < 2 ^ 64) by reflexivity.
  assert (H6 : (Z.to_nat (getSize table_42_31) + 1 < 12)%nat) by (cbn; lia).
  split; [exact TWf_table_42_31|]. split; [exact hash_unique_42_31|].
  split; [exact H1|]. split; [exact H2|]. split; [exact H3|]. split; [exact H4|].
  split; [exact H5|]. split; [exact H6|].
  destruct (table_insert_keeps_hashes_unique (λ k : Z, k) 12 objects_42_31_free
              table_42_31 bs_42_31 20 2%nat unlinked TWf_table_42_31 hash_unique_42_31
              H1 H2 H3 H4 H5 H6)
    as (r & objects' & t' & bs' & E & _ & HW' & Hu' & _).
  exists r, objects', t', bs'. split; [exact E|]. split; [exact HW' | exact Hu'].
Defined.

(** ** The duplicates flag *)

Lemma TWf_setAllowDuplicateKeys objects t bs allow :
  TWf objects t bs → TWf objects (setAllowDuplicateKeys allow t) bs.
Proof. intros [? ? ? ? ? ?]. by split. Qed.

Section flag_theorems.
Context {K : Type} (KeyHasher : K → Z).

(** X21.  [setAllowDuplicateKeys] writes the flag and nothing else, so
    turning the flag off does not take duplicates out: when a key that
    [find] sees is inserted once more while duplicates are allowed, and
    the flag is then turned off, the table is well formed, its flag is
    off, and [countAllMatching] for the key is at least 2; a further
    [insert] of the key is rejected. *)
Theorem table_flag_off_keeps_duplicates
    (fuel : nat) (objects : list HashTableNode) (t : IntrusiveHashTable)
    (bs : list (list nat)) (key : K) (v w a : nat) (n m : HashTableNode) :
  TWf objects t bs → KeyHasher key ≠ 0 →
  getSize t + 1 < 2 ^ 64 → (Z.to_nat (getSize t) + 1 < fuel)%nat →
  find KeyHasher fuel objects t key = Some (Some a) →
  objects !! v = Some n → isLinkedToHashTable n = false →
  objects !! w = Some m → isLinkedToHashTable m = false → w ≠ v →
  ∃ objects' t' bs',
    insert KeyHasher fuel key (Some v) objects (setAllowDuplicateKeys true t) =
      Some (true, objects', t') ∧
    TWf objects' (setAllowDuplicateKeys false t') bs' ∧
    isAllowingDuplicateKeys (setAllowDuplicateKeys false t') = false ∧
    (∃ c, countAllMatching KeyHasher fuel objects' (setAllowDuplicateKeys false t') key
            = Some c ∧ 2 <= c) ∧
    insert KeyHasher fuel key (Some w) objects' (setAllowDuplicateKeys false t') =
      Some (false, objects', setAllowDuplicateKeys false t').
Proof.
  unfold getSize. intros HW Hh Hr Hf Hfind Hv Hlv Hw Hlw Hwv.
  assert (H0 : htKeyHash n = 0).
  { unfold isLinkedToHashTable in Hlv. by apply negb_false_iff, Z.eqb_eq in Hlv. }
  assert (H0w : htKeyHash m = 0).
  { unfold isLinkedToHashTable in Hlw. by apply negb_false_iff, Z.eqb_eq in Hlw. }
  destruct (TWf_bucket objects t bs (KeyHasher key) HW) as (l & item & _ & Hl & _).
  pose proof (TWf_table _ _ _ HW) as (tbl & Htbl & _).
  pose proof (TWf_used _ _ _ HW) as Hu.
  rewrite (find_TWf KeyHasher fuel objects t bs key l HW Hh ltac:(lia) Hl) in Hfind.
  injection Hfind as Hhead.
  set (t1 := setAllowDuplicateKeys true t).
  pose proof (TWf_setAllowDuplicateKeys objects t bs true HW) as HW1. fold t1 in HW1.
  set (i := bucket_index t (KeyHasher key)) in *.
  pose proof (insert_TWf KeyHasher fuel objects t1 bs key v n l tbl HW1 Hv H0 Hh
                ltac:(cbn; lia) Hl Htbl) as E.
  pose proof (TWf_insert KeyHasher objects t1 bs key v n l tbl HW1 Hv H0 Hh Hr Hl Htbl)
    as HW'.
  cbn [t1 setAllowDuplicateKeys allowDupKeys negb andb bucketCount usedBuckets] in E, HW'.
  change (bucket_index t1 (KeyHasher key)) with i in E, HW'.
  set (objects' := <[v:=mkHashTableNode (default None (tbl !! i)) (KeyHasher key)]> objects)
    in *.
  set (t' := mkIntrusiveHashTable (Some (<[i:=Some v]> tbl)) (bucketCount t)
               (wrap_size (usedBuckets t + 1)) true) in *.
  pose proof (TWf_setAllowDuplicateKeys objects' t' _ false HW') as HW2.
  set (t2 := setAllowDuplicateKeys false t') in *.
  assert (Hw2 : usedBuckets t2 = usedBuckets t + 1).
  { unfold t2, t', wrap_size. cbn. apply Z.mod_small. lia. }
  assert (Hl2 : <[i:=v :: l]> bs !! bucket_index t2 (KeyHasher key) = Some (v :: l)).
  { apply list_lookup_insert_eq. by eapply lookup_lt_Some. }
  assert (Hv' : objects' !! v = Some (mkHashTableNode (default None (tbl !! i)) (KeyHasher key))).
  { apply list_lookup_insert_eq. by eapply lookup_lt_Some. }
  assert (Hm : matching objects' (KeyHasher key) (v :: l) =
               v :: matching objects (KeyHasher key) l).
  { unfold matching at 1. rewrite filter_cons_True by by rewrite (hash_at_Some _ _ _ Hv').
    f_equal. apply matching_ext. intros b Hb. apply hash_at_insert_ne. intros ->.
    apply (TWf_unlinked_notin _ _ _ _ _ HW Hv H0).
    apply elem_of_concat_lookup. by exists i, l. }
  assert (Hw' : objects' !! w = Some m).
  { unfold objects'. by rewrite list_lookup_insert_ne. }
  exists objects', t', (<[i:=v :: l]> bs). split_and!.
  - exact E.
  - exact HW2.
  - done.
  - eexists. split.
    + apply (countAllMatching_TWf KeyHasher fuel objects' t2 _ key (v :: l) HW2 Hh
               ltac:(lia) Hl2).
    + rewrite Hm. destruct (matching objects (KeyHasher key) l); [done|].
      cbn [length]. lia.
  - fold t2.
    rewrite (insert_TWf KeyHasher fuel objects' t2 _ key w m (v :: l)
               (<[i:=Some v]> tbl) HW2 Hw' H0w Hh ltac:(lia) Hl2 eq_refl).
    rewrite Hm. cbn [t2 t' setAllowDuplicateKeys allowDupKeys negb andb head].
    by rewrite bool_decide_eq_true_2.
Qed.

End flag_theorems.

(** X21, an instance: a second object under the key 42. *)
Lemma table_flag_off_keeps_duplicates_witness :
  TWf (objects_42_31_free ++ [unlinked]) table_42_31 bs_42_31 ∧ 42 ≠ 0 ∧
  getSize table_42_31 + 1 < 2 ^ 64 ∧
  (Z.to_nat (getSize table_42_31) + 1 < 12)%nat ∧
  find (λ k : Z, k) 12 (objects_42_31_free ++ [unlinked]) table_42_31 42 =
    Some (Some 0%nat) ∧
  (objects_42_31_free ++ [unlinked]) !! 2%nat = Some unlinked ∧
  isLinkedToHashTable unlinked = false ∧
  (objects_42_31_free ++ [unlinked]) !! 3%nat = Some unlinked ∧ 3%nat ≠ 2%nat ∧
  ∃ objects' t',
    insert (λ k : Z, k) 12 42 (Some 2%nat) (objects_42_31_free ++ [unlinked])
      (setAllowDuplicateKeys true table_42_31) = Some (true, objects', t') ∧
    isAllowingDuplicateKeys (setAllowDuplicateKeys false t') = false ∧
    ∃ c, countAllMatching (λ k : Z, k) 12 objects' (setAllowDuplicateKeys false t') 42
           = Some c ∧ 2 <= c.
Proof.
  assert (H0 : TWf (objects_42_31_free ++ [unlinked]) table_42_31 bs_42_31).
  { pose proof (TWf_allocated (replicate 4 unlinked) 11 false ltac:(lia) ltac:(done)) as Ha.
    pose proof (TWf_insert (λ k : Z, k) _ _ _ 42 0%nat unlinked [] _ Ha
                  eq_refl eq_refl ltac:(done) ltac:(done) eq_refl eq_refl) as Hb.
    exact (TWf_insert (λ k : Z, k) _ _ _ 31 1%nat unlinked [0%nat] _ Hb
             eq_refl eq_refl ltac:(done) ltac:(done) eq_refl eq_refl). }
  assert (H1 : 42 ≠ 0) by lia.
  assert (H2 : getSize table_42_31 + 1 < 2 ^ 64) by reflexivity.
  assert (H3 : (Z.to_nat (getSize table_42_31) + 1 < 12)%nat) by (cbn; lia).
  assert (H4 : find (λ k : Z, k) 12 (objects_42_31_free ++ [unlinked]) table_42_31 42 =
               Some (Some 0%nat)) by reflexivity.
  assert (H5 : (objects_42_31_free ++ [unlinked]) !! 2%nat = Some unlinked) by reflexivity.
  assert (H6 : isLinkedToHashTable unlinked = false) by reflexivity.
  assert (H7 : (objects_42_31_free ++ [unlinked]) !! 3%nat = Some unlinked) by reflexivity.
  assert (H8 : 3%nat ≠ 2%nat) by lia.
  split; [exact H0|]. split; [exact H1|]. split; [exact H2|]. split; [exact H3|].
  split; [exact H4|]. split; [exact H5|]. split; [exact H6|]. split; [exact H7|].
  split; [exact H8|].
  destruct (table_flag_off_keeps_duplicates (λ k : Z, k) 12
              (objects_42_31_free ++ [unlinked]) table_42_31 bs_42_31 42
              2%nat 3%nat 0%nat unlinked unlinked H0 H1 H2 H3 H4 H5 H6 H7 H6 H8)
    as (objects' & t' & bs' & E & _ & Hflag & Hcount & _).
  exists objects', t'. split; [exact E|]. split; [exact Hflag | exact Hcount].
Defined.

(** ** [find] after [clear] *)

(** The object and the table of 11 buckets after [insert(42, &o0)],
    [clear()] and [insert(42, &o0)] again.  [clear] has left the bucket 9
    pointing at the object, so the second [insert] has made the object its
    own successor. *)
Definition objects_self : list HashTableNode := [mkHashTableNode (Some 0%nat) 42].
Definition table_self : IntrusiveHashTable :=
  mkIntrusiveHashTable (Some (<[9%nat:=Some 0%nat]> (replicate 11 None))) 11 1 false.

(** C8.  [find] for a hash that no object holds, on a table that is not
    empty: after [allocate(10)], [insert(42, &o0)], [clear()] and
    [insert(42, &o0)], with the key as its own hash, the table holds one
    object, of hash 42, and the chain of the bucket 9 leads from that
    object to itself.  [find(31)] looks into this bucket, finds no object
    of hash 31, and does not return null: it has no result for any number
    of steps of its loop. *)
Theorem find_after_clear_has_no_result :
  allocate 12 10 (IntrusiveHashTable_new false) =
    Some (Returned (mkIntrusiveHashTable (Some (replicate 11 None)) 11 0 false)) ∧
  ('(b1, objects, t) ← insert (λ k : Z, k) 12 42 (Some 0%nat) [unlinked]
                         (mkIntrusiveHashTable (Some (replicate 11 None)) 11 0 false);
   '(objects, t) ← clear 12 objects t;
   '(b2, objects, t) ← insert (λ k : Z, k) 12 42 (Some 0%nat) objects t;
   Some (b1, b2, objects, t)) = Some (true, true, objects_self, table_self) ∧
  isEmpty table_self = false ∧ getSize table_self = 1 ∧
  bucketOf table_self 31 = Some 9 ∧
  bucket_head table_self 9 = Some (Some 0%nat) ∧
  objects_self !! 0%nat = Some (mkHashTableNode (Some 0%nat) 42) ∧
  (∀ a n, objects_self !! a = Some n → htKeyHash n ≠ 31) ∧
  find (λ k : Z, k) 12 objects_self table_self 42 = Some (Some 0%nat) ∧
  ∀ fuel, find (λ k : Z, k) fuel objects_self table_self 31 = None.
Proof.
  split_and!; try (vm_compute; reflexivity).
  - intros [|a] n Hn; [|done]. injection Hn as <-. done.
  - intros fuel.
    change (find (λ k : Z, k) fuel objects_self table_self 31)
      with (find_loop fuel objects_self 31 (Some 0%nat)).
    by apply (find_loop_cycle objects_self 31 0%nat 0%nat 42 42).
Qed.

End Intrusive.

(** * The cache of singleton.cpp and its reader in libb.cpp *)

Module LibB.

(** [using Cache = LRUCache<int, int>]. *)
Definition Cache : Type := LRUC.LRUCache Z Z.

(** The cache that [getCache()] constructs on its first call,
    [static Cache c{4242}]; the bucket count is the default argument
    [std::thread::hardware_concurrency() * 8]. *)
Definition getCache_initial (hardware_concurrency : nat) : Cache :=
  LRUC.LRUCache_new 4242 (hardware_concurrency * 8).

(** [get()] of libb.cpp, without its output.  The accessor is
    default-initialised, which leaves its [int] member [value_] without an
    initial value: [uninitialised] is what the member holds.  The result of
    [find] is not looked at. *)
Definition get (try_lock : bool) (uninitialised : Z) : LRUC.M (K:=Z) (V:=Z) Z :=
  '(_, accessor) ← LRUC.find try_lock (LRUC.ConstAccessor.mk None uninitialised) 42;
  mret (LRUC.ConstAccessor.get accessor).

(** X20.  [get()] returns the value that the cache holds under the key
    42.  When the cache has no such key, as right after its construction,
    it returns what the accessor held before the call, which [get()] never
    initialised. *)
Theorem get_returns_value_or_uninitialised
    (try_lock : bool) (uninitialised : Z) (c : Cache) (ks : list Z) :
  LRUC.Wf c ks →
  ∃ r c', get try_lock uninitialised c = Some (r, c') ∧
    (∀ entry, LRUC.hash_map_ c !! 42 = Some entry → r = LRUC.value_ entry) ∧
    (42 ∉ ks → r = uninitialised) ∧
    ∀ hardware_concurrency,
      LRUC.eval (get try_lock uninitialised) (getCache_initial hardware_concurrency) =
        Some uninitialised.
Proof.
  intros HW.
  destruct (LRUC.find_spec c ks try_lock (LRUC.ConstAccessor.mk None uninitialised) 42 HW)
    as (c' & E & _).
  eexists _, c'. split_and!.
  - unfold get. rewrite (LRUC.bind_Some _ _ _ _ _ E). reflexivity.
  - intros entry He. by rewrite He.
  - intros Hk. destruct (LRUC.hash_map_ c !! 42) as [e|] eqn:He; [|done].
    exfalso. apply Hk. apply (LRUC.Wf_lookup c ks 42 HW). by eexists.
  - intros hc.
    destruct (LRUC.find_spec (getCache_initial hc) [] try_lock
                (LRUC.ConstAccessor.mk None uninitialised) 42 (LRUC.new_spec _ _))
      as (c0 & E0 & _).
    unfold LRUC.eval, get. rewrite (LRUC.bind_Some _ _ _ _ _ E0). reflexivity.
Qed.

(** X20, an instance: the cache as [getCache()] constructs it. *)
Lemma get_returns_value_or_uninitialised_witness :
  LRUC.Wf (getCache_initial 1) [] ∧
  ∃ r c', get true 7 (getCache_initial 1) = Some (r, c') ∧ (42 ∉ @nil Z → r = 7).
Proof.
  split; [exact (LRUC.new_spec _ _)|].
  destruct (get_returns_value_or_uninitialised true 7 (getCache_initial 1) []
              (LRUC.new_spec _ _)) as (r & c' & E & _ & Hu & _).
  exists r, c'. split; [exact E | exact Hu].
Defined.

End LibB.
